(** * The PostgreSQL migration driver of ent ([dialect/sql/schema/postgres.go])

    A shallow embedding of the driver's catalog introspection and DDL
    generation, and the properties of it that the schema specification
    states.  Go strings are byte strings ([string] over [ascii]), Go [int]
    and [int64] values are [Z], maps are [gmap], and a pointer into a slice
    is the position of the element in the list that models the slice. *)

From Stdlib Require Import ZArith Ascii String DecimalString.
From stdpp Require Import base option list strings gmap.

Local Open Scope Z_scope.

(** ** Results of fallible code

    A Go function returning [(T, error)] or [error] returns [result T]:
    [Ok v] for a nil error, [Err msg] for [fmt.Errorf] with message [msg]. *)

Inductive result (A : Type) : Type :=
| Ok (v : A)
| Err (msg : string).
Arguments Ok {A} v.
Arguments Err {A} msg.

(** A function that may [panic]. *)
Inductive outcome (A : Type) : Type :=
| Returned (v : A)
| Panicked (msg : string).
Arguments Returned {A} v.
Arguments Panicked {A} msg.

(** ** The parts of Go's [strings], [strconv] and [fmt] the driver calls *)

Module strings.

Definition len (s : string) : Z := Z.of_nat (String.length s).

Fixpoint drop (n : nat) (s : string) : string :=
  match n, s with
  | O, _ => s
  | S n', String _ r => drop n' r
  | S _, EmptyString => EmptyString
  end.

Fixpoint take (n : nat) (s : string) : string :=
  match n, s with
  | S n', String a r => String a (take n' r)
  | _, _ => EmptyString
  end.

(** [s[i:j]], for indexes within bounds. *)
Definition slice (s : string) (i j : Z) : string :=
  take (Z.to_nat (j - i)) (drop (Z.to_nat i) s).

Definition HasPrefix (s p : string) : bool := String.prefix p s.

Definition HasSuffix (s p : string) : bool :=
  (String.length p <=? String.length s)%nat
  && String.eqb (drop (String.length s - String.length p) s) p.

Definition TrimPrefix (s p : string) : string :=
  if HasPrefix s p then drop (String.length p) s else s.

Definition TrimSuffix (s p : string) : string :=
  if HasSuffix s p then take (String.length s - String.length p) s else s.

Fixpoint Join (elems : list string) (sep : string) : string :=
  match elems with
  | [] => EmptyString
  | [e] => e
  | e :: rest => e +:+ sep +:+ Join rest sep
  end.

(** [Split s sep] for a non-empty separator: the pieces between the
    non-overlapping occurrences of [sep], found left to right.  [skip]
    counts the bytes of a matched separator still to be passed over and
    [cur] is the piece read so far. *)
Fixpoint split_from (sep : string) (skip : nat) (cur : string) (s : string)
  : list string :=
  match s with
  | EmptyString => [cur]
  | String a r =>
      match skip with
      | S k => split_from sep k cur r
      | O =>
          if String.prefix sep s
          then cur :: split_from sep (String.length sep - 1) EmptyString r
          else split_from sep O (cur +:+ String a EmptyString) r
      end
  end.

Definition Split (s sep : string) : list string :=
  split_from sep O EmptyString s.

Fixpoint Contains (s sub : string) : bool :=
  String.prefix sub s
  || match s with
     | EmptyString => false
     | String _ r => Contains r sub
     end.

(** For a non-empty [old], [ReplaceAll] replaces the same occurrences
    that [Split] cuts at. *)
Definition ReplaceAll (s old new : string) : string :=
  Join (Split s old) new.

Fixpoint in_cutset (c : ascii) (cutset : string) : bool :=
  match cutset with
  | EmptyString => false
  | String a r => Ascii.eqb a c || in_cutset c r
  end.

Fixpoint TrimLeft (s cutset : string) : string :=
  match s with
  | EmptyString => EmptyString
  | String a r => if in_cutset a cutset then TrimLeft r cutset else s
  end.

Fixpoint TrimRight (s cutset : string) : string :=
  match s with
  | EmptyString => EmptyString
  | String a r =>
      match TrimRight r cutset with
      | EmptyString =>
          if in_cutset a cutset then EmptyString else String a EmptyString
      | r' => String a r'
      end
  end.

Definition Trim (s cutset : string) : string :=
  TrimRight (TrimLeft s cutset) cutset.

Fixpoint IndexByte (s : string) (c : ascii) : Z :=
  match s with
  | EmptyString => -1
  | String a r =>
      if Ascii.eqb a c then 0
      else let i := IndexByte r c in if i <? 0 then -1 else i + 1
  end.

Fixpoint LastIndexByte (s : string) (c : ascii) : Z :=
  match s with
  | EmptyString => -1
  | String a r =>
      let j := LastIndexByte r c in
      if 0 <=? j then j + 1 else if Ascii.eqb a c then 0 else -1
  end.

End strings.

(** [fmt.Sprintf("%d", z)] and [strconv.FormatBool]. *)
Definition itoa (z : Z) : string := NilZero.string_of_int (Z.to_int z).

Definition FormatBool (b : bool) : string :=
  if b then "true"%string else "false"%string.

(** ** The schema model *)

Module field.

(** Modelled from the spec: the semantic column types, declared in package
    [schema/field]: "bool, int8/16/32/64 and unsigned variants, float32/64,
    string, bytes, time, JSON, UUID, enum, opaque/other".  The constructors
    are the constants the driver names; [TypeInvalid] is the zero value of
    the type. *)
Inductive Type_ : Set :=
| TypeInvalid | TypeBool | TypeTime | TypeJSON | TypeUUID | TypeBytes
| TypeEnum | TypeString | TypeOther
| TypeInt8 | TypeInt16 | TypeInt32 | TypeInt | TypeInt64
| TypeUint8 | TypeUint16 | TypeUint32 | TypeUint | TypeUint64
| TypeFloat32 | TypeFloat64.

#[global] Instance Type_eq_dec : EqDecision Type_.
Proof. solve_decision. Defined.

(** Modelled from the spec: [Type.Numeric], declared with the type; the
    "purely numeric types" are the integer and floating-point ones. *)
Definition Numeric (t : Type_) : bool :=
  match t with
  | TypeInt8 | TypeInt16 | TypeInt32 | TypeInt | TypeInt64
  | TypeUint8 | TypeUint16 | TypeUint32 | TypeUint | TypeUint64
  | TypeFloat32 | TypeFloat64 => true
  | _ => false
  end.

End field.

(** A default value is an [interface{}]; the driver distinguishes [bool]
    and [string] dynamic types from the rest. *)
Inductive DefaultValue : Type :=
| DBool (b : bool)
| DString (s : string)
| DInt (z : Z).

Record Column : Type := mkColumn {
  Name : string;
  Type_ : field.Type_;
  typ : string;                          (* row column type (used for Rows.Scan) *)
  Size : Z;
  Nullable : bool;
  Unique : bool;
  Default : option DefaultValue;         (* nil is None *)
  SchemaType : option (gmap string string) (* nil map is None *)
}.

(** [&Column{}] *)
Definition Column_zero : Column :=
  {| Name := EmptyString; Type_ := field.TypeInvalid; typ := EmptyString;
     Size := 0; Nullable := false; Unique := false; Default := None;
     SchemaType := None |}.

Record Index : Type := mkIndex {
  idx_Name : string;
  idx_Unique : bool;
  idx_Columns : list Column;
  idx_columns : list string;             (* columns loaded from query scan *)
  idx_primary : bool;
  idx_realname : string
}.

(** [RefTable] is a [*Table]; it is kept as the position of the table in
    the slice of tables handed to the driver. *)
Record ForeignKey : Type := mkForeignKey {
  Symbol : string;
  fk_Columns : list Column;
  RefTable : nat;
  RefColumns : list Column
}.

Record Table : Type := mkTable {
  tbl_Name : string;
  Columns : list Column;
  PrimaryKey : list Column;
  ForeignKeys : list ForeignKey
}.

(** [sql.NullString] and [sql.NullInt64]. *)
Record NullString : Type := { ns_String : string; ns_Valid : bool }.
Record NullInt64 : Type := { ni_Int64 : Z; ni_Valid : bool }.

Definition null_string : NullString :=
  {| ns_String := EmptyString; ns_Valid := false |}.
Definition null_int64 : NullInt64 := {| ni_Int64 := 0; ni_Valid := false |}.
Definition valid_string (s : string) : NullString :=
  {| ns_String := s; ns_Valid := true |}.
Definition valid_int64 (z : Z) : NullInt64 :=
  {| ni_Int64 := z; ni_Valid := true |}.

(** A result set: what each [rows.Next(); rows.Scan(...)] yields, in order
    (a scan may fail), and the error [rows.Err()] reports once [Next]
    returns false. *)
Record Rows (A : Type) : Type := mkRows {
  pending : list (result A);
  rows_err : option string
}.
Arguments mkRows {A} pending rows_err.
Arguments pending {A} r.
Arguments rows_err {A} r.

(** ** Declarations of the package that live in other files

    The driver calls methods of [Column] and [Index] and names a constant of
    package [dialect] whose definitions are not in the file modelled here.
    They are parameters of the development: every theorem holds whatever
    they are. *)
Class Declarations : Type := {
  dialect_Postgres : string;                       (* dialect.Postgres *)
  scanTypeOr : Column -> string -> string;         (* Column.scanTypeOr *)
  supportDefault : Column -> bool;                 (* Column.supportDefault *)
  ScanDefault : Column -> string -> result Column; (* Column.ScanDefault *)
  columnNames : Index -> list string;              (* Index.columnNames *)
  Type_String : field.Type_ -> string;             (* field.Type.String *)
  Quote : string -> string                         (* the verb %q of fmt *)
}.

(** [fmt.Sprint(c.Default)] *)
Definition Sprint (d : DefaultValue) : string :=
  match d with
  | DBool b => FormatBool b
  | DString s => s
  | DInt z => itoa z
  end.

(** Field updates of a [Column]. *)
Definition set_Name (v : string) (c : Column) : Column :=
  mkColumn v (Type_ c) (typ c) (Size c) (Nullable c) (Unique c) (Default c)
    (SchemaType c).
Definition set_Type (v : field.Type_) (c : Column) : Column :=
  mkColumn (Name c) v (typ c) (Size c) (Nullable c) (Unique c) (Default c)
    (SchemaType c).
Definition set_typ (v : string) (c : Column) : Column :=
  mkColumn (Name c) (Type_ c) v (Size c) (Nullable c) (Unique c) (Default c)
    (SchemaType c).
Definition set_Size (v : Z) (c : Column) : Column :=
  mkColumn (Name c) (Type_ c) (typ c) v (Nullable c) (Unique c) (Default c)
    (SchemaType c).
Definition set_Nullable (v : bool) (c : Column) : Column :=
  mkColumn (Name c) (Type_ c) (typ c) (Size c) v (Unique c) (Default c)
    (SchemaType c).
Definition set_Default (v : option DefaultValue) (c : Column) : Column :=
  mkColumn (Name c) (Type_ c) (typ c) (Size c) (Nullable c) (Unique c) v
    (SchemaType c).
Definition set_SchemaType (v : option (gmap string string)) (c : Column)
  : Column :=
  mkColumn (Name c) (Type_ c) (typ c) (Size c) (Nullable c) (Unique c)
    (Default c) v.

(** [s] is one of the labels of a [case]. *)
Definition one_of (s : string) (labels : list string) : bool :=
  existsb (String.eqb s) labels.

(** ** The driver *)

(** [maxCharSize] defines the maximum size of limited character types in
    Postgres (10 MB). *)
Definition maxCharSize : Z := Z.shiftl 10 20.

(** [isAlpha], on a byte.  [callExpr] ranges over the runes of a string;
    a rune decoded from bytes outside ASCII is at least 128 and fails every
    comparison below, as each of those bytes does here. *)
Definition isAlpha (r : ascii) (digit : bool) : bool :=
  let n := Z.of_N (N_of_ascii r) in
  (97 <=? n) && (n <=? 122) || (65 <=? n) && (n <=? 90) || (n =? 95)
  || digit && (48 <=? n) && (n <=? 57).

(** [for i, r := range s { if !isAlpha(r, i > 0) { return false } }],
    from byte index [i]. *)
Fixpoint alpha_range (i : Z) (s : string) : bool :=
  match s with
  | EmptyString => true
  | String r rest => if negb (isAlpha r (i >? 0)) then false
                     else alpha_range (i + 1) rest
  end.

(** The string [callExpr] examines: [s], or the part before its first
    [::] when [s] does not end with a closing parenthesis and that part
    does. *)
Definition callExpr_subject (s : string) : string :=
  let parts := strings.Split s "::" in
  if negb (strings.HasSuffix s ")") && strings.HasSuffix (hd EmptyString parts) ")"
  then hd EmptyString parts else s.

(** [callExpr] reports if the given string ~looks like a function call
    expression. *)
Definition callExpr (s : string) : bool :=
  let s := callExpr_subject s in
  let i := strings.IndexByte s "(" in
  let j := strings.LastIndexByte s ")" in
  if (i =? -1) || (i >? j) || negb (j =? strings.len s - 1) then false
  else alpha_range 0 (strings.slice s 0 i).

(** A row of [information_schema.columns], as [scanColumn] selects it. *)
Record ColumnRow : Type := mkColumnRow {
  column_name : string;
  data_type : string;
  is_nullable : NullString;
  column_default : NullString;
  udt_name : NullString;
  numeric_precision : NullInt64;
  numeric_scale : NullInt64;
  character_maximum_length : NullInt64
}.

(** [sql.ColumnBuilder], as the attributes given to it by [Attr], in
    order. *)
Definition ColumnBuilder : Type := list string.
Definition Attr (b : ColumnBuilder) (attr : string) : ColumnBuilder :=
  b ++ [attr].

Section Driver.
Context `{Declarations}.

(** [map[string]string{dialect.Postgres: schemaType}] *)
Definition postgres_only (schemaType : string) : option (gmap string string) :=
  Some {[ dialect_Postgres := schemaType ]}.

(** The first [switch] of [scanColumn], on [c.typ]. *)
Definition scanColumn_type (c : Column) (row : ColumnRow) : result Column :=
  let t := typ c in
  if one_of t ["boolean"] then Ok (set_Type field.TypeBool c)
  else if one_of t ["smallint"] then Ok (set_Type field.TypeInt16 c)
  else if one_of t ["integer"] then Ok (set_Type field.TypeInt32 c)
  else if one_of t ["bigint"] then Ok (set_Type field.TypeInt64 c)
  else if one_of t ["real"] then Ok (set_Type field.TypeFloat32 c)
  else if one_of t ["double precision"] then Ok (set_Type field.TypeFloat64 c)
  else if one_of t ["numeric"; "decimal"] then
    let c := set_Type field.TypeFloat64 c in
    if ni_Valid (numeric_precision row) then
      let schemaType :=
        t +:+ "(" +:+ itoa (ni_Int64 (numeric_precision row)) +:+ ","
          +:+ itoa (ni_Int64 (numeric_scale row)) +:+ ")" in
      Ok (set_SchemaType (postgres_only schemaType) c)
    else Ok c
  else if one_of t ["text"] then
    Ok (set_Size (maxCharSize + 1) (set_Type field.TypeString c))
  else if one_of t ["character"; "character varying"] then
    let c := set_Type field.TypeString c in
    if ni_Valid (character_maximum_length row) then
      let schemaType :=
        "varchar(" +:+ itoa (ni_Int64 (character_maximum_length row)) +:+ ")" in
      Ok (set_SchemaType (postgres_only schemaType) c)
    else Ok c
  else if one_of t ["date"; "time"; "timestamp"; "timestamp with time zone";
                    "timestamp without time zone"] then
    Ok (set_Type field.TypeTime c)
  else if one_of t ["bytea"] then Ok (set_Type field.TypeBytes c)
  else if one_of t ["jsonb"] then Ok (set_Type field.TypeJSON c)
  else if one_of t ["uuid"] then Ok (set_Type field.TypeUUID c)
  else if one_of t ["cidr"; "inet"; "macaddr"; "macaddr8"] then
    Ok (set_Type field.TypeOther c)
  else if one_of t ["ARRAY"] then
    let c := set_Type field.TypeOther c in
    if negb (ns_Valid (udt_name row)) then
      Err ("missing array type for column " +:+ Quote (Name c))
    else
      Ok (set_typ (ns_String (udt_name row))
            (set_SchemaType (postgres_only "ARRAY") c))
  else if one_of t ["USER-DEFINED"; "tstzrange"; "interval"] then
    let c := set_Type field.TypeOther c in
    if negb (ns_Valid (udt_name row)) then
      Err ("missing user defined type for column " +:+ Quote (Name c))
    else Ok (set_SchemaType (postgres_only (ns_String (udt_name row))) c)
  else Ok c.

(** The second [switch] of [scanColumn], on the column default. *)
Definition scanColumn_default (c : Column) (defaults : NullString)
  : result Column :=
  if negb (ns_Valid defaults) || bool_decide (Type_ c = field.TypeTime)
     || callExpr (ns_String defaults)
  then Ok c
  else if strings.Contains (ns_String defaults) "::" then
    let parts := strings.Split (ns_String defaults) "::" in
    ScanDefault c (strings.Trim (hd EmptyString parts) "'")
  else ScanDefault c (ns_String defaults).

(** The head of [scanColumn]: the name and data type that [rows.Scan]
    stores in the column, and the nullable flag. *)
Definition scanColumn_head (c : Column) (row : ColumnRow) : Column :=
  let c := set_typ (data_type row) (set_Name (column_name row) c) in
  if ns_Valid (is_nullable row)
  then set_Nullable (String.eqb (ns_String (is_nullable row)) "YES") c
  else c.

(** [scanColumn] scans the information a column from column description.
    [scan] is what [rows.Scan] yields for the current row. *)
Definition scanColumn (c : Column) (scan : result ColumnRow) : result Column :=
  match scan with
  | Err e => Err ("scanning column description: " +:+ e)
  | Ok row =>
      let c := scanColumn_head c row in
      match scanColumn_type c row with
      | Err e => Err e
      | Ok c => scanColumn_default c (column_default row)
      end
  end.

(** [c.SchemaType[dialect.Postgres]]; indexing a nil map or a missing key
    gives the empty string. *)
Definition schemaType_Postgres (c : Column) : string :=
  match SchemaType c with
  | Some m => default EmptyString (m !! dialect_Postgres)
  | None => EmptyString
  end.

(** [cType] returns the PostgreSQL string type for this column. *)
Definition cType (c : Column) : outcome string :=
  if bool_decide (SchemaType c <> None)
     && negb (String.eqb (schemaType_Postgres c) EmptyString)
  then Returned (schemaType_Postgres c)
  else
    match Type_ c with
    | field.TypeBool => Returned "boolean"
    | field.TypeUint8 | field.TypeInt8 | field.TypeInt16 | field.TypeUint16 =>
        Returned "smallint"
    | field.TypeInt32 | field.TypeUint32 => Returned "int"
    | field.TypeInt | field.TypeUint | field.TypeInt64 | field.TypeUint64 =>
        Returned "bigint"
    | field.TypeFloat32 => Returned (scanTypeOr c "real")
    | field.TypeFloat64 => Returned (scanTypeOr c "double precision")
    | field.TypeBytes => Returned "bytea"
    | field.TypeJSON => Returned "jsonb"
    | field.TypeUUID => Returned "uuid"
    | field.TypeString =>
        Returned (if Size c >? maxCharSize then "text" else "varchar")
    | field.TypeTime => Returned (scanTypeOr c "timestamp with time zone")
    | field.TypeEnum => Returned "varchar"
    | field.TypeOther => Returned (typ c)
    | _ => (* default *)
        Panicked ("unsupported type " +:+ Quote (Type_String (Type_ c))
                    +:+ " for column " +:+ Quote (Name c))
    end.

(** [writeDefault] writes the [DEFAULT] clause to column builder if exists
    and supported by the driver. *)
Definition writeDefault (b : ColumnBuilder) (c : Column) (clause : string)
  : ColumnBuilder :=
  match Default c with
  | None => b
  | Some d =>
      if negb (supportDefault c) then b
      else
        let attr := Sprint d in
        let attr :=
          match d with
          | DBool v => FormatBool v
          | DString v =>
              let t := Type_ c in
              if bool_decide (t <> field.TypeUUID)
                 && bool_decide (t <> field.TypeTime)
                 && negb (field.Numeric t)
              then "'" +:+ strings.ReplaceAll v "'" "''" +:+ "'"
              else attr
          | _ => attr
          end in
        Attr b (clause +:+ " " +:+ attr)
  end.

(** [hasUniqueName] reports if the index has a unique name in the
    schema. *)
Definition hasUniqueName (i : Index) : bool :=
  let name := strings.TrimSuffix (idx_Name i) "_key" in
  let suffix := strings.Join (columnNames i) "_" in
  if negb (strings.HasSuffix name suffix) then true
  else negb (String.eqb name suffix).

(** [sql.IndexBuilder], as the calls made on it. *)
Record IndexBuilder : Type := mkIndexBuilder {
  ib_name : string;                    (* CreateIndex(name) *)
  ib_ifNotExists : bool;               (* IfNotExists() *)
  ib_table : string;                   (* Table(table) *)
  ib_unique : bool;                    (* Unique() *)
  ib_columns : list string             (* Column(c.Name), in order *)
}.

(** [addIndex] returns the query for adding an index to PostgreSQL. *)
Definition addIndex (i : Index) (table : string) : IndexBuilder :=
  let name := idx_Name i in
  let name := if negb (hasUniqueName i)
              then table +:+ "_" +:+ idx_Name i
              else name in
  {| ib_name := name; ib_ifNotExists := true; ib_table := table;
     ib_unique := idx_Unique i; ib_columns := map Name (idx_Columns i) |}.

End Driver.

(** *** Statements run on the transaction

    [dialect.Tx] is the log of the statements handed to [Exec], and the
    error (if any) with which the server answers each. *)
Record Tx : Type := mkTx {
  executed : list string;
  answer_exec : string -> option string
}.

Definition Exec (tx : Tx) (query : string) : option string * Tx :=
  (answer_exec tx query,
   {| executed := executed tx ++ [query]; answer_exec := answer_exec tx |}).

(** [setRange] sets restart the identity column to the given offset.  Used
    by the universal-id option. *)
Definition setRange (tx : Tx) (t : Table) (value : Z) : option string * Tx :=
  let value := if value =? 0 then 1 else value in
  let pk := "id" in
  let pk := match PrimaryKey t with
            | [c] => Name c
            | _ => pk
            end in
  Exec tx ("ALTER TABLE " +:+ tbl_Name t +:+ " ALTER COLUMN " +:+ pk
             +:+ " RESTART WITH " +:+ itoa value).

(** *** Index introspection *)

(** A row of [indexesQuery]. *)
Record IndexRow : Type := mkIndexRow {
  ir_name : string;
  ir_column : string;
  ir_primary : bool;
  ir_unique : bool;
  ir_seqindex : Z
}.

Definition add_column (column : string) (idx : Index) : Index :=
  mkIndex (idx_Name idx) (idx_Unique idx) (idx_Columns idx)
    (idx_columns idx ++ [column]) (idx_primary idx) (idx_realname idx).

(** The body of the loop of [indexes].  [idxs] is the slice of [*Index]
    and [names] maps a short name to its [*Index], the position of that
    index in [idxs]: the column is appended to the one shared object. *)
Definition indexes_row (table : string)
  (st : list Index * gmap string nat) (r : IndexRow)
  : list Index * gmap string nat :=
  let '(idxs, names) := st in
  let short := strings.TrimPrefix (ir_name r) (table +:+ "_") in
  let '(idx, idxs, names) :=
    match names !! short with
    | Some idx => (idx, idxs, names)
    | None =>
        let idx := {| idx_Name := short; idx_Unique := ir_unique r;
                      idx_Columns := []; idx_columns := [];
                      idx_primary := ir_primary r;
                      idx_realname := ir_name r |} in
        (length idxs, idxs ++ [idx], <[short := length idxs]> names)
    end in
  (alter (add_column (ir_column r)) idx idxs, names).

Fixpoint indexes_loop (table : string) (pend : list (result IndexRow))
  (st : list Index * gmap string nat)
  : result (list Index * gmap string nat) :=
  match pend with
  | [] => Ok st
  | Err e :: _ => Err ("scanning index description: " +:+ e)
  | Ok r :: rest => indexes_loop table rest (indexes_row table st r)
  end.

(** [indexes]: [answer] is the outcome of running [indexesQuery] for
    [table]. *)
Definition indexes (answer : result (Rows IndexRow)) (table : string)
  : result (list Index) :=
  match answer with
  | Err e => Err ("querying indexes for table " +:+ table +:+ ": " +:+ e)
  | Ok rows =>
      match indexes_loop table (pending rows) ([], ∅) with
      | Err e => Err e
      | Ok (idxs, _) =>
          match rows_err rows with
          | Some e => Err e
          | None => Ok idxs
          end
      end
  end.

(** *** Server version *)

(** The decimal value of a non-empty string of ASCII digits. *)
Definition digit_value (a : ascii) : option Z :=
  let n := Z.of_N (N_of_ascii a) in
  if (48 <=? n) && (n <=? 57) then Some (n - 48) else None.

Fixpoint digits_value (acc : Z) (s : string) : option Z :=
  match s with
  | EmptyString => Some acc
  | String a r =>
      match digit_value a with
      | Some d => digits_value (10 * acc + d) r
      | None => None
      end
  end.

Definition Atoi (s : string) : option Z :=
  match s with
  | EmptyString => None
  | _ => digits_value 0 s
  end.

(** Modelled from the spec: [compareVersions] is declared in another file
    of the package.  The version "must parse into a three-part version" and
    is held against "the dialect's floor": the three dot-separated parts are
    read as decimal numbers and two versions are ordered by major, then
    minor, then patch number; the result is -1, 0 or 1.  A string that does
    not parse orders below one that does. *)
Definition parseVersion (v : string) : option (Z * Z * Z) :=
  match strings.Split v "." with
  | [major; minor; patch] =>
      match Atoi major, Atoi minor, Atoi patch with
      | Some a, Some b, Some c => Some (a, b, c)
      | _, _, _ => None
      end
  | _ => None
  end.

Definition compare_int (a b : Z) : Z :=
  if a <? b then -1 else if b <? a then 1 else 0.

Definition compareVersions (v1 v2 : string) : Z :=
  match parseVersion v1, parseVersion v2 with
  | Some (a1, b1, c1), Some (a2, b2, c2) =>
      if negb (compare_int a1 a2 =? 0) then compare_int a1 a2
      else if negb (compare_int b1 b2 =? 0) then compare_int b1 b2
      else compare_int c1 c2
  | None, None => 0
  | None, Some _ => -1
  | Some _, None => 1
  end.

Record Postgres : Type := mkPostgres {
  schema : string;
  version : string
}.

(** [init] loads the Postgres version from the database for later use in
    the migration process.  It returns an error if the server version is
    lower than v10.  [answer] is the outcome of the one query
    [SHOW server_version_num]; the driver is returned as [init] leaves
    it. *)
Definition init (d : Postgres) (answer : result (Rows string))
  : Postgres * option string :=
  match answer with
  | Err e => (d, Some ("querying server version " +:+ e))
  | Ok rows =>
      match pending rows with
      | [] =>
          match rows_err rows with
          | Some e => (d, Some e)
          | None => (d, Some "server_version_num variable was not found")
          end
      | Err e :: _ => (d, Some ("scanning version: " +:+ e))
      | Ok v :: _ =>
          if strings.len v <? 6 then (d, Some ("malformed version: " +:+ v))
          else
            let d := {| schema := schema d;
                        version := strings.slice v 0 2 +:+ "."
                                   +:+ strings.slice v 2 4 +:+ "."
                                   +:+ strings.drop 4 v |} in
            if compareVersions (version d) "10.0.0" =? -1
            then (d, Some ("unsupported postgres version: " +:+ version d))
            else (d, None)
      end
  end.

(** *** Foreign-key introspection *)

(** A row of [fkQuery]. *)
Record FkRow : Type := mkFkRow {
  tableSchema : string;
  constraintName : string;
  tableName : string;
  columnName : string;
  refTableSchema : string;
  refTableName : string;
  refColumnName : string
}.

Definition by_name (name : string) (cs : list Column) : option Column :=
  List.find (fun c => String.eqb (Name c) name) cs.

(** Modelled from the spec: [Table.column], [ForeignKey.column] and
    [ForeignKey.refColumn] are declared in another file of the package.
    They "resolve the referenced table and column against already-loaded
    Table objects": the column of that name in the table's columns, in the
    key's local columns and in the key's referenced columns. *)
Definition Table_column (t : Table) (name : string) : option Column :=
  by_name name (Columns t).
Definition ForeignKey_column (fk : ForeignKey) (name : string) : option Column :=
  by_name name (fk_Columns fk).
Definition ForeignKey_refColumn (fk : ForeignKey) (name : string)
  : option Column :=
  by_name name (RefColumns fk).

Definition set_ForeignKeys (fks : list ForeignKey) (t : Table) : Table :=
  mkTable (tbl_Name t) (Columns t) (PrimaryKey t) fks.

(** Modelled from the spec: [Table.AddForeignKey], declared in another file
    of the package, adds the key to the table's "list of ForeignKey". *)
Definition AddForeignKey (fk : ForeignKey) (t : Table) : Table :=
  set_ForeignKeys (ForeignKeys t ++ [fk]) t.

(** The zero table, read where a position is outside the slice. *)
Definition Table_zero : Table :=
  {| tbl_Name := EmptyString; Columns := []; PrimaryKey := []; ForeignKeys := [] |}.

Definition table_at (tables : list Table) (k : nat) : Table :=
  nth k tables Table_zero.

(** [for _, t := range tables { tableLookup[t.Name] = t }], from position
    [k]. *)
Fixpoint tableLookup_from (k : nat) (tables : list Table)
  (m : gmap string nat) : gmap string nat :=
  match tables with
  | [] => m
  | t :: rest => tableLookup_from (S k) rest (<[tbl_Name t := k]> m)
  end.

(** The two guarded appends to a key found in [tableFksLookup]. *)
Definition extend_fk (columnName refColumnName : string)
  (column refColumn : Column) (fk : ForeignKey) : ForeignKey :=
  let cols := match ForeignKey_column fk columnName with
              | Some _ => fk_Columns fk
              | None => fk_Columns fk ++ [column]
              end in
  let refs := match ForeignKey_refColumn fk refColumnName with
              | Some _ => RefColumns fk
              | None => RefColumns fk ++ [refColumn]
              end in
  mkForeignKey (Symbol fk) cols (RefTable fk) refs.

(** The body of the row loop of [foreignKeys] for the table at position
    [k].  The tables are shared objects: a key reached through
    [tableFksLookup] is the one stored in the table, at the position the
    map holds. *)
Definition foreignKeys_row (tableLookup : gmap string nat) (k : nat)
  (st : list Table * gmap string nat) (r : FkRow)
  : result (list Table * gmap string nat) :=
  let '(tables, tableFksLookup) := st in
  let t := table_at tables k in
  match tableLookup !! refTableName r with
  | None => Err ("could not find table: " +:+ refTableName r)
  | Some ref =>
      let refTable := table_at tables ref in
      match Table_column t (columnName r) with
      | None => Err ("could not find column: " +:+ columnName r
                       +:+ " on table: " +:+ tableName r)
      | Some column =>
          match Table_column refTable (refColumnName r) with
          | None => Err ("could not find ref column: " +:+ refTableName r
                           +:+ " on ref table: " +:+ refColumnName r)
          | Some refColumn =>
              match tableFksLookup !! constraintName r with
              | Some fk =>
                  let add :=
                    extend_fk (columnName r) (refColumnName r) column refColumn in
                  Ok (alter (fun t => set_ForeignKeys
                                        (alter add fk (ForeignKeys t)) t)
                        k tables,
                      tableFksLookup)
              | None =>
                  let newFk := {| Symbol := constraintName r;
                                  fk_Columns := [column];
                                  RefTable := ref;
                                  RefColumns := [refColumn] |} in
                  Ok (alter (AddForeignKey newFk) k tables,
                      <[constraintName r := length (ForeignKeys t)]>
                        tableFksLookup)
              end
          end
      end
  end.

Fixpoint foreignKeys_rows (tableLookup : gmap string nat) (k : nat)
  (pend : list (result FkRow)) (st : list Table * gmap string nat)
  : result (list Table * gmap string nat) :=
  match pend with
  | [] => Ok st
  | Err e :: _ => Err ("scanning index description: " +:+ e)
  | Ok r :: rest =>
      match foreignKeys_row tableLookup k st r with
      | Err e => Err e
      | Ok st => foreignKeys_rows tableLookup k rest st
      end
  end.

(** The body of the table loop: [answer name] is the outcome of running
    [fkQuery] for the table called [name]. *)
Definition foreignKeys_table (answer : string -> result (Rows FkRow))
  (tableLookup : gmap string nat) (tables : list Table) (k : nat)
  : result (list Table) :=
  let t := table_at tables k in
  match answer (tbl_Name t) with
  | Err e => Err ("querying foreign keys for table " +:+ tbl_Name t
                    +:+ ": " +:+ e)
  | Ok rows =>
      match foreignKeys_rows tableLookup k (pending rows) (tables, ∅) with
      | Err e => Err e
      | Ok (tables, _) =>
          match rows_err rows with
          | Some e => Err e
          | None => Ok tables
          end
      end
  end.

Fixpoint foreignKeys_tables (answer : string -> result (Rows FkRow))
  (tableLookup : gmap string nat) (ks : list nat) (tables : list Table)
  : result (list Table) :=
  match ks with
  | [] => Ok tables
  | k :: rest =>
      match foreignKeys_table answer tableLookup tables k with
      | Err e => Err e
      | Ok tables => foreignKeys_tables answer tableLookup rest tables
      end
  end.

(** [foreignKeys] populates the tables foreign keys using the
    information_schema tables.  The tables of the slice are distinct
    objects; the tables as [foreignKeys] leaves them are returned. *)
Definition foreignKeys (answer : string -> result (Rows FkRow))
  (tables : list Table) : result (list Table) :=
  foreignKeys_tables answer (tableLookup_from 0 tables ∅)
    (seq 0 (length tables)) tables.

(** *** The universal-id option *)

(** Modelled from the spec: the orchestrator that applies the universal-id
    option is declared in another file of the package.  It is to "restart
    its primary-key sequence/identity at index_in_table_list * 2^32", which
    is "rejected/no-op for tables with a composite primary key"; the no-op
    reading is taken.  The value is the one handed to [setRange]. *)
Definition universalID_start (index : nat) : Z := Z.of_nat index * 2 ^ 32.

Definition universalID_table (tx : Tx) (tables : list Table) (index : nat)
  : option string * Tx :=
  let t := table_at tables index in
  if (length (PrimaryKey t) =? 1)%nat
  then setRange tx t (universalID_start index)
  else (None, tx).

(** ** Concrete inputs *)

Definition double_quote : string := String (ascii_of_nat 34) EmptyString.

(** One choice of the declarations that live in other files, to run the
    driver on concrete inputs: scanned defaults are stored as the string
    they are given, every column supports a default, and an index is named
    after the scanned column names or else its columns. *)
Definition stand_in : Declarations := {|
  dialect_Postgres := "postgres";
  scanTypeOr c t := if String.eqb (typ c) EmptyString then t else typ c;
  supportDefault _ := true;
  ScanDefault c v := Ok (set_Default (Some (DString v)) c);
  columnNames i := match idx_columns i with
                   | [] => map Name (idx_Columns i)
                   | cs => cs
                   end;
  Type_String _ := "invalid";
  Quote s := double_quote +:+ s +:+ double_quote
|}.

(** A column that has only a name, and a transaction on which nothing ran
    and every statement succeeds. *)
Definition named (name : string) : Column := set_Name name Column_zero.
Definition fresh_tx : Tx := {| executed := []; answer_exec := fun _ => None |}.

(** ** Notions used in the statements *)

(** The statement [setRange] runs, for the key column [pk]. *)
Definition restart_statement (t : Table) (pk : string) (value : Z) : string :=
  "ALTER TABLE " +:+ tbl_Name t +:+ " ALTER COLUMN " +:+ pk
    +:+ " RESTART WITH " +:+ itoa value.

Definition user_groups : Table :=
  {| tbl_Name := "user_groups";
     Columns := [named "user_id"; named "group_id"];
     PrimaryKey := [named "user_id"; named "group_id"];
     ForeignKeys := [] |}.

Definition three_tables : list Table :=
  map (fun name => {| tbl_Name := name; Columns := [named "id"];
                      PrimaryKey := [named "id"]; ForeignKeys := [] |})
    ["t0"; "t1"; "t2"].

(** The types named by the [case] labels of [cType]. *)
Definition supported_types : list field.Type_ :=
  [field.TypeBool; field.TypeUint8; field.TypeInt8; field.TypeInt16;
   field.TypeUint16; field.TypeInt32; field.TypeUint32; field.TypeInt;
   field.TypeUint; field.TypeInt64; field.TypeUint64; field.TypeFloat32;
   field.TypeFloat64; field.TypeBytes; field.TypeJSON; field.TypeUUID;
   field.TypeString; field.TypeTime; field.TypeEnum; field.TypeOther].

(** The data types named by the [case] labels of [scanColumn]. *)
Definition recognized_data_types : list string :=
  ["boolean"; "smallint"; "integer"; "bigint"; "real"; "double precision";
   "numeric"; "decimal"; "text"; "character"; "character varying";
   "date"; "time"; "timestamp"; "timestamp with time zone";
   "timestamp without time zone"; "bytea"; "jsonb"; "uuid";
   "cidr"; "inet"; "macaddr"; "macaddr8"; "ARRAY";
   "USER-DEFINED"; "tstzrange"; "interval"].

(** Splits [one_of s labels = false] into one fact for each label. *)
Ltac split_labels H :=
  unfold one_of in H; cbn [existsb] in H;
  repeat (apply orb_false_iff in H;
          let H1 := fresh "Hlabel" in destruct H as [H1 H]).

Definition money_row : ColumnRow :=
  {| column_name := "price"; data_type := "money";
     is_nullable := valid_string "NO"; column_default := null_string;
     udt_name := valid_string "money"; numeric_precision := null_int64;
     numeric_scale := null_int64; character_maximum_length := null_int64 |}.

(** Every single quote written twice. *)
Fixpoint double_quotes (s : string) : string :=
  match s with
  | EmptyString => EmptyString
  | String a r =>
      if Ascii.eqb a "'" then String "'" (String "'" (double_quotes r))
      else String a (double_quotes r)
  end.

(** A string column whose default is [O'Brien], and the row of the catalog
    that describes it once created: the server prints the default as the
    quoted literal with a cast to the column type. *)
Definition obrien_column : Column :=
  set_Default (Some (DString "O'Brien"))
    (set_Type field.TypeString (named "name")).

Definition obrien_row (default : string) : ColumnRow :=
  {| column_name := "name"; data_type := "character varying";
     is_nullable := valid_string "YES";
     column_default := valid_string default;
     udt_name := valid_string "varchar"; numeric_precision := null_int64;
     numeric_scale := null_int64; character_maximum_length := null_int64 |}.

Definition obrien_scanned : Column :=
  {| Name := "name"; Type_ := field.TypeString; typ := "character varying";
     Size := 0; Nullable := true; Unique := false; Default := None;
     SchemaType := None |}.

(** The type that is read back for a column created with the given type:
    the narrow and the unsigned integers come back as the signed type of
    the native column, an enum as a string. *)
Definition read_back (t : field.Type_) : field.Type_ :=
  match t with
  | field.TypeInt8 | field.TypeUint8 | field.TypeUint16 => field.TypeInt16
  | field.TypeUint32 => field.TypeInt32
  | field.TypeInt | field.TypeUint | field.TypeUint64 => field.TypeInt64
  | field.TypeEnum => field.TypeString
  | t => t
  end.

(** The types that come back as they were declared. *)
Definition lossless_types : list field.Type_ :=
  [field.TypeBool; field.TypeInt16; field.TypeInt32; field.TypeInt64;
   field.TypeFloat32; field.TypeFloat64; field.TypeBytes; field.TypeJSON;
   field.TypeUUID; field.TypeString; field.TypeTime; field.TypeOther].

(** The opaque types [scanColumn] reads back from the data type alone. *)
Definition network_types : list string :=
  ["cidr"; "inet"; "macaddr"; "macaddr8"].

(** The type names of [cType] that the catalog reports under the same
    name. *)
Definition same_named : list string :=
  ["boolean"; "smallint"; "bigint"; "real"; "double precision"; "bytea";
   "jsonb"; "uuid"; "text"; "timestamp with time zone"] ++ network_types.

(** [catalog t] stands for the [data_type] that [information_schema.columns]
    shows for a column created with type [t].  The server reports [int] as
    [integer] and [varchar] as [character varying]. *)
Definition catalog_names (catalog : string -> string) : Prop :=
  catalog "int" = "integer"
  /\ catalog "varchar" = "character varying"
  /\ forall t, In t same_named -> catalog t = t.

Definition pg_data_type (t : string) : string :=
  if String.eqb t "int" then "integer"
  else if String.eqb t "varchar" then "character varying"
  else t.

(** A row that describes a column of the given data type and nothing
    else. *)
Definition plain_row (name t : string) : ColumnRow :=
  {| column_name := name; data_type := t; is_nullable := valid_string "NO";
     column_default := null_string; udt_name := null_string;
     numeric_precision := null_int64; numeric_scale := null_int64;
     character_maximum_length := null_int64 |}.

(** Evaluates the tests of the data type against the [case] labels. *)
Ltac eval_labels :=
  repeat match goal with
         | |- context [one_of ?a ?l] =>
             let b := eval vm_compute in (one_of a l) in
             change (one_of a l) with b
         end;
  cbv iota.

Definition is_digit (a : ascii) : bool :=
  match digit_value a with Some _ => true | None => false end.

Fixpoint all_digits (s : string) : bool :=
  match s with
  | EmptyString => true
  | String a r => is_digit a && all_digits r
  end.

(** The order of three-part versions. *)
Definition version_below (v w : Z * Z * Z) : bool :=
  let '(a1, b1, c1) := v in
  let '(a2, b2, c2) := w in
  (a1 <? a2) || (a1 =? a2) && ((b1 <? b2) || (b1 =? b2) && (c1 <? c2)).

Definition set_version (v : string) (d : Postgres) : Postgres :=
  {| schema := schema d; version := v |}.

(** What holds of the indexes and of the map of short names once the rows
    [seen] have been read. *)
Definition indexes_inv (table : string) (seen : list IndexRow)
  (st : list Index * gmap string nat) : Prop :=
  (forall short pos, st.2 !! short = Some pos ->
     exists idx, st.1 !! pos = Some idx /\ idx_Name idx = short)
  /\ (forall pos idx, st.1 !! pos = Some idx ->
        idx_Name idx = strings.TrimPrefix (idx_realname idx) (table +:+ "_")
        /\ exists r, In r seen /\ ir_name r = idx_realname idx)
  /\ (forall r, In r seen ->
        exists pos idx, st.1 !! pos = Some idx
          /\ idx_Name idx = strings.TrimPrefix (ir_name r) (table +:+ "_")
          /\ In (ir_column r) (idx_columns idx)).

Fixpoint all_chars (P : ascii -> bool) (s : string) : bool :=
  match s with
  | EmptyString => true
  | String a r => P a && all_chars P r
  end.



(** A name is appended to the names read so far unless it is one of
    them. *)
Definition add_new (acc : list string) (name : string) : list string :=
  if one_of name acc then acc else acc ++ [name].

(** The names of a list, each at its first occurrence. *)
Definition first_seen (names : list string) : list string :=
  fold_left add_new names [].

(** The rows of a constraint, in the order of the result set. *)
Definition rows_of (symbol : string) (rows : list FkRow) : list FkRow :=
  List.filter (fun r => String.eqb (constraintName r) symbol) rows.

(** The local and the referenced column names in the rows of a
    constraint. *)
Definition local_names (symbol : string) (rows : list FkRow) : list string :=
  map columnName (rows_of symbol rows).
Definition ref_names (symbol : string) (rows : list FkRow) : list string :=
  map refColumnName (rows_of symbol rows).

(** The row names a table, a column of the table read and a column of the
    referenced table that are among the loaded tables. *)
Definition resolved (tableLookup : gmap string nat) (tables : list Table)
  (k : nat) (r : FkRow) : Prop :=
  exists ref column refColumn,
    tableLookup !! refTableName r = Some ref
    /\ Table_column (table_at tables k) (columnName r) = Some column
    /\ Table_column (table_at tables ref) (refColumnName r) = Some refColumn.

(** Two slices of tables that differ at most in the foreign keys. *)
Definition same_structure (tables tables' : list Table) : Prop :=
  length tables' = length tables
  /\ forall i, tbl_Name (table_at tables' i) = tbl_Name (table_at tables i)
               /\ Columns (table_at tables' i) = Columns (table_at tables i).

(** The keys [keys] that the rows [seen] of one table have produced, and
    the map [lookup] from their symbols to their positions behind the
    [before] keys the table had. *)
Definition keys_inv (before : nat) (seen : list FkRow)
  (keys : list ForeignKey) (lookup : gmap string nat) : Prop :=
  (forall n pos, lookup !! n = Some pos ->
     exists j fk, pos = (before + j)%nat /\ keys !! j = Some fk /\ Symbol fk = n)
  /\ (forall j fk, keys !! j = Some fk ->
        lookup !! Symbol fk = Some (before + j)%nat
        /\ map Name (fk_Columns fk) = first_seen (local_names (Symbol fk) seen)
        /\ map Name (RefColumns fk) = first_seen (ref_names (Symbol fk) seen))
  /\ (forall r, In r seen -> is_Some (lookup !! constraintName r)).

(** What holds while the rows of the table at [k] are read, [start] being
    the tables before its first row. *)
Definition rows_inv (tableLookup : gmap string nat) (start : list Table)
  (k : nat) (seen : list FkRow) (st : list Table * gmap string nat) : Prop :=
  same_structure start st.1
  /\ (forall i, i <> k -> table_at st.1 i = table_at start i)
  /\ (forall r, In r seen -> resolved tableLookup start k r)
  /\ exists keys,
       ForeignKeys (table_at st.1 k) = ForeignKeys (table_at start k) ++ keys
       /\ keys_inv (length (ForeignKeys (table_at start k))) seen keys st.2.

(** The keys that the rows of a table have produced hold, as local and as
    referenced columns, the names of the rows of their constraint, each
    once, at its first occurrence. *)
Definition keys_described (rows : list FkRow) (keys : list ForeignKey) : Prop :=
  forall fk, In fk keys ->
    map Name (fk_Columns fk) = first_seen (local_names (Symbol fk) rows)
    /\ map Name (RefColumns fk) = first_seen (ref_names (Symbol fk) rows).

(** The table at [k] after its rows were read: every row was scanned and
    resolved against [tables], and the keys they produced follow the keys
    the table had. *)
Definition table_described (answer : string -> result (Rows FkRow))
  (tableLookup : gmap string nat) (tables now : list Table) (k : nat) : Prop :=
  exists rows keys,
    answer (tbl_Name (table_at tables k)) = Ok (mkRows (map Ok rows) None)
    /\ ForeignKeys (table_at now k) = ForeignKeys (table_at tables k) ++ keys
    /\ (forall r, In r rows -> resolved tableLookup tables k r)
    /\ keys_described rows keys.

Definition orders : Table :=
  {| tbl_Name := "orders"; Columns := [named "a"; named "b"];
     PrimaryKey := []; ForeignKeys := [] |}.
Definition parts : Table :=
  {| tbl_Name := "parts"; Columns := [named "x"; named "y"];
     PrimaryKey := []; ForeignKeys := [] |}.

(** The rows of one constraint of [orders] on [parts], as pairs of a local
    and a referenced column name. *)
Definition orders_rows (pairs : list (string * string)) (name : string)
  : result (Rows FkRow) :=
  if String.eqb name "orders"
  then Ok (mkRows (map (fun p => Ok (mkFkRow "public" "fk1" "orders" p.1
                                       "public" "parts" p.2)) pairs) None)
  else Ok (mkRows [] None).


(** ** More of the driver *)

(** *** Dropping, renaming and recognising indexes *)

(** The statements of [dropIndex], as the query builder of package [sql],
    which lives in other files, writes them. *)
Class QueryBuilder : Type := {
  DropIndex_Query : string -> string;
      (* DropIndex(name).Query() *)
  DropConstraint_Query : string -> string -> string
      (* AlterTable(table).DropConstraint(name).Query() *)
}.

(** The name under which [dropIndex] looks for the index. *)
Definition dropIndex_name `{Declarations} (idx : Index) (table : string)
  : string :=
  let name := idx_Name idx in
  let prefix := table +:+ "_" in
  if negb (strings.HasPrefix name prefix) && negb (hasUniqueName idx)
  then prefix +:+ name
  else name.

(** [dropIndex] drops a Postgres index.  [exist name] is the outcome of
    asking the catalog for a UNIQUE constraint called [name] in the
    schema. *)
Definition dropIndex `{Declarations} `{QueryBuilder}
  (exist : string -> result bool) (tx : Tx) (idx : Index) (table : string)
  : option string * Tx :=
  let name := dropIndex_name idx table in
  match exist name with
  | Err err => (Some err, tx)
  | Ok exists_ =>
      let query := DropIndex_Query name in
      let query := if exists_ then DropConstraint_Query table name
                   else query in
      Exec tx query
  end.

(** [isImplicitIndex] reports if the index was created implicitly for the
    unique column. *)
Definition isImplicitIndex (idx : Index) (col : Column) : bool :=
  String.eqb (strings.TrimSuffix (idx_Name idx) "_key") (Name col)
  && Unique col.

Definition set_idx_Name (v : string) (i : Index) : Index :=
  mkIndex v (idx_Unique i) (idx_Columns i) (idx_columns i) (idx_primary i)
    (idx_realname i).

(** [renameIndex] returns the statement for renaming an index: the index
    [new] as the function leaves it, and the two names of
    [AlterIndex(old.realname).Rename(new.Name)]. *)
Definition renameIndex (t : Table) (old new : Index)
  : Index * (string * string) :=
  let sfx := "_key" in
  let new := if strings.HasSuffix (idx_Name old) sfx
                && negb (strings.HasSuffix (idx_Name new) sfx)
             then set_idx_Name (idx_Name new +:+ sfx) new
             else new in
  let pfx := tbl_Name t +:+ "_" in
  let new := if strings.HasPrefix (idx_realname old) pfx
                && negb (strings.HasPrefix (idx_Name new) pfx)
             then set_idx_Name (pfx +:+ idx_Name new) new
             else new in
  (new, (idx_realname old, idx_Name new)).

(** *** Conversions between column types *)

(** What the driver uses of Go's Unicode support: the runes that [range]
    yields for a string, and [unicode.IsDigit].  On ASCII strings the runes
    are the bytes, and the ASCII digits are the characters 0 to 9. *)
Class Unicode : Type := {
  runes : string -> list Z;
  IsDigit : Z -> bool;
  runes_nil : runes EmptyString = [];
  runes_ascii : forall (a : ascii) (s : string),
      Z.of_N (N_of_ascii a) < 128 ->
      runes (String a s) = Z.of_N (N_of_ascii a) :: runes s;
  IsDigit_ascii : forall r : Z,
      0 <= r < 128 -> IsDigit r = (48 <=? r) && (r <=? 57)
}.

(** [arrayType] reports if the given string is an array type (e.g. int[],
    text[2]).  The slice expression [t[i+1 : j]] panics when [j] is below
    [i+1]. *)
Definition arrayType `{Unicode} (t : string) : outcome bool :=
  let i := strings.LastIndexByte t "[" in
  let j := strings.LastIndexByte t "]" in
  if (i =? -1) || (j =? -1) then Returned false
  else if j <? i + 1 then Panicked "slice bounds out of range"
  else Returned (forallb IsDigit (runes (strings.slice t (i + 1) j))).

(** [needsConversion] reports if column "old" needs to be converted (by
    table altering) to column "new". *)
Definition needsConversion `{Declarations} `{Unicode} (old new : Column)
  : outcome bool :=
  match cType old with
  | Panicked msg => Panicked msg
  | Returned oldT =>
      match cType new with
      | Panicked msg => Panicked msg
      | Returned newT =>
          if negb (String.eqb oldT newT)
          then if negb (String.eqb oldT "ARRAY") then Returned true
               else match arrayType newT with
                    | Panicked msg => Panicked msg
                    | Returned b => Returned (negb b)
                    end
          else Returned false
      end
  end.

(** Runes read as bytes: enough for ASCII strings. *)
Fixpoint bytes_of (s : string) : list Z :=
  match s with
  | EmptyString => []
  | String a r => Z.of_N (N_of_ascii a) :: bytes_of r
  end.

Definition ascii_digit (r : Z) : bool := (48 <=? r) && (r <=? 57).

(** One choice of the query builder, to run the driver on concrete
    inputs. *)
Definition plain_builder : QueryBuilder := {|
  DropIndex_Query name := "DROP INDEX " +:+ name;
  DropConstraint_Query table name :=
    "ALTER TABLE " +:+ table +:+ " DROP CONSTRAINT " +:+ name
|}.

(** The name [renameIndex] gives to an index called [name]. *)
Definition renamed_to (t : Table) (old : Index) (name : string) : string :=
  let name := if strings.HasSuffix (idx_Name old) "_key"
                 && negb (strings.HasSuffix name "_key")
              then name +:+ "_key" else name in
  if strings.HasPrefix (idx_realname old) (tbl_Name t +:+ "_")
     && negb (strings.HasPrefix name (tbl_Name t +:+ "_"))
  then (tbl_Name t +:+ "_") +:+ name else name.

Definition is_ascii (a : ascii) : bool := Z.of_N (N_of_ascii a) <? 128.

(** A byte other than [c]. *)
Definition other_than (c a : ascii) : bool := negb (Ascii.eqb a c).

(** A choice of the Unicode support that is right on ASCII strings. *)
Definition bytewise : Unicode.
Proof.
  refine {| runes := bytes_of; IsDigit := ascii_digit |}.
  - reflexivity.
  - reflexivity.
  - reflexivity.
Defined.

(** The types whose native name does not depend on the scan type of the
    column. *)
Definition plainly_named_types : list field.Type_ :=
  [field.TypeBool; field.TypeInt8; field.TypeInt16; field.TypeInt32;
   field.TypeInt; field.TypeInt64; field.TypeUint8; field.TypeUint16;
   field.TypeUint32; field.TypeUint; field.TypeUint64; field.TypeBytes;
   field.TypeJSON; field.TypeUUID; field.TypeString; field.TypeEnum].

(** An array column as it is read from the catalog and as it is
    declared. *)
Definition tags_live : Column :=
  mkColumn "tags" field.TypeOther "_int4" 0 false false None
    (Some {[ "postgres" := "ARRAY" ]}).
Definition tags_target : Column :=
  mkColumn "tags" field.TypeOther EmptyString 0 false false None
    (Some {[ "postgres" := "int[]" ]}).

(** The name under which [indexes] files a row, and the rows it files
    under a name. *)
Definition short_name (table : string) (r : IndexRow) : string :=
  strings.TrimPrefix (ir_name r) (table +:+ "_").

Definition rows_named (table short : string) (rows : list IndexRow)
  : list IndexRow :=
  List.filter (fun r => String.eqb (short_name table r) short) rows.

(** An index holds the columns of the rows filed under its name, in their
    order, and the flags and the catalog name of the first of them. *)
Definition index_of_rows (table : string) (rows : list IndexRow)
  (idx : Index) : Prop :=
  idx_columns idx = map ir_column (rows_named table (idx_Name idx) rows)
  /\ idx_Columns idx = []
  /\ exists r rest,
       rows_named table (idx_Name idx) rows = r :: rest
       /\ idx_Unique idx = ir_unique r
       /\ idx_primary idx = ir_primary r
       /\ idx_realname idx = ir_name r.

(** What holds of the indexes and of the map of short names once the rows
    [seen] have been read: the indexes are those of the short names, in the
    order in which the names first occur. *)
Definition indexes_grouped (table : string) (seen : list IndexRow)
  (st : list Index * gmap string nat) : Prop :=
  map idx_Name st.1 = first_seen (map (short_name table) seen)
  /\ (forall short pos, st.2 !! short = Some pos ->
        exists idx, st.1 !! pos = Some idx /\ idx_Name idx = short)
  /\ (forall pos idx, st.1 !! pos = Some idx ->
        st.2 !! idx_Name idx = Some pos /\ index_of_rows table seen idx).

(** The catalog rows of an index made by the statement [ib]: one row for
    each of its columns, in their order, under the name and with the
    uniqueness of the statement; the index is not that of a primary key. *)
Definition rows_of_created (ib : IndexBuilder) (rows : list IndexRow) : Prop :=
  map ir_column rows = ib_columns ib
  /\ forall r, In r rows ->
       ir_name r = ib_name ib /\ ir_unique r = ib_unique ib
       /\ ir_primary r = false.

(** The ways in which [indexes] fails. *)
Inductive indexes_failure (table : string)
  : result (Rows IndexRow) -> string -> Prop :=
| query_fails (e : string) :
    indexes_failure table (Err e)
      ("querying indexes for table " +:+ table +:+ ": " +:+ e)
| scan_fails (seen : list IndexRow) (e : string)
    (rest : list (result IndexRow)) (closing : option string) :
    indexes_failure table (Ok (mkRows (map Ok seen ++ Err e :: rest) closing))
      ("scanning index description: " +:+ e)
| rows_fail (rows : list IndexRow) (e : string) :
    indexes_failure table (Ok (mkRows (map Ok rows) (Some e))) e.

Definition name_rows : list IndexRow :=
  [ mkIndexRow "users_name_age" "name" false true 1;
    mkIndexRow "users_pkey" "id" true true 1;
    mkIndexRow "users_name_age" "age" false true 2 ].

(** The string literal that [writeDefault] writes for the text [v], and the
    text that [scanColumn] hands to [ScanDefault] for a default. *)
Definition written_literal (v : string) : string :=
  "'" +:+ strings.ReplaceAll v "'" "''" +:+ "'".

Definition scanned_text (default : string) : string :=
  if strings.Contains default "::"
  then strings.Trim (hd EmptyString (strings.Split default "::")) "'"
  else default.

(** The ways in which [scanColumn] fails. *)
Inductive scanColumn_failure `{Declarations} (c : Column)
  : result ColumnRow -> string -> Prop :=
| row_fails (e : string) :
    scanColumn_failure c (Err e) ("scanning column description: " +:+ e)
| array_untyped (row : ColumnRow) :
    data_type row = "ARRAY" ->
    ns_Valid (udt_name row) = false ->
    scanColumn_failure c (Ok row)
      ("missing array type for column " +:+ Quote (column_name row))
| user_untyped (row : ColumnRow) :
    In (data_type row) ["USER-DEFINED"; "tstzrange"; "interval"] ->
    ns_Valid (udt_name row) = false ->
    scanColumn_failure c (Ok row)
      ("missing user defined type for column " +:+ Quote (column_name row))
| default_fails (row : ColumnRow) (typed : Column) (e : string) :
    scanColumn_type (scanColumn_head c row) row = Ok typed ->
    ns_Valid (column_default row) = true ->
    Type_ typed <> field.TypeTime ->
    callExpr (ns_String (column_default row)) = false ->
    ScanDefault typed (scanned_text (ns_String (column_default row))) = Err e ->
    scanColumn_failure c (Ok row) e.

(** The keys made of the rows [seen]: one for each constraint name, in the
    order in which the names first occur; a key refers to the table that
    the first row of its constraint names. *)
Definition keys_of_constraints (tableLookup : gmap string nat)
  (seen : list FkRow) (keys : list ForeignKey) : Prop :=
  map Symbol keys = first_seen (map constraintName seen)
  /\ forall fk, In fk keys ->
       exists r rest,
         rows_of (Symbol fk) seen = r :: rest
         /\ tableLookup !! refTableName r = Some (RefTable fk).

(** The error with which [foreignKeys] reports a row of the table at [k]
    that it cannot resolve. *)
Inductive unresolved_row (tableLookup : gmap string nat) (tables : list Table)
  (k : nat) (r : FkRow) : string -> Prop :=
| table_missing :
    tableLookup !! refTableName r = None ->
    unresolved_row tableLookup tables k r
      ("could not find table: " +:+ refTableName r)
| column_missing (ref : nat) :
    tableLookup !! refTableName r = Some ref ->
    Table_column (table_at tables k) (columnName r) = None ->
    unresolved_row tableLookup tables k r
      ("could not find column: " +:+ columnName r
         +:+ " on table: " +:+ tableName r)
| ref_column_missing (ref : nat) (column : Column) :
    tableLookup !! refTableName r = Some ref ->
    Table_column (table_at tables k) (columnName r) = Some column ->
    Table_column (table_at tables ref) (refColumnName r) = None ->
    unresolved_row tableLookup tables k r
      ("could not find ref column: " +:+ refTableName r
         +:+ " on ref table: " +:+ refColumnName r).

(** The ways in which [foreignKeys] fails on the table at [k], given the
    answer to the query for that table. *)
Inductive table_failure (tableLookup : gmap string nat) (tables : list Table)
  (k : nat) : result (Rows FkRow) -> string -> Prop :=
| fk_query_fails (e : string) :
    table_failure tableLookup tables k (Err e)
      ("querying foreign keys for table " +:+ tbl_Name (table_at tables k)
         +:+ ": " +:+ e)
| fk_scan_fails (seen : list FkRow) (e : string)
    (rest : list (result FkRow)) (closing : option string) :
    (forall r, In r seen -> resolved tableLookup tables k r) ->
    table_failure tableLookup tables k
      (Ok (mkRows (map Ok seen ++ Err e :: rest) closing))
      ("scanning index description: " +:+ e)
| fk_row_unresolved (seen : list FkRow) (r : FkRow)
    (rest : list (result FkRow)) (closing : option string) (e : string) :
    (forall r, In r seen -> resolved tableLookup tables k r) ->
    unresolved_row tableLookup tables k r e ->
    table_failure tableLookup tables k
      (Ok (mkRows (map Ok seen ++ Ok r :: rest) closing)) e
| fk_rows_fail (rows : list FkRow) (e : string) :
    (forall r, In r rows -> resolved tableLookup tables k r) ->
    table_failure tableLookup tables k (Ok (mkRows (map Ok rows) (Some e))) e.

(** The table at [k] is read without an error. *)
Definition table_read (answer : string -> result (Rows FkRow))
  (tableLookup : gmap string nat) (tables : list Table) (k : nat) : Prop :=
  exists rows,
    answer (tbl_Name (table_at tables k)) = Ok (mkRows (map Ok rows) None)
    /\ forall r, In r rows -> resolved tableLookup tables k r.

(** The catalog row of a column of integer arrays. *)
Definition tags_row : ColumnRow :=
  {| column_name := "tags"; data_type := "ARRAY";
     is_nullable := valid_string "NO"; column_default := null_string;
     udt_name := valid_string "_int4";
     numeric_precision := null_int64; numeric_scale := null_int64;
     character_maximum_length := null_int64 |}.

(** *** Loading a table *)

(** The values of [Column.Key] for a column of the primary key and for a
    unique column, which are declared in another file of the package. *)
Class Keys : Type := {
  Key_PrimaryKey : string;                         (* PrimaryKey *)
  Key_UniqueKey : string                           (* UniqueKey *)
}.

(** A column with its field [Key], which only [table] sets. *)
Record KeyedColumn : Type := mkKeyedColumn {
  kc_Column : Column;
  kc_Key : string
}.

(** The table that [table] builds.  The columns of the primary key are
    columns of the table: pointers to them in the source, their positions
    in [tb_Columns] here. *)
Record LoadedTable : Type := mkLoadedTable {
  tb_Name : string;
  tb_Columns : list KeyedColumn;
  tb_PrimaryKey : list nat;
  tb_Indexes : list Index
}.

Definition set_Unique (v : bool) (c : Column) : Column :=
  mkColumn (Name c) (Type_ c) (typ c) (Size c) (Nullable c) v (Default c)
    (SchemaType c).

Definition set_tb_Columns (cs : list KeyedColumn) (t : LoadedTable)
  : LoadedTable :=
  mkLoadedTable (tb_Name t) cs (tb_PrimaryKey t) (tb_Indexes t).

(** Modelled from the spec: [NewTable] is declared in another file of the
    package.  A "Table" has a "name", an "ordered list of Column", a
    "PrimaryKey" and a "list of Index"; a new table has the name and
    nothing else. *)
Definition NewTable (name : string) : LoadedTable :=
  {| tb_Name := name; tb_Columns := []; tb_PrimaryKey := [];
     tb_Indexes := [] |}.

(** Modelled from the spec: [Table.AddColumn] is declared in another file
    of the package.  [table] is to "build the Column list in catalog
    order": the column is added behind the columns of the table. *)
Definition AddColumn (c : Column) (t : LoadedTable) : LoadedTable :=
  set_tb_Columns (tb_Columns t ++ [mkKeyedColumn c EmptyString]) t.

(** Modelled from the spec: [Table.addIndex] is declared in another file
    of the package.  The indexes of a table are a "list of Index", and of a
    promoted index "both the index and the flag are retained": the index is
    added behind the indexes of the table. *)
Definition Table_addIndex (idx : Index) (t : LoadedTable) : LoadedTable :=
  mkLoadedTable (tb_Name t) (tb_Columns t) (tb_PrimaryKey t)
    (tb_Indexes t ++ [idx]).

(** Modelled from the spec: [Table.column] is declared in another file of
    the package; columns are resolved "against already-loaded Table
    objects", by name.  The position of the column of that name, as
    [Table_column] finds it. *)
Fixpoint column_pos (name : string) (cs : list KeyedColumn) : option nat :=
  match cs with
  | [] => None
  | c :: rest =>
      if String.eqb (Name (kc_Column c)) name then Some 0%nat
      else option_map S (column_pos name rest)
  end.

Section LoadTable.
Context `{Declarations} `{Keys}.

(** The rows loop of [table]: every row is scanned into a new column. *)
Fixpoint table_columns (pend : list (result ColumnRow)) (t : LoadedTable)
  : result LoadedTable :=
  match pend with
  | [] => Ok t
  | scan :: rest =>
      match scanColumn Column_zero scan with
      | Err e => Err e
      | Ok c => table_columns rest (AddColumn c t)
      end
  end.

Definition not_found (idx : Index) (name : string) (t : LoadedTable)
  : string :=
  "index " +:+ Quote (idx_Name idx) +:+ " column " +:+ Quote name
    +:+ " was not found in table " +:+ Quote (tb_Name t).

(** [case idx.primary]: the loop over [idx.columns]. *)
Fixpoint table_primary (idx : Index) (names : list string) (t : LoadedTable)
  : result LoadedTable :=
  match names with
  | [] => Ok t
  | name :: rest =>
      match column_pos name (tb_Columns t) with
      | None => Err (not_found idx name t)
      | Some c =>
          table_primary idx rest
            (mkLoadedTable (tb_Name t)
               (alter (fun kc => mkKeyedColumn (kc_Column kc) Key_PrimaryKey)
                  c (tb_Columns t))
               (tb_PrimaryKey t ++ [c]) (tb_Indexes t))
      end
  end.

(** The body of the loop over the indexes. *)
Definition table_index (t : LoadedTable) (idx : Index) : result LoadedTable :=
  if idx_primary idx then table_primary idx (idx_columns idx) t
  else if idx_Unique idx && (length (idx_columns idx) =? 1)%nat then
    let name := hd EmptyString (idx_columns idx) in
    match column_pos name (tb_Columns t) with
    | None => Err (not_found idx name t)
    | Some c =>
        Ok (Table_addIndex idx
              (set_tb_Columns
                 (alter (fun kc => mkKeyedColumn
                                     (set_Unique true (kc_Column kc))
                                     Key_UniqueKey)
                    c (tb_Columns t)) t))
    end
  else Ok (Table_addIndex idx t).

Fixpoint table_indexes (idxs : list Index) (t : LoadedTable)
  : result LoadedTable :=
  match idxs with
  | [] => Ok t
  | idx :: rest =>
      match table_index t idx with
      | Err e => Err e
      | Ok t => table_indexes rest t
      end
  end.

(** [table] loads the current table description from the database.
    [columns] is the outcome of the query on the columns of the table,
    [closing] the error of [rows.Close] if there is one, and [indexRows]
    the outcome of the query that [indexes] runs. *)
Definition table (columns : result (Rows ColumnRow)) (closing : option string)
  (indexRows : result (Rows IndexRow)) (name : string) : result LoadedTable :=
  match columns with
  | Err e => Err ("postgres: reading table description " +:+ e)
  | Ok rows =>
      match table_columns (pending rows) (NewTable name) with
      | Err e => Err e
      | Ok t =>
          match rows_err rows with
          | Some e => Err e
          | None =>
              match closing with
              | Some e => Err ("closing rows " +:+ e)
              | None =>
                  match indexes indexRows name with
                  | Err e => Err e
                  | Ok idxs => table_indexes idxs t
                  end
              end
          end
      end
  end.

End LoadTable.

(** The names of the columns of a table, and the columns that [table]
    looks up for an index. *)
Definition col_names (cs : list KeyedColumn) : list string :=
  map (fun kc => Name (kc_Column kc)) cs.

Definition single_unique (idx : Index) : bool :=
  negb (idx_primary idx) && idx_Unique idx
  && (length (idx_columns idx) =? 1)%nat.

Definition looked_up (idx : Index) : list string :=
  if idx_primary idx then idx_columns idx
  else if single_unique idx then [hd EmptyString (idx_columns idx)]
  else [].

(** The index marks the column called [name] as unique. *)
Definition promotes (name : string) (idx : Index) : bool :=
  single_unique idx && String.eqb (hd EmptyString (idx_columns idx)) name.

(** The columns [cols] are what [scanColumn] makes of the rows [pend]. *)
Definition scanned `{Declarations} (pend : list (result ColumnRow))
  (cols : list Column) : Prop :=
  Forall2 (fun scan c => scanColumn Column_zero scan = Ok c) pend cols.

(** What holds of the table when the indexes [done] have been handled,
    [cols] being the columns that were read. *)
Definition loaded_inv (name : string) (cols : list Column) (done : list Index)
  (t : LoadedTable) : Prop :=
  tb_Name t = name
  /\ col_names (tb_Columns t) = map Name cols
  /\ tb_Indexes t = List.filter (fun idx => negb (idx_primary idx)) done
  /\ Forall2 (fun p n => col_names (tb_Columns t) !! p = Some n)
       (tb_PrimaryKey t)
       (concat (map idx_columns (List.filter idx_primary done)))
  /\ forall p kc c,
       tb_Columns t !! p = Some kc -> cols !! p = Some c ->
       kc_Column kc = set_Unique (Unique (kc_Column kc)) c
       /\ (Unique (kc_Column kc) = true
           <-> Unique c = true
               \/ (column_pos (Name c) (tb_Columns t) = Some p
                   /\ exists idx, In idx done /\ promotes (Name c) idx = true)).

(** Stand-ins for the two values of [Column.Key], and the catalog of a
    table of users with a primary key and a unique electronic address. *)
Definition stand_in_keys : Keys :=
  {| Key_PrimaryKey := "PRI"; Key_UniqueKey := "UNI" |}.

Definition users_columns : result (Rows ColumnRow) :=
  Ok (mkRows [Ok (plain_row "id" "bigint"); Ok (plain_row "email" "text")]
        None).

Definition users_indexes : result (Rows IndexRow) :=
  Ok (mkRows [Ok (mkIndexRow "users_pkey" "id" true true 1);
              Ok (mkIndexRow "users_email_key" "email" false true 1)] None).

Definition users_loaded : LoadedTable :=
  {| tb_Name := "users";
     tb_Columns :=
       [ mkKeyedColumn
           (mkColumn "id" field.TypeInt64 "bigint" 0 false false None None)
           "PRI";
         mkKeyedColumn
           (mkColumn "email" field.TypeString "text" (maxCharSize + 1) false
              true None None)
           "UNI" ];
     tb_PrimaryKey := [0%nat];
     tb_Indexes :=
       [mkIndex "email_key" true [] ["email"] false "users_email_key"] |}.

(** The first of the names [names] that is not among [known]. *)
Definition first_missing (names known : list string) (n : string) : Prop :=
  exists before after,
    names = before ++ n :: after
    /\ (forall m, In m before -> In m known)
    /\ ~ In n known.

(** The ways in which [table] fails. *)
Inductive load_failure `{Declarations} (name : string)
  (closing : option string) (indexRows : result (Rows IndexRow))
  : result (Rows ColumnRow) -> string -> Prop :=
| load_query_fails (e : string) :
    load_failure name closing indexRows (Err e)
      ("postgres: reading table description " +:+ e)
| load_scan_fails (seen rest : list (result ColumnRow)) (cols : list Column)
    (scan : result ColumnRow) (closed : option string) (e : string) :
    scanned seen cols ->
    scanColumn Column_zero scan = Err e ->
    load_failure name closing indexRows
      (Ok (mkRows (seen ++ scan :: rest) closed)) e
| load_rows_fail (pend : list (result ColumnRow)) (cols : list Column)
    (e : string) :
    scanned pend cols ->
    load_failure name closing indexRows (Ok (mkRows pend (Some e))) e
| load_close_fails (pend : list (result ColumnRow)) (cols : list Column)
    (e : string) :
    scanned pend cols ->
    closing = Some e ->
    load_failure name closing indexRows (Ok (mkRows pend None))
      ("closing rows " +:+ e)
| load_indexes_fail (pend : list (result ColumnRow)) (cols : list Column)
    (e : string) :
    scanned pend cols ->
    closing = None ->
    indexes indexRows name = Err e ->
    load_failure name closing indexRows (Ok (mkRows pend None)) e
| load_column_missing (pend : list (result ColumnRow)) (cols : list Column)
    (done rest : list Index) (idx : Index) (n : string) :
    scanned pend cols ->
    closing = None ->
    indexes indexRows name = Ok (done ++ idx :: rest) ->
    (forall i, In i done ->
       forall m, In m (looked_up i) -> In m (map Name cols)) ->
    first_missing (looked_up idx) (map Name cols) n ->
    load_failure name closing indexRows (Ok (mkRows pend None))
      ("index " +:+ Quote (idx_Name idx) +:+ " column " +:+ Quote n
         +:+ " was not found in table " +:+ Quote name).

(** The catalog of a table of users of which only the electronic address
    is read, and its primary index. *)
Definition email_only : result (Rows ColumnRow) :=
  Ok (mkRows [Ok (plain_row "email" "text")] None).

Definition users_pkey : Index :=
  mkIndex "pkey" true [] ["id"] true "users_pkey".

(** * Properties *)

Example Split_cast :
  strings.Split "'a'::character varying" "::" = ["'a'"; "character varying"]%string.
Proof. reflexivity. Qed.

Example ReplaceAll_quote :
  strings.ReplaceAll "O'Brien" "'" "''" = "O''Brien"%string.
Proof. reflexivity. Qed.

Example Trim_quote : strings.Trim "'O''Brien'" "'" = "O''Brien"%string.
Proof. reflexivity. Qed.

Example itoa_examples :
  (itoa 0, itoa 4294967296, itoa (-7)) = ("0", "4294967296", "-7")%string.
Proof. reflexivity. Qed.

(** ** Byte strings *)

Section StringFacts.
Implicit Types s p : string.

Lemma append_cons a s p : String a s +:+ p = String a (s +:+ p).
Proof. reflexivity. Qed.

Lemma append_nil p : EmptyString +:+ p = p.
Proof. reflexivity. Qed.

Lemma length_append s p :
  String.length (s +:+ p) = (String.length s + String.length p)%nat.
Proof.
  induction s as [|a s IH]; [reflexivity |].
  rewrite append_cons. simpl. now rewrite IH.
Qed.

Lemma append_empty_r s : s +:+ EmptyString = s.
Proof.
  induction s as [|a s IH]; [reflexivity |].
  rewrite append_cons. now rewrite IH.
Qed.

Lemma append_assoc s p q : (s +:+ p) +:+ q = s +:+ (p +:+ q).
Proof.
  induction s as [|a s IH]; [reflexivity |].
  rewrite !append_cons. now rewrite IH.
Qed.

Lemma prefix_append p s : String.prefix p (p +:+ s) = true.
Proof.
  induction p as [|a p IH].
  - now destruct s.
  - rewrite append_cons. simpl.
    destruct (ascii_dec a a) as [_|ne]; [exact IH | now elim ne].
Qed.

Lemma drop_append p s : strings.drop (String.length p) (p +:+ s) = s.
Proof.
  induction p as [|a p IH]; [reflexivity |].
  rewrite append_cons. simpl. exact IH.
Qed.

Lemma drop_zero s : strings.drop 0 s = s.
Proof. now destruct s. Qed.

Lemma take_append p s : strings.take (String.length p) (p +:+ s) = p.
Proof.
  induction p as [|a p IH]; [now destruct s |].
  rewrite append_cons. simpl. now rewrite IH.
Qed.

Lemma TrimPrefix_append p s : strings.TrimPrefix (p +:+ s) p = s.
Proof.
  unfold strings.TrimPrefix, strings.HasPrefix.
  now rewrite prefix_append, drop_append.
Qed.

Lemma HasSuffix_refl s : strings.HasSuffix s s = true.
Proof.
  unfold strings.HasSuffix.
  rewrite Nat.leb_refl, Nat.sub_diag, drop_zero. simpl.
  apply String.eqb_refl.
Qed.

Lemma HasSuffix_append s p : strings.HasSuffix (s +:+ p) p = true.
Proof.
  unfold strings.HasSuffix. rewrite length_append.
  replace (String.length s + String.length p - String.length p)%nat
    with (String.length s) by lia.
  rewrite drop_append, String.eqb_refl.
  apply andb_true_iff; split; [apply Nat.leb_le; lia | reflexivity].
Qed.

Lemma prefixed_neq (p s : string) : p <> EmptyString -> p +:+ s <> s.
Proof.
  intros Hp Heq. apply (f_equal String.length) in Heq.
  rewrite length_append in Heq. destruct p; [now elim Hp | simpl in Heq; lia].
Qed.

End StringFacts.

(** ** Restarting the identity column *)

Lemma setRange_executed (tx : Tx) (t : Table) (value : Z) :
  executed (snd (setRange tx t value))
  = executed tx
      ++ [restart_statement t
            (match PrimaryKey t with [c] => Name c | _ => "id" end)
            (if value =? 0 then 1 else value)].
Proof. reflexivity. Qed.

(** C2, as stated, fails: for a table whose primary key has two columns
    [setRange] does run a RESTART statement, on a column called [id]. *)
Lemma setRange_composite_key_restarts :
  length (PrimaryKey user_groups) = 2%nat
  /\ executed (snd (setRange fresh_tx user_groups 0))
     = ["ALTER TABLE user_groups ALTER COLUMN id RESTART WITH 1"].
Proof. split; reflexivity. Qed.

(** C2, amended: [setRange] makes no check of the primary key.  For a
    table whose primary key is not exactly one column it runs one RESTART
    statement all the same, on the fallback column named [id]. *)
Theorem setRange_fallback_id (tx : Tx) (t : Table) (value : Z) :
  length (PrimaryKey t) <> 1%nat ->
  executed (snd (setRange tx t value))
  = executed tx ++ [restart_statement t "id" (if value =? 0 then 1 else value)].
Proof.
  intros Hpk. rewrite setRange_executed.
  destruct (PrimaryKey t) as [|c [|c' pks]]; simpl in Hpk; congruence.
Qed.

Lemma setRange_fallback_id_witness :
  executed (snd (setRange fresh_tx user_groups 8589934592))
  = [restart_statement user_groups "id" 8589934592].
Proof.
  apply (setRange_fallback_id fresh_tx user_groups 8589934592).
  simpl. lia.
Defined.

(** C7: the universal-id option hands [setRange] the position of the table
    times 2^32; [setRange] restarts the single key column at that value,
    where 0 becomes 1 and every other value is written as it is. *)
Theorem universalID_restart_value (tx : Tx) (tables : list Table)
  (index : nat) (pk : Column) (value : Z) :
  PrimaryKey (table_at tables index) = [pk] ->
  let t := table_at tables index in
  executed (snd (universalID_table tx tables index))
  = executed tx
      ++ [restart_statement t (Name pk)
            (match index with O => 1 | S _ => Z.of_nat index * 2 ^ 32 end)]
  /\ executed (snd (setRange tx t 0))
     = executed tx ++ [restart_statement t (Name pk) 1]
  /\ (0 < value ->
      executed (snd (setRange tx t value))
      = executed tx ++ [restart_statement t (Name pk) value]).
Proof.
  intros Hpk. unfold universalID_table. cbv zeta. rewrite Hpk.
  change (length [pk] =? 1)%nat with true. cbv iota.
  rewrite !setRange_executed, Hpk.
  split; [| split].
  - unfold universalID_start. destruct index as [|n]; [reflexivity |].
    destruct (Z.eqb_spec (Z.of_nat (S n) * 2 ^ 32) 0) as [H0|_]; [lia | reflexivity].
  - reflexivity.
  - intros Hpos. destruct (Z.eqb_spec value 0) as [H0|_]; [lia | reflexivity].
Qed.

Lemma universalID_restart_value_witness :
  executed (snd (universalID_table fresh_tx three_tables 2))
  = ["ALTER TABLE t2 ALTER COLUMN id RESTART WITH 8589934592"]
  /\ executed (snd (setRange fresh_tx (table_at three_tables 2) 7))
     = ["ALTER TABLE t2 ALTER COLUMN id RESTART WITH 7"].
Proof.
  destruct (universalID_restart_value fresh_tx three_tables 2 (named "id") 7
              eq_refl) as (Hrun & _ & Hpos).
  split; [exact Hrun | apply Hpos; lia].
Defined.

Example universalID_three_tables :
  map (fun i => executed (snd (universalID_table fresh_tx three_tables i)))
    [0; 1; 2]%nat
  = [["ALTER TABLE t0 ALTER COLUMN id RESTART WITH 1"];
     ["ALTER TABLE t1 ALTER COLUMN id RESTART WITH 4294967296"];
     ["ALTER TABLE t2 ALTER COLUMN id RESTART WITH 8589934592"]].
Proof. reflexivity. Qed.

(** ** Naming an index on creation *)

Section IndexNames.
Context `{Declarations}.

Lemma hasUniqueName_false_iff (i : Index) :
  hasUniqueName i = false
  <-> strings.TrimSuffix (idx_Name i) "_key"
      = strings.Join (columnNames i) "_".
Proof.
  unfold hasUniqueName.
  destruct (String.eqb_spec (strings.TrimSuffix (idx_Name i) "_key")
              (strings.Join (columnNames i) "_")) as [Heq|Hne].
  - rewrite Heq, HasSuffix_refl. simpl. tauto.
  - destruct (strings.HasSuffix _ _); simpl; split; congruence.
Qed.

(** C5: [addIndex] creates the index under [<table>_<name>] exactly when
    the name, without a trailing [_key], is the underscore-join of the
    column names; a name that does not end with that join, or that ends
    with it and is longer, is used as it is. *)
Theorem addIndex_name (i : Index) (table : string) :
  let name := strings.TrimSuffix (idx_Name i) "_key" in
  let suffix := strings.Join (columnNames i) "_" in
  (ib_name (addIndex i table) = table +:+ "_" +:+ idx_Name i
   <-> name = suffix)
  /\ (strings.HasSuffix name suffix = false ->
      ib_name (addIndex i table) = idx_Name i)
  /\ (strings.HasSuffix name suffix = true -> name <> suffix ->
      ib_name (addIndex i table) = idx_Name i).
Proof.
  intros name suffix. unfold addIndex. simpl.
  destruct (hasUniqueName i) eqn:Hu; simpl.
  - assert (name <> suffix) as Hne.
    { intros Heq. apply hasUniqueName_false_iff in Heq. congruence. }
    split; [| tauto]. split; [| tauto].
    intros Heq. exfalso. symmetry in Heq. revert Heq.
    rewrite <- append_assoc. apply prefixed_neq.
    destruct table; discriminate.
  - apply hasUniqueName_false_iff in Hu. fold name suffix in Hu.
    split; [tauto |]. split.
    + intros Hs. rewrite Hu, HasSuffix_refl in Hs. discriminate.
    + tauto.
Qed.

End IndexNames.

Lemma addIndex_name_witness :
  ib_name (addIndex (H := stand_in)
             (mkIndex "by_email" true [named "name"] [] false EmptyString) "users")
  = "by_email"
  /\ ib_name (addIndex (H := stand_in)
                (mkIndex "user_name" true [named "name"] [] false EmptyString) "users")
     = "user_name".
Proof.
  split.
  - apply (proj1 (proj2 (addIndex_name (H := stand_in)
             (mkIndex "by_email" true [named "name"] [] false EmptyString) "users"))).
    reflexivity.
  - apply (proj2 (proj2 (addIndex_name (H := stand_in)
             (mkIndex "user_name" true [named "name"] [] false EmptyString) "users"))).
    + reflexivity.
    + discriminate.
Defined.

Example addIndex_examples :
  map (fun name => ib_name (addIndex (H := stand_in)
                     (mkIndex name true [named "name"] [] false EmptyString) "users"))
    ["name"; "name_key"; "user_name"; "by_email"]
  = ["users_name"; "users_name_key"; "user_name"; "by_email"].
Proof. reflexivity. Qed.

(** ** Native types *)

Section NativeTypes.
Context `{Declarations}.

Lemma cType_override (c : Column) :
  schemaType_Postgres c <> EmptyString ->
  cType c = Returned (schemaType_Postgres c).
Proof.
  intros Hne. unfold cType.
  assert (SchemaType c <> None) as Hsome.
  { intros Hnone. apply Hne. unfold schemaType_Postgres. now rewrite Hnone. }
  rewrite bool_decide_eq_true_2 by exact Hsome.
  destruct (String.eqb_spec (schemaType_Postgres c) EmptyString) as [He|_];
    [now elim Hne | reflexivity].
Qed.

Lemma cType_no_override (c : Column) :
  schemaType_Postgres c = EmptyString ->
  cType c
  = match Type_ c with
    | field.TypeInvalid =>
        Panicked ("unsupported type " +:+ Quote (Type_String (Type_ c))
                    +:+ " for column " +:+ Quote (Name c))
    | field.TypeBool => Returned "boolean"
    | field.TypeUint8 | field.TypeInt8 | field.TypeInt16
    | field.TypeUint16 => Returned "smallint"
    | field.TypeInt32 | field.TypeUint32 => Returned "int"
    | field.TypeFloat32 => Returned (scanTypeOr c "real")
    | field.TypeFloat64 => Returned (scanTypeOr c "double precision")
    | field.TypeBytes => Returned "bytea"
    | field.TypeJSON => Returned "jsonb"
    | field.TypeUUID => Returned "uuid"
    | field.TypeString =>
        Returned (if Size c >? maxCharSize then "text" else "varchar")
    | field.TypeTime => Returned (scanTypeOr c "timestamp with time zone")
    | field.TypeEnum => Returned "varchar"
    | field.TypeOther => Returned (typ c)
    | _ => Returned "bigint"
    end.
Proof.
  intros He. unfold cType. rewrite He, andb_false_r.
  now destruct (Type_ c).
Qed.

Lemma scanColumn_type_unrecognized (c : Column) (row : ColumnRow) :
  one_of (typ c) recognized_data_types = false ->
  scanColumn_type c row = Ok c.
Proof.
  intros Hnone. unfold recognized_data_types in Hnone.
  split_labels Hnone. unfold scanColumn_type, one_of. cbn [existsb].
  now repeat match goal with
             | Hl : (_ =? _)%string = false |- _ => rewrite Hl; clear Hl
             end.
Qed.

(** C10: [cType] returns a type name for each of the supported semantic
    types and whenever the column carries a non-empty override; for any
    other type without an override it panics.  That is the case of the
    zero type, which [scanColumn] leaves on a column whose data type is
    none of the types it recognizes. *)
Theorem cType_returns_or_panics :
  (forall c : Column,
      In (Type_ c) supported_types \/ schemaType_Postgres c <> EmptyString ->
      exists t, cType c = Returned t)
  /\ (forall c : Column,
        ~ In (Type_ c) supported_types ->
        schemaType_Postgres c = EmptyString ->
        exists msg, cType c = Panicked msg)
  /\ (forall row : ColumnRow,
        one_of (data_type row) recognized_data_types = false ->
        ns_Valid (column_default row) = false ->
        exists c, scanColumn Column_zero (Ok row) = Ok c
                  /\ Type_ c = field.TypeInvalid
                  /\ SchemaType c = None
                  /\ exists msg, cType c = Panicked msg).
Proof.
  split; [| split].
  - intros c Hc.
    destruct (String.eqb_spec (schemaType_Postgres c) EmptyString) as [He|Hne].
    + destruct Hc as [Hin|Hne]; [| now elim Hne].
      rewrite (cType_no_override c He).
      destruct (Type_ c); eauto.
      exfalso. unfold supported_types in Hin. simpl in Hin.
      intuition discriminate.
    + rewrite (cType_override c Hne). eauto.
  - intros c Hout He. rewrite (cType_no_override c He).
    destruct (Type_ c); eauto; elim Hout; unfold supported_types; simpl; tauto.
  - intros row Hnone Hdefault.
    unfold scanColumn.
    set (c := scanColumn_head Column_zero row).
    assert (typ c = data_type row /\ Type_ c = field.TypeInvalid
            /\ SchemaType c = None) as (Htyp & Hty & Hst).
    { subst c. unfold scanColumn_head.
      now destruct (ns_Valid (is_nullable row)). }
    rewrite scanColumn_type_unrecognized by now rewrite Htyp.
    unfold scanColumn_default. rewrite Hdefault. simpl.
    exists c. repeat split; try assumption.
    rewrite cType_no_override by (unfold schemaType_Postgres; now rewrite Hst).
    rewrite Hty. eauto.
Qed.

End NativeTypes.

Lemma cType_returns_or_panics_witness :
  (exists t, cType (H := stand_in) (set_Type field.TypeUint16 Column_zero)
             = Returned t)
  /\ (exists msg, cType (H := stand_in) Column_zero = Panicked msg)
  /\ (exists c, scanColumn (H := stand_in) Column_zero (Ok money_row) = Ok c
                /\ Type_ c = field.TypeInvalid
                /\ SchemaType c = None
                /\ exists msg, cType (H := stand_in) c = Panicked msg).
Proof.
  destruct (cType_returns_or_panics (H := stand_in)) as (Hret & Hpanic & Hscan).
  split; [| split].
  - apply Hret. left. simpl. tauto.
  - apply Hpanic; [| reflexivity].
    simpl. intuition discriminate.
  - apply Hscan; reflexivity.
Defined.

(** ** Default values *)

Lemma split_from_nonempty (sep : string) (k : nat) (cur s : string) :
  strings.split_from sep k cur s <> [].
Proof.
  revert k cur. induction s as [|a s IH]; intros k cur; [easy |].
  cbn [strings.split_from]. destruct k as [|k]; [| apply IH].
  destruct (String.prefix sep (String a s)); [easy | apply IH].
Qed.

Lemma Join_cons (e : string) (l : list string) (sep : string) :
  l <> [] -> strings.Join (e :: l) sep = e +:+ sep +:+ strings.Join l sep.
Proof. destruct l; [congruence | reflexivity]. Qed.

Lemma ReplaceAll_quote_from (cur s : string) :
  strings.Join (strings.split_from "'" 0 cur s) "''" = cur +:+ double_quotes s.
Proof.
  revert cur. induction s as [|a s IH]; intros cur.
  - simpl. now rewrite append_empty_r.
  - cbn [strings.split_from double_quotes String.prefix].
    destruct (Ascii.eqb_spec a "'") as [->|Hne].
    + destruct (ascii_dec "'" "'") as [_|ne]; [| now elim ne].
      replace (String.prefix EmptyString s) with true by now destruct s.
      rewrite Join_cons by apply split_from_nonempty.
      change (String.length "'" - 1)%nat with 0%nat. now rewrite IH.
    + destruct (ascii_dec "'" a) as [e|_]; [now elim Hne |].
      rewrite IH, append_assoc. reflexivity.
Qed.

Lemma ReplaceAll_single_quote (s : string) :
  strings.ReplaceAll s "'" "''" = double_quotes s.
Proof. unfold strings.ReplaceAll, strings.Split. apply ReplaceAll_quote_from. Qed.

Section Defaults.
Context `{Declarations}.

(** What [writeDefault] renders (the quoting part of C3): a string
    default of a column that is not of UUID, time or numeric type is
    written between single quotes with every single quote in it doubled;
    a boolean default is written as [true] or [false]; a string default of
    a UUID, time or numeric column is written as it is. *)
Lemma writeDefault_literal (b : ColumnBuilder) (c : Column) (clause : string) :
  supportDefault c = true ->
  (forall v, Default c = Some (DString v) ->
             Type_ c <> field.TypeUUID -> Type_ c <> field.TypeTime ->
             field.Numeric (Type_ c) = false ->
             writeDefault b c clause
             = b ++ [clause +:+ " " +:+ "'" +:+ double_quotes v +:+ "'"])
  /\ (forall v : bool, Default c = Some (DBool v) ->
             writeDefault b c clause
             = b ++ [clause +:+ " " +:+ (if v then "true" else "false")])
  /\ (forall v, Default c = Some (DString v) ->
             Type_ c = field.TypeUUID \/ Type_ c = field.TypeTime
             \/ field.Numeric (Type_ c) = true ->
             writeDefault b c clause = b ++ [clause +:+ " " +:+ v]).
Proof.
  intros Hsup. unfold writeDefault, Attr. rewrite Hsup. simpl.
  split; [| split].
  - intros v -> Hu Ht Hn.
    rewrite !bool_decide_eq_true_2, Hn by assumption. simpl.
    now rewrite ReplaceAll_single_quote.
  - now intros v ->.
  - intros v -> [Hu|[Ht|Hn]].
    + now rewrite Hu.
    + now rewrite Ht.
    + rewrite Hn, andb_false_r. reflexivity.
Qed.

End Defaults.

(** C3, the code at the failing input: the default [O'Brien] is written as
    ['O''Brien'], and reading the catalog's ['O''Brien'::character varying]
    back hands [ScanDefault] the text [O''Brien], the quote still doubled
    (read back as written, without the cast, the text keeps its outer
    quotes as well).  Stored as a string it is not the default that was
    declared. *)
Theorem scanColumn_keeps_doubled_quote :
  (forall D : Declarations,
      writeDefault [] obrien_column "DEFAULT"
      = if supportDefault obrien_column then ["DEFAULT 'O''Brien'"] else [])
  /\ (forall D : Declarations,
        scanColumn Column_zero (Ok (obrien_row "'O''Brien'::character varying"))
        = ScanDefault obrien_scanned "O''Brien"
        /\ scanColumn Column_zero (Ok (obrien_row "'O''Brien'"))
           = ScanDefault obrien_scanned "'O''Brien'")
  /\ match scanColumn (H := stand_in) Column_zero
             (Ok (obrien_row "'O''Brien'::character varying")) with
     | Ok c => Default c = Some (DString "O''Brien")
               /\ Default c <> Default obrien_column
     | Err _ => False
     end.
Proof.
  split; [| split].
  - intros D. unfold writeDefault.
    change (Default obrien_column) with (Some (DString "O'Brien")).
    now destruct (supportDefault obrien_column).
  - intros D. split; vm_compute; reflexivity.
  - vm_compute. split; [reflexivity | discriminate].
Qed.

(** ** Round trip of column types *)

Lemma append_nonempty (s p : string) : s <> EmptyString -> s +:+ p <> EmptyString.
Proof.
  intros Hs Heq. apply (f_equal String.length) in Heq.
  rewrite length_append in Heq. destruct s; [now elim Hs | simpl in Heq; lia].
Qed.

Section TypeRoundTrip.
Context `{Declarations}.

Lemma scanColumn_head_fields (c : Column) (row : ColumnRow) :
  typ (scanColumn_head c row) = data_type row
  /\ Type_ (scanColumn_head c row) = Type_ c
  /\ SchemaType (scanColumn_head c row) = SchemaType c.
Proof. unfold scanColumn_head. now destruct (ns_Valid (is_nullable row)). Qed.

Lemma scanColumn_without_default (c : Column) (row : ColumnRow) :
  ns_Valid (column_default row) = false ->
  scanColumn c (Ok row) = scanColumn_type (scanColumn_head c row) row.
Proof.
  intros Hd. unfold scanColumn.
  destruct (scanColumn_type _ row); [| reflexivity].
  unfold scanColumn_default. now rewrite Hd.
Qed.

Lemma schemaType_postgres_only (s : string) (c : Column) :
  schemaType_Postgres (set_SchemaType (postgres_only s) c) = s.
Proof.
  unfold schemaType_Postgres, postgres_only. simpl.
  now rewrite lookup_singleton_eq.
Qed.

(** The type that [scanColumn] gives a column of each data type [cType]
    can lead to. *)
Lemma scanColumn_type_of (c : Column) (row : ColumnRow) (t : string)
  (ty : field.Type_) :
  typ c = t ->
  In (t, ty)
    [("boolean", field.TypeBool); ("smallint", field.TypeInt16);
     ("integer", field.TypeInt32); ("bigint", field.TypeInt64);
     ("real", field.TypeFloat32); ("double precision", field.TypeFloat64);
     ("bytea", field.TypeBytes); ("jsonb", field.TypeJSON);
     ("uuid", field.TypeUUID); ("text", field.TypeString);
     ("character varying", field.TypeString);
     ("timestamp with time zone", field.TypeTime);
     ("cidr", field.TypeOther); ("inet", field.TypeOther);
     ("macaddr", field.TypeOther); ("macaddr8", field.TypeOther)] ->
  exists c', scanColumn_type c row = Ok c' /\ Type_ c' = ty.
Proof.
  intros Htyp Hin. unfold scanColumn_type. cbv zeta. rewrite Htyp.
  simpl in Hin.
  repeat (destruct Hin as [Heq|Hin];
          [ injection Heq as <- <-; eval_labels;
            repeat match goal with
                   | |- context [if ?b then _ else _] => destruct b
                   end;
            eexists; split; reflexivity
          | ]).
  contradiction.
Qed.

(** The native type of a column without an override whose scan type is
    unset, and the type read back under that name. *)
Lemma cType_then_scan (catalog : string -> string) (c : Column) :
  catalog_names catalog ->
  (forall (c : Column) (t : string), typ c = EmptyString -> scanTypeOr c t = t) ->
  SchemaType c = None ->
  In (Type_ c) supported_types ->
  (Type_ c = field.TypeOther -> In (typ c) network_types) ->
  (Type_ c <> field.TypeOther -> typ c = EmptyString) ->
  exists t,
    cType c = Returned t
    /\ forall row c0, typ c0 = catalog t ->
         exists c', scanColumn_type c0 row = Ok c'
                    /\ Type_ c' = read_back (Type_ c).
Proof.
  intros (Hint & Hvarchar & Hsame) Hunset Hst Hin Hother Hplain.
  assert (schemaType_Postgres c = EmptyString) as He
      by (unfold schemaType_Postgres; now rewrite Hst).
  rewrite (cType_no_override c He).
  assert (forall t, scanTypeOr c t = t \/ Type_ c = field.TypeOther) as Hdflt.
  { intros t. destruct (decide (Type_ c = field.TypeOther)) as [|Hne];
      [now right | left; apply Hunset, Hplain, Hne]. }
  destruct (Type_ c) eqn:Hty;
    try (exfalso; simpl in Hin; intuition discriminate);
    try match goal with
        | |- context [Size c >? maxCharSize] => destruct (Size c >? maxCharSize)
        end;
    try (destruct (Hdflt "real") as [->|]; [| discriminate]);
    try (destruct (Hdflt "double precision") as [->|]; [| discriminate]);
    try (destruct (Hdflt "timestamp with time zone") as [->|]; [| discriminate]);
    try (eexists; split; [reflexivity |]; intros row c0 Htyp;
         rewrite ?Hint, ?Hvarchar in Htyp;
         try (rewrite Hsame in Htyp by (simpl; tauto));
         apply (scanColumn_type_of c0 row _ _ Htyp); simpl; tauto).
  (* the opaque type *)
  eexists; split; [reflexivity |]. intros row c0 Htyp.
  specialize (Hother eq_refl).
  rewrite Hsame in Htyp
    by (unfold same_named; apply in_or_app; right; exact Hother).
  apply (scanColumn_type_of c0 row _ _ Htyp).
  simpl in Hother. simpl.
  destruct Hother as [<-|[<-|[<-|[<-|[]]]]]; tauto.
Qed.

(** C1, amended: a column of a supported type, without an override, is
    created with the type name [cType] gives; read back by [scanColumn]
    under the name the catalog shows for that type ([integer] for [int],
    [character varying] for [varchar], the same name for the others) it
    has its own type again, except that int8, uint8 and uint16 come back
    as int16, uint32 as int32, int, uint and uint64 as int64, and enum as
    string.  A numeric or decimal column read with precision [P] and
    scale [S] is given the native type with the same [P] and [S]. *)
Theorem type_round_trip (catalog : string -> string) :
  catalog_names catalog ->
  (forall (c : Column) (t : string), typ c = EmptyString -> scanTypeOr c t = t) ->
  (forall c : Column,
      SchemaType c = None ->
      In (Type_ c) supported_types ->
      (Type_ c = field.TypeOther -> In (typ c) network_types) ->
      (Type_ c <> field.TypeOther -> typ c = EmptyString) ->
      exists t,
        cType c = Returned t
        /\ forall row, data_type row = catalog t ->
             ns_Valid (column_default row) = false ->
             exists c', scanColumn Column_zero (Ok row) = Ok c'
                        /\ Type_ c' = read_back (Type_ c)
                        /\ (In (Type_ c) lossless_types -> Type_ c' = Type_ c))
  /\ (forall row P S,
        one_of (data_type row) ["numeric"; "decimal"] = true ->
        numeric_precision row = valid_int64 P ->
        numeric_scale row = valid_int64 S ->
        ns_Valid (column_default row) = false ->
        exists c', scanColumn Column_zero (Ok row) = Ok c'
                   /\ Type_ c' = field.TypeFloat64
                   /\ cType c'
                      = Returned (data_type row +:+ "(" +:+ itoa P +:+ ","
                                    +:+ itoa S +:+ ")")).
Proof.
  intros Hcat Hunset. split.
  - intros c Hst Hin Hother Hplain.
    destruct (cType_then_scan catalog c Hcat Hunset Hst Hin Hother Hplain)
      as (t & Hct & Hscan).
    exists t. split; [exact Hct |]. intros row Hdt Hnodef.
    rewrite (scanColumn_without_default _ _ Hnodef).
    destruct (Hscan row (scanColumn_head Column_zero row)) as (c' & Hc' & Hty).
    { rewrite <- Hdt. apply scanColumn_head_fields. }
    exists c'. repeat split; [exact Hc' | exact Hty |].
    intros Hl. rewrite Hty. unfold lossless_types in Hl. simpl in Hl.
    now repeat (destruct Hl as [<-|Hl]; [reflexivity |]).
  - intros row P S Hnum HP HS Hnodef.
    rewrite (scanColumn_without_default _ _ Hnodef).
    destruct (scanColumn_head_fields Column_zero row) as (Htyp & _ & _).
    unfold scanColumn_type. cbv zeta. rewrite Htyp, HP, HS.
    unfold one_of in Hnum. cbn [existsb] in Hnum.
    rewrite orb_false_r in Hnum. apply orb_true_iff in Hnum.
    destruct Hnum as [Hn|Hn]; apply String.eqb_eq in Hn; rewrite Hn;
      eval_labels; cbn [ni_Valid ni_Int64 valid_int64];
      (eexists; split; [reflexivity |]; split; [reflexivity |]);
      rewrite cType_override; rewrite schemaType_postgres_only;
      solve [reflexivity | apply append_nonempty; discriminate].
Qed.

End TypeRoundTrip.

(** C1, as stated, fails: the type name [cType] gives an int32 column is
    [int], which is none of the data types [scanColumn] knows; read back
    under that name the column is left with the zero type. *)
Lemma int32_not_read_back_under_cType_name :
  cType (H := stand_in) (set_Type field.TypeInt32 (named "age")) = Returned "int"
  /\ exists c, scanColumn (H := stand_in) Column_zero (Ok (plain_row "age" "int"))
               = Ok c
               /\ Type_ c = field.TypeInvalid.
Proof. split; [reflexivity |]. eexists. split; reflexivity. Qed.

Lemma pg_data_type_names : catalog_names pg_data_type.
Proof.
  repeat split. intros t Hin. unfold same_named, network_types in Hin.
  simpl in Hin.
  repeat (destruct Hin as [<-|Hin]; [reflexivity |]). contradiction.
Defined.

Lemma type_round_trip_witness :
  exists c, scanColumn (H := stand_in) Column_zero
              (Ok (plain_row "age" "integer")) = Ok c
            /\ Type_ c = field.TypeInt32.
Proof.
  destruct (type_round_trip (H := stand_in) pg_data_type pg_data_type_names)
    as [Hrt _].
  - intros c t Htyp. simpl. now rewrite Htyp.
  - destruct (Hrt (set_Type field.TypeInt32 (named "age")))
      as (t & Hct & Hscan);
      [reflexivity | simpl; tauto | discriminate | reflexivity |].
    injection Hct as <-.
    destruct (Hscan (plain_row "age" "integer") eq_refl eq_refl)
      as (c & Hc & Hty & _).
    exists c. split; [exact Hc | exact Hty].
Defined.

Example numeric_round_trip :
  exists c, scanColumn (H := stand_in) Column_zero
              (Ok {| column_name := "price"; data_type := "numeric";
                     is_nullable := valid_string "NO";
                     column_default := null_string;
                     udt_name := valid_string "numeric";
                     numeric_precision := valid_int64 10;
                     numeric_scale := valid_int64 2;
                     character_maximum_length := null_int64 |}) = Ok c
            /\ cType (H := stand_in) c = Returned "numeric(10,2)".
Proof. eexists. split; reflexivity. Qed.

(** ** The server version *)

Lemma digit_not_dot (a : ascii) : is_digit a = true -> a <> "."%char.
Proof. intros Hd ->. discriminate. Qed.

Lemma split_dot_digits (a cur rest : string) :
  all_digits a = true ->
  strings.split_from "." 0 cur (a +:+ rest)
  = strings.split_from "." 0 (cur +:+ a) rest.
Proof.
  revert cur. induction a as [|x a IH]; intros cur Hd.
  - now rewrite append_nil, append_empty_r.
  - simpl in Hd. apply andb_true_iff in Hd as [Hx Ha].
    rewrite append_cons. cbn [strings.split_from String.prefix].
    destruct (ascii_dec "." x) as [e|_];
      [now elim (digit_not_dot x Hx) |].
    rewrite (IH _ Ha), append_assoc. reflexivity.
Qed.

Lemma split_dot_separator (cur rest : string) :
  strings.split_from "." 0 cur (String "." rest)
  = cur :: strings.split_from "." 0 EmptyString rest.
Proof.
  cbn [strings.split_from String.prefix].
  destruct (ascii_dec "." ".") as [_|ne]; [| now elim ne].
  now replace (String.prefix EmptyString rest) with true by now destruct rest.
Qed.

Lemma Split_version (a b c : string) :
  all_digits a = true -> all_digits b = true -> all_digits c = true ->
  strings.Split (a +:+ "." +:+ b +:+ "." +:+ c) "." = [a; b; c].
Proof.
  intros Ha Hb Hc. unfold strings.Split.
  rewrite (split_dot_digits a _ _ Ha), append_nil.
  change ("." +:+ b +:+ "." +:+ c) with (String "." (b +:+ "." +:+ c)).
  rewrite split_dot_separator, (split_dot_digits b _ _ Hb), append_nil.
  change ("." +:+ c) with (String "." c).
  rewrite split_dot_separator.
  rewrite <- (append_empty_r c) at 1.
  now rewrite (split_dot_digits c _ _ Hc), append_nil.
Qed.

Lemma digits_value_digits (s : string) (acc : Z) :
  all_digits s = true -> 0 <= acc ->
  exists n, digits_value acc s = Some n /\ 0 <= n.
Proof.
  revert acc. induction s as [|a s IH]; intros acc Hd Hacc.
  - exists acc. now split.
  - simpl in Hd. apply andb_true_iff in Hd as [Ha Hs].
    unfold is_digit in Ha. cbn [digits_value].
    destruct (digit_value a) as [d|] eqn:Hda; [| discriminate].
    apply IH; [exact Hs |].
    unfold digit_value in Hda.
    destruct (_ && _) eqn:Hrange; [| discriminate].
    injection Hda as <-. apply andb_true_iff in Hrange as [Hlo _].
    apply Z.leb_le in Hlo. lia.
Qed.

Lemma Atoi_digits (s : string) :
  s <> EmptyString -> all_digits s = true ->
  exists n, Atoi s = Some n /\ 0 <= n.
Proof.
  intros Hne Hd. destruct s as [|a s]; [now elim Hne |].
  apply (digits_value_digits (String a s) 0 Hd). lia.
Qed.

Lemma compareVersions_floor (a b c : string) (major minor patch : Z) :
  all_digits a = true -> all_digits b = true -> all_digits c = true ->
  Atoi a = Some major -> Atoi b = Some minor -> Atoi c = Some patch ->
  (compareVersions (a +:+ "." +:+ b +:+ "." +:+ c) "10.0.0" =? -1)
  = version_below (major, minor, patch) (10, 0, 0).
Proof.
  intros Ha Hb Hc Hma Hmi Hpa.
  assert (parseVersion (a +:+ "." +:+ b +:+ "." +:+ c)
          = Some (major, minor, patch)) as Hv.
  { unfold parseVersion.
    now rewrite (Split_version a b c Ha Hb Hc), Hma, Hmi, Hpa. }
  assert (parseVersion "10.0.0" = Some (10, 0, 0)) as Hfloor by reflexivity.
  unfold compareVersions. rewrite Hv, Hfloor.
  unfold version_below, compare_int.
  destruct (Z.ltb_spec major 10), (Z.ltb_spec 10 major),
    (Z.ltb_spec minor 0), (Z.ltb_spec 0 minor),
    (Z.ltb_spec patch 0), (Z.ltb_spec 0 patch),
    (Z.eqb_spec major 10), (Z.eqb_spec minor 0);
    simpl; try reflexivity; lia.
Qed.

Lemma init_formats (d : Postgres) (v : string) (rest : list (result string))
  (err : option string) :
  6 <= strings.len v ->
  let parsed := strings.slice v 0 2 +:+ "." +:+ strings.slice v 2 4 +:+ "."
                  +:+ strings.drop 4 v in
  init d (Ok (mkRows (Ok v :: rest) err))
  = (set_version parsed d,
     if compareVersions parsed "10.0.0" =? -1
     then Some ("unsupported postgres version: " +:+ parsed)
     else None).
Proof.
  intros Hlen parsed. unfold init. cbn [pending].
  destruct (Z.ltb_spec (strings.len v) 6) as [Hlt|_]; [lia |].
  cbn [version]. fold parsed. fold (set_version parsed d).
  now destruct (compareVersions parsed "10.0.0" =? -1).
Qed.

(** C6: [init] takes the one answer to [SHOW server_version_num].  No row
    or a string of fewer than six bytes is an error.  A string of six or
    more digits is read as the version made of its first two digits, its
    next two digits and the rest; [init] fails with the unsupported-version
    error exactly when that version is below 10.0.0, and succeeds
    otherwise. *)
Theorem init_version_floor (d : Postgres) :
  (forall err, exists e, init d (Ok (mkRows [] err)) = (d, Some e))
  /\ (forall v rest err,
        strings.len v < 6 ->
        init d (Ok (mkRows (Ok v :: rest) err))
        = (d, Some ("malformed version: " +:+ v)))
  /\ (forall v rest err,
        all_digits v = true -> 6 <= strings.len v ->
        exists major minor patch,
          Atoi (strings.slice v 0 2) = Some major
          /\ Atoi (strings.slice v 2 4) = Some minor
          /\ Atoi (strings.drop 4 v) = Some patch
          /\ let parsed := strings.slice v 0 2 +:+ "." +:+ strings.slice v 2 4
                             +:+ "." +:+ strings.drop 4 v in
             init d (Ok (mkRows (Ok v :: rest) err))
             = (set_version parsed d,
                if version_below (major, minor, patch) (10, 0, 0)
                then Some ("unsupported postgres version: " +:+ parsed)
                else None)).
Proof.
  split; [| split].
  - intros [e|]; eexists; reflexivity.
  - intros v rest err Hlen. unfold init. cbn [pending].
    destruct (Z.ltb_spec (strings.len v) 6) as [_|Hge]; [reflexivity | lia].
  - intros v rest err Hd Hlen.
    destruct v as [|c1 [|c2 [|c3 [|c4 [|c5 [|c6 r]]]]]];
      try (unfold strings.len in Hlen; simpl in Hlen; lia).
    cbn [all_digits] in Hd.
    repeat (apply andb_true_iff in Hd;
            let Hc := fresh "Hc" in destruct Hd as [Hc Hd]).
    set (a := String c1 (String c2 EmptyString)).
    set (b := String c3 (String c4 EmptyString)).
    set (c := String c5 (String c6 r)).
    assert (all_digits a = true) as Ha by (subst a; simpl; now rewrite Hc, Hc0).
    assert (all_digits b = true) as Hb by (subst b; simpl; now rewrite Hc1, Hc2).
    assert (all_digits c = true) as Hcd
        by (subst c; simpl; now rewrite Hc3, Hc4, Hd).
    destruct (Atoi_digits a) as (major & Hma & _); [easy | exact Ha |].
    destruct (Atoi_digits b) as (minor & Hmi & _); [easy | exact Hb |].
    destruct (Atoi_digits c) as (patch & Hpa & _); [easy | exact Hcd |].
    exists major, minor, patch.
    rewrite init_formats by exact Hlen.
    change (strings.slice (String c1 (String c2 (String c3 (String c4 c)))) 0 2)
      with a.
    change (strings.slice (String c1 (String c2 (String c3 (String c4 c)))) 2 4)
      with b.
    change (strings.drop 4 (String c1 (String c2 (String c3 (String c4 c)))))
      with c.
    repeat split; try assumption. cbv zeta.
    now rewrite (compareVersions_floor a b c major minor patch).
Qed.

Lemma init_version_floor_witness :
  init (mkPostgres EmptyString EmptyString) (Ok (mkRows [Ok "090603"] None))
  = ({| schema := EmptyString; version := "09.06.03" |},
     Some "unsupported postgres version: 09.06.03")
  /\ init (mkPostgres EmptyString EmptyString) (Ok (mkRows [Ok "150002"] None))
     = ({| schema := EmptyString; version := "15.00.02" |}, None)
  /\ init (mkPostgres EmptyString EmptyString) (Ok (mkRows [Ok "90603"] None))
     = (mkPostgres EmptyString EmptyString, Some "malformed version: 90603").
Proof.
  destruct (init_version_floor (mkPostgres EmptyString EmptyString)) as (_ & Hshort & Hlong).
  split; [| split].
  - destruct (Hlong "090603" [] None eq_refl) as (ma & mi & pa & H1 & H2 & H3 & Hi).
    { unfold strings.len. simpl. lia. }
    injection H1 as <-. injection H2 as <-. injection H3 as <-. exact Hi.
  - destruct (Hlong "150002" [] None eq_refl) as (ma & mi & pa & H1 & H2 & H3 & Hi).
    { unfold strings.len. simpl. lia. }
    injection H1 as <-. injection H2 as <-. injection H3 as <-. exact Hi.
  - apply (Hshort "90603" [] None). unfold strings.len. simpl. lia.
Defined.

(** ** Introspected index names *)

Lemma add_column_fields (column : string) (idx : Index) :
  idx_Name (add_column column idx) = idx_Name idx
  /\ idx_realname (add_column column idx) = idx_realname idx
  /\ idx_columns (add_column column idx) = idx_columns idx ++ [column].
Proof. now destruct idx. Qed.

Lemma alter_at_end {A} (f : A -> A) (l : list A) (x : A) :
  alter f (length l) (l ++ [x]) = l ++ [f x].
Proof.
  replace (length l) with (length l + 0)%nat at 1 by lia.
  now rewrite alter_app_r.
Qed.

Lemma indexes_loop_scanned (table : string) (rows : list IndexRow)
  (st : list Index * gmap string nat) :
  indexes_loop table (map Ok rows) st
  = Ok (fold_left (indexes_row table) rows st).
Proof.
  revert st. induction rows as [|r rows IH]; intros st; simpl;
    [reflexivity | apply IH].
Qed.

Lemma lookup_alter_add_column (column : string) (k pos : nat)
  (idxs : list Index) (idx : Index) :
  idxs !! pos = Some idx ->
  exists idx', alter (add_column column) k idxs !! pos = Some idx'
    /\ idx_Name idx' = idx_Name idx
    /\ idx_realname idx' = idx_realname idx
    /\ (forall c, In c (idx_columns idx) -> In c (idx_columns idx'))
    /\ (k = pos -> In column (idx_columns idx')).
Proof.
  intros Hpos. destruct (decide (k = pos)) as [->|Hne].
  - exists (add_column column idx).
    rewrite list_lookup_alter_eq, Hpos.
    destruct (add_column_fields column idx) as (Hn & Hr & Hc).
    rewrite Hn, Hr, Hc. repeat split; try reflexivity.
    + intros c Hin. apply in_or_app. now left.
    + intros _. apply in_or_app. right. now left.
  - exists idx. rewrite list_lookup_alter_ne by exact Hne.
    repeat split; try assumption; try reflexivity; tauto.
Qed.

Lemma lookup_alter_add_column_inv (column : string) (k pos : nat)
  (idxs : list Index) (idx' : Index) :
  alter (add_column column) k idxs !! pos = Some idx' ->
  exists idx, idxs !! pos = Some idx
    /\ idx_Name idx' = idx_Name idx
    /\ idx_realname idx' = idx_realname idx.
Proof.
  intros Hpos. destruct (decide (k = pos)) as [->|Hne].
  - rewrite list_lookup_alter_eq in Hpos.
    destruct (idxs !! pos) as [idx|]; [| discriminate].
    injection Hpos as <-. exists idx.
    destruct (add_column_fields column idx) as (Hn & Hr & _). now rewrite Hn, Hr.
  - rewrite list_lookup_alter_ne in Hpos by exact Hne. now exists idx'.
Qed.

Lemma indexes_inv_row (table : string) (seen : list IndexRow)
  (st : list Index * gmap string nat) (r : IndexRow) :
  indexes_inv table seen st ->
  indexes_inv table (seen ++ [r]) (indexes_row table st r).
Proof.
  destruct st as [idxs names]. intros (Hnames & Hidx & Hseen).
  simpl in Hnames, Hidx, Hseen. unfold indexes_row.
  set (short := strings.TrimPrefix (ir_name r) (table +:+ "_")).
  destruct (names !! short) as [k|] eqn:Hshort.
  - (* the short name is known: the column goes to its index *)
    destruct (Hnames short k Hshort) as (idx0 & Hk & Hname0).
    split; [| split]; simpl.
    + intros s pos Hs. destruct (Hnames s pos Hs) as (idx & Hpos & Hn).
      destruct (lookup_alter_add_column (ir_column r) k pos idxs idx Hpos)
        as (idx' & Hpos' & Hn' & _).
      exists idx'. split; [exact Hpos' | congruence].
    + intros pos idx' Hpos'.
      destruct (lookup_alter_add_column_inv _ _ _ _ _ Hpos')
        as (idx & Hpos & Hn & Hr).
      destruct (Hidx pos idx Hpos) as (Htrim & r0 & Hin & Hr0).
      rewrite Hn, Hr. split; [exact Htrim |].
      exists r0. split; [apply in_or_app; now left | exact Hr0].
    + intros r' Hin. apply in_app_or in Hin as [Hin|[<-|[]]].
      * destruct (Hseen r' Hin) as (pos & idx & Hpos & Hn & Hc).
        destruct (lookup_alter_add_column (ir_column r) k pos idxs idx Hpos)
          as (idx' & Hpos' & Hn' & _ & Hc' & _).
        exists pos, idx'. repeat split; [exact Hpos' | congruence | auto].
      * destruct (lookup_alter_add_column (ir_column r) k k idxs idx0 Hk)
          as (idx' & Hpos' & Hn' & _ & _ & Hc').
        exists k, idx'. repeat split;
          [exact Hpos' | now rewrite Hn', Hname0 | auto].
  - (* a new short name: a new index, with this column *)
    rewrite alter_at_end.
    set (idx1 := add_column (ir_column r) _).
    assert (idx_Name idx1 = short /\ idx_realname idx1 = ir_name r
            /\ idx_columns idx1 = [ir_column r]) as (Hn1 & Hr1 & Hc1)
        by (subst idx1; repeat split; reflexivity).
    split; [| split]; simpl.
    + intros s pos Hs. destruct (decide (short = s)) as [<-|Hne].
      * rewrite lookup_insert_eq in Hs. injection Hs as <-.
        exists idx1. split; [| exact Hn1].
        rewrite lookup_app_r by lia. now rewrite Nat.sub_diag.
      * rewrite lookup_insert_ne in Hs by exact Hne.
        destruct (Hnames s pos Hs) as (idx & Hpos & Hn).
        exists idx. split; [| exact Hn].
        now apply lookup_app_l_Some.
    + intros pos idx Hpos. apply lookup_app_Some in Hpos as [Hpos|[_ Hpos]].
      * destruct (Hidx pos idx Hpos) as (Htrim & r0 & Hin & Hr0).
        split; [exact Htrim |].
        exists r0. split; [apply in_or_app; now left | exact Hr0].
      * apply list_lookup_singleton_Some in Hpos as [_ <-].
        rewrite Hn1, Hr1. split; [reflexivity |].
        exists r. split; [apply in_or_app; right; now left | reflexivity].
    + intros r' Hin. apply in_app_or in Hin as [Hin|[<-|[]]].
      * destruct (Hseen r' Hin) as (pos & idx & Hpos & Hn & Hc).
        exists pos, idx. repeat split; try assumption.
        now apply lookup_app_l_Some.
      * exists (length idxs), idx1. split; [| split].
        -- rewrite lookup_app_r by lia. now rewrite Nat.sub_diag.
        -- exact Hn1.
        -- rewrite Hc1. now left.
Qed.

Lemma indexes_inv_rows (table : string) (rows seen : list IndexRow)
  (st : list Index * gmap string nat) :
  indexes_inv table seen st ->
  indexes_inv table (seen ++ rows) (fold_left (indexes_row table) rows st).
Proof.
  revert seen st. induction rows as [|r rows IH]; intros seen st Hinv; simpl.
  - now rewrite app_nil_r.
  - replace (seen ++ r :: rows) with ((seen ++ [r]) ++ rows)
      by now rewrite <- app_assoc.
    apply IH, indexes_inv_row, Hinv.
Qed.

(** C4, as stated, fails: the live index [users_name_idx] on column [name]
    is introspected under the name [name_idx].  That name is not the one
    derived from the column list, yet it is kept and not the full catalog
    name; and it is not [name], the target index of which [addIndex] would
    call [users_name]. *)
Lemma users_name_idx_is_name_idx :
  let live := {| idx_Name := "name_idx"; idx_Unique := true; idx_Columns := [];
                 idx_columns := ["name"]; idx_primary := false;
                 idx_realname := "users_name_idx" |} in
  let target := {| idx_Name := "name"; idx_Unique := true;
                   idx_Columns := [named "name"]; idx_columns := [];
                   idx_primary := false; idx_realname := EmptyString |} in
  indexes (Ok (mkRows [Ok (mkIndexRow "users_name_idx" "name" false true 1)]
                 None)) "users" = Ok [live]
  /\ hasUniqueName (H := stand_in) live = true
  /\ idx_Name live <> "users_name_idx"
  /\ idx_Name live <> idx_Name target
  /\ ib_name (addIndex (H := stand_in) target "users") = "users_name".
Proof. repeat split; easy. Qed.

(** ** Call expressions *)







Lemma LastIndexByte_nonneg (s : string) (c : ascii) :
  -1 <= strings.LastIndexByte s c < strings.len s.
Proof.
  unfold strings.len. induction s as [|a s IH]; [simpl; lia |].
  cbn [strings.LastIndexByte String.length].
  destruct (Z.leb_spec 0 (strings.LastIndexByte s c)); [lia |].
  destruct (Ascii.eqb a c); lia.
Qed.

Lemma LastIndexByte_append (u : string) (c : ascii) :
  strings.LastIndexByte (u +:+ String c EmptyString) c = strings.len u.
Proof.
  unfold strings.len. induction u as [|a u IH].
  - rewrite append_nil. simpl. now rewrite Ascii.eqb_refl.
  - rewrite append_cons. cbn [strings.LastIndexByte]. rewrite IH.
    destruct (Z.leb_spec 0 (Z.of_nat (String.length u))); simpl String.length; lia.
Qed.

Lemma take_drop_string (n : nat) (s : string) :
  strings.take n s +:+ strings.drop n s = s.
Proof.
  revert s. induction n as [|n IH]; intros s.
  - now rewrite drop_zero.
  - destruct s as [|a s]; [reflexivity |].
    cbn [strings.take strings.drop]. now rewrite append_cons, IH.
Qed.

Lemma HasSuffix_split (s t : string) :
  strings.HasSuffix s t = true -> exists u, s = u +:+ t.
Proof.
  unfold strings.HasSuffix. intros Hs.
  apply andb_true_iff in Hs as [_ Hs]. apply String.eqb_eq in Hs.
  exists (strings.take (String.length s - String.length t) s).
  pose proof (take_drop_string (String.length s - String.length t) s) as Htd.
  rewrite Hs in Htd. now symmetry.
Qed.

Lemma drop_past (p s : string) (n : nat) :
  strings.drop (String.length p + n) (p +:+ s) = strings.drop n s.
Proof.
  induction p as [|a p IH]; [reflexivity |].
  rewrite append_cons. exact IH.
Qed.

Lemma HasSuffix_byte_append (x y : string) (c : ascii) :
  y <> EmptyString ->
  strings.HasSuffix (x +:+ y) (String c EmptyString)
  = strings.HasSuffix y (String c EmptyString).
Proof.
  intros Hy. unfold strings.HasSuffix. rewrite length_append.
  assert (1 <= String.length y)%nat as Hlen
      by (destruct y; [now elim Hy | simpl; lia]).
  cbn [String.length].
  replace (String.length x + String.length y - 1)%nat
    with (String.length x + (String.length y - 1))%nat by lia.
  rewrite drop_past.
  destruct (Nat.leb_spec 1 (String.length x + String.length y));
    destruct (Nat.leb_spec 1 (String.length y)); try lia; reflexivity.
Qed.




Lemma prefix_empty (s : string) : String.prefix EmptyString s = true.
Proof. now destruct s. Qed.

Lemma IndexByte_lower (s : string) (c : ascii) : -1 <= strings.IndexByte s c.
Proof.
  induction s as [|a s IH]; [simpl; lia |]. cbn [strings.IndexByte].
  destruct (Ascii.eqb a c); [lia |].
  destruct (Z.ltb_spec (strings.IndexByte s c) 0); lia.
Qed.









(** ** Foreign keys *)

Lemma one_of_In (s : string) (l : list string) : one_of s l = true <-> In s l.
Proof.
  unfold one_of. rewrite existsb_exists. split.
  - intros (x & Hin & Heq). apply String.eqb_eq in Heq. now subst.
  - intros Hin. exists s. split; [exact Hin | apply String.eqb_refl].
Qed.

Lemma first_seen_snoc (l : list string) (x : string) :
  first_seen (l ++ [x]) = add_new (first_seen l) x.
Proof. unfold first_seen. now rewrite fold_left_app. Qed.

Lemma first_seen_elements (l : list string) (x : string) :
  In x (first_seen l) <-> In x l.
Proof.
  induction l as [|y l IH] using rev_ind; [reflexivity |].
  rewrite first_seen_snoc, in_app_iff. unfold add_new.
  destruct (one_of y (first_seen l)) eqn:Hy.
  - apply one_of_In in Hy. rewrite IH in *. simpl. split; [tauto |].
    intros [Hx|[<-|[]]]; tauto.
  - rewrite in_app_iff, IH. reflexivity.
Qed.

Lemma first_seen_NoDup (l : list string) : NoDup (first_seen l).
Proof.
  induction l as [|y l IH] using rev_ind; [constructor |].
  rewrite first_seen_snoc. unfold add_new.
  destruct (one_of y (first_seen l)) eqn:Hy; [exact IH |].
  apply NoDup_app. repeat split.
  - exact IH.
  - intros x Hx Hx'. apply list_elem_of_In in Hx, Hx'.
    destruct Hx' as [<-|[]].
    apply one_of_In in Hx. congruence.
  - apply NoDup_singleton.
Qed.

Lemma first_seen_distinct (l : list string) : NoDup l -> first_seen l = l.
Proof.
  induction l as [|y l IH] using rev_ind; [reflexivity |].
  intros Hnd. apply NoDup_app in Hnd as (Hl & Hy & _).
  rewrite first_seen_snoc, (IH Hl). unfold add_new.
  destruct (one_of y l) eqn:Hin; [| reflexivity].
  apply one_of_In, list_elem_of_In in Hin.
  elim (Hy y Hin). now left.
Qed.

Lemma by_name_Some (name : string) (cs : list Column) (c : Column) :
  by_name name cs = Some c -> Name c = name /\ In c cs.
Proof.
  unfold by_name. intros Hfind. apply find_some in Hfind as [Hin Heq].
  apply String.eqb_eq in Heq. now split.
Qed.

Lemma by_name_found (name : string) (cs : list Column) :
  match by_name name cs with
  | Some _ => one_of name (map Name cs) = true
  | None => one_of name (map Name cs) = false
  end.
Proof.
  unfold by_name, one_of. induction cs as [|c cs IH]; [reflexivity |].
  simpl. rewrite (String.eqb_sym name (Name c)).
  destruct (String.eqb (Name c) name); [reflexivity | exact IH].
Qed.

Lemma extend_fk_names (columnName refColumnName : string)
  (column refColumn : Column) (fk : ForeignKey) :
  Name column = columnName -> Name refColumn = refColumnName ->
  let fk' := extend_fk columnName refColumnName column refColumn fk in
  Symbol fk' = Symbol fk /\ RefTable fk' = RefTable fk
  /\ map Name (fk_Columns fk') = add_new (map Name (fk_Columns fk)) columnName
  /\ map Name (RefColumns fk') = add_new (map Name (RefColumns fk)) refColumnName.
Proof.
  intros Hc Hr. unfold extend_fk, ForeignKey_column, ForeignKey_refColumn, add_new.
  cbn [Symbol RefTable fk_Columns RefColumns].
  pose proof (by_name_found columnName (fk_Columns fk)) as Hcol.
  pose proof (by_name_found refColumnName (RefColumns fk)) as Href.
  destruct (by_name columnName (fk_Columns fk)),
    (by_name refColumnName (RefColumns fk));
    rewrite Hcol, Href, ?map_app; simpl; now rewrite ?Hc, ?Hr.
Qed.

Lemma rows_of_snoc (symbol : string) (seen : list FkRow) (r : FkRow) :
  rows_of symbol (seen ++ [r])
  = rows_of symbol seen
      ++ (if String.eqb (constraintName r) symbol then [r] else []).
Proof. unfold rows_of. now rewrite List.filter_app. Qed.

Lemma rows_of_unseen (symbol : string) (seen : list FkRow)
  (lookup : gmap string nat) :
  (forall r, In r seen -> is_Some (lookup !! constraintName r)) ->
  lookup !! symbol = None ->
  rows_of symbol seen = [].
Proof.
  intros Hseen Hnone. unfold rows_of.
  induction seen as [|r seen IH]; [reflexivity |]. simpl.
  destruct (String.eqb_spec (constraintName r) symbol) as [Heq|_].
  - destruct (Hseen r (or_introl eq_refl)) as [pos Hpos]. congruence.
  - apply IH. intros r' Hin. apply Hseen. now right.
Qed.

Lemma keys_inv_known (before : nat) (seen : list FkRow)
  (keys : list ForeignKey) (lookup : gmap string nat) (r : FkRow)
  (pos : nat) (column refColumn : Column) :
  keys_inv before seen keys lookup ->
  lookup !! constraintName r = Some pos ->
  Name column = columnName r -> Name refColumn = refColumnName r ->
  exists j, pos = (before + j)%nat
    /\ keys_inv before (seen ++ [r])
         (alter (extend_fk (columnName r) (refColumnName r) column refColumn)
            j keys)
         lookup.
Proof.
  intros (Hlookup & Hkeys & Hseen) Hpos Hc Hr.
  destruct (Hlookup _ _ Hpos) as (j & fk & -> & Hj & Hsym).
  exists j. split; [reflexivity |].
  set (add := extend_fk _ _ _ _).
  assert (forall fk0, Symbol (add fk0) = Symbol fk0) as Hadd
      by (intros fk0; apply (extend_fk_names _ _ _ _ fk0 Hc Hr)).
  split; [| split].
  - intros n pos' Hn. destruct (Hlookup _ _ Hn) as (j' & fk' & -> & Hj' & Hsym').
    exists j'. rewrite list_lookup_alter. case_decide as Hjj.
    + subst j'. rewrite Hj. exists (add fk). rewrite Hadd.
      repeat split. congruence.
    + exists fk'. now repeat split.
  - intros j' fk' Hj'. rewrite list_lookup_alter in Hj'.
    unfold local_names, ref_names. rewrite rows_of_snoc.
    case_decide as Hjj.
    + subst j'. rewrite Hj in Hj'. injection Hj' as <-.
      destruct (Hkeys j fk Hj) as (Hl & Hcols & Hrefs).
      destruct (extend_fk_names _ _ _ _ fk Hc Hr) as (Hs & _ & Hcols' & Hrefs').
      fold add in Hs, Hcols', Hrefs'. rewrite Hs, Hsym, String.eqb_refl.
      rewrite !map_app. cbn [map]. rewrite !first_seen_snoc.
      rewrite Hcols', Hrefs', Hcols, Hrefs, <- Hsym.
      unfold local_names, ref_names. now repeat split.
    + destruct (Hkeys j' fk' Hj') as (Hl & Hcols & Hrefs).
      destruct (String.eqb_spec (constraintName r) (Symbol fk')) as [Heq|_].
      * rewrite <- Heq, Hpos in Hl. injection Hl as Hl. lia.
      * rewrite !app_nil_r. now repeat split.
  - intros r' Hin. apply in_app_or in Hin as [Hin|[<-|[]]]; [now apply Hseen |].
    now exists (before + j)%nat.
Qed.

Lemma keys_inv_new (before : nat) (seen : list FkRow)
  (keys : list ForeignKey) (lookup : gmap string nat) (r : FkRow)
  (ref : nat) (column refColumn : Column) :
  keys_inv before seen keys lookup ->
  lookup !! constraintName r = None ->
  Name column = columnName r -> Name refColumn = refColumnName r ->
  keys_inv before (seen ++ [r])
    (keys ++ [{| Symbol := constraintName r; fk_Columns := [column];
                 RefTable := ref; RefColumns := [refColumn] |}])
    (<[constraintName r := (before + length keys)%nat]> lookup).
Proof.
  intros (Hlookup & Hkeys & Hseen) Hnone Hc Hr.
  split; [| split].
  - intros n pos Hn. destruct (decide (constraintName r = n)) as [<-|Hne].
    + rewrite lookup_insert_eq in Hn. injection Hn as <-.
      exists (length keys). eexists. split; [reflexivity |].
      rewrite lookup_app_r by lia. rewrite Nat.sub_diag. now split.
    + rewrite lookup_insert_ne in Hn by exact Hne.
      destruct (Hlookup _ _ Hn) as (j & fk & -> & Hj & Hsym).
      exists j, fk. repeat split; [| exact Hsym]. now apply lookup_app_l_Some.
  - intros j fk Hj. unfold local_names, ref_names. rewrite rows_of_snoc.
    apply lookup_app_Some in Hj as [Hj|[Hlen Hj]].
    + destruct (Hkeys j fk Hj) as (Hl & Hcols & Hrefs).
      assert (constraintName r <> Symbol fk) as Hne by congruence.
      rewrite lookup_insert_ne by exact Hne.
      destruct (String.eqb_spec (constraintName r) (Symbol fk)); [contradiction |].
      rewrite !app_nil_r. now repeat split.
    + apply list_lookup_singleton_Some in Hj as [Hj <-]. cbn [Symbol fk_Columns RefColumns].
      rewrite lookup_insert_eq, String.eqb_refl.
      rewrite (rows_of_unseen _ _ _ Hseen Hnone). cbn [map app].
      rewrite Hc, Hr. repeat split. f_equal. lia.
  - intros r' Hin. apply in_app_or in Hin as [Hin|[<-|[]]].
    + destruct (decide (constraintName r = constraintName r')) as [<-|Hne].
      * rewrite lookup_insert_eq. eauto.
      * rewrite lookup_insert_ne by exact Hne. now apply Hseen.
    + rewrite lookup_insert_eq. eauto.
Qed.

Lemma table_at_alter (g : Table -> Table) (k i : nat) (tables : list Table) :
  (k < length tables)%nat ->
  table_at (alter g k tables) i
  = if decide (i = k) then g (table_at tables k) else table_at tables i.
Proof.
  intros Hk. unfold table_at. rewrite !nth_lookup.
  case_decide as Hik.
  - subst i. rewrite list_lookup_alter_eq.
    destruct (lookup_lt_is_Some_2 tables k Hk) as [t Ht]. now rewrite Ht.
  - now rewrite list_lookup_alter_ne by congruence.
Qed.

Lemma same_structure_refl (tables : list Table) : same_structure tables tables.
Proof. now split. Qed.

Lemma same_structure_trans (a b c : list Table) :
  same_structure a b -> same_structure b c -> same_structure a c.
Proof.
  intros [Hlen Hab] [Hlen' Hbc]. split; [congruence |].
  intros i. destruct (Hab i) as [Hn Hc], (Hbc i) as [Hn' Hc'].
  split; congruence.
Qed.

Lemma same_structure_alter (h : list ForeignKey -> list ForeignKey) (k : nat)
  (tables : list Table) :
  (k < length tables)%nat ->
  same_structure tables
    (alter (fun t => set_ForeignKeys (h (ForeignKeys t)) t) k tables).
Proof.
  intros Hk. split; [apply length_alter |].
  intros i. rewrite table_at_alter by exact Hk. now case_decide; subst.
Qed.

Lemma resolved_same_structure (tableLookup : gmap string nat)
  (a b : list Table) (k : nat) (r : FkRow) :
  same_structure a b -> resolved tableLookup a k r -> resolved tableLookup b k r.
Proof.
  intros [_ Hab] (ref & column & refColumn & HL & Hc & Hr).
  exists ref, column, refColumn. unfold Table_column in *.
  destruct (Hab k) as [_ ->]. destruct (Hab ref) as [_ ->]. now repeat split.
Qed.

Lemma rows_inv_row (tableLookup : gmap string nat) (start : list Table)
  (k : nat) (seen : list FkRow) (st st' : list Table * gmap string nat)
  (r : FkRow) :
  (k < length start)%nat ->
  rows_inv tableLookup start k seen st ->
  foreignKeys_row tableLookup k st r = Ok st' ->
  rows_inv tableLookup start k (seen ++ [r]) st'.
Proof.
  destruct st as [tables lookup].
  intros Hk (Hsame & Hothers & Hseen & keys & Hfks & Hkeys) Hrow.
  cbn [fst snd] in *. unfold foreignKeys_row in Hrow.
  destruct (tableLookup !! refTableName r) as [ref|] eqn:HL; [| discriminate].
  destruct (Table_column (table_at tables k) (columnName r)) as [column|]
    eqn:Hcol; [| discriminate].
  destruct (Table_column (table_at tables ref) (refColumnName r))
    as [refColumn|] eqn:Href; [| discriminate].
  assert (k < length tables)%nat as Hk' by (destruct Hsame as [-> _]; exact Hk).
  assert (resolved tableLookup start k r) as Hres.
  { exists ref, column, refColumn. unfold Table_column in *.
    destruct Hsame as [_ Hs].
    destruct (Hs k) as [_ <-]. destruct (Hs ref) as [_ <-]. now repeat split. }
  assert (forall r', In r' (seen ++ [r]) -> resolved tableLookup start k r')
    as Hseen'.
  { intros r' Hin. apply in_app_or in Hin as [Hin|[<-|[]]]; auto. }
  destruct (by_name_Some _ _ _ Hcol) as [Hc _].
  destruct (by_name_Some _ _ _ Href) as [Hr _].
  destruct (lookup !! constraintName r) as [pos|] eqn:Hpos;
    injection Hrow as <-; unfold rows_inv; cbn [fst snd].
  - destruct (keys_inv_known _ _ _ _ r pos column refColumn Hkeys Hpos Hc Hr)
      as (j & -> & Hkeys').
    set (h := fun fks : list ForeignKey =>
                alter (extend_fk (columnName r) (refColumnName r) column refColumn)
                  (length (ForeignKeys (table_at start k)) + j)%nat fks).
    split; [| split; [| split]].
    + apply (same_structure_trans _ _ _ Hsame), (same_structure_alter h k), Hk'.
    + intros i Hi. rewrite table_at_alter by exact Hk'.
      case_decide; [contradiction | now apply Hothers].
    + exact Hseen'.
    + eexists. split; [| exact Hkeys'].
      rewrite table_at_alter by exact Hk'. case_decide; [| contradiction].
      cbn [set_ForeignKeys ForeignKeys]. rewrite Hfks. apply alter_app_r.
  - pose proof (keys_inv_new _ _ _ _ r ref column refColumn Hkeys Hpos Hc Hr)
      as Hkeys'.
    split; [| split; [| split]].
    + apply (same_structure_trans _ _ _ Hsame).
      apply (same_structure_alter (fun fks => fks ++ [_]) k), Hk'.
    + intros i Hi. rewrite table_at_alter by exact Hk'.
      case_decide; [contradiction | now apply Hothers].
    + exact Hseen'.
    + eexists. split.
      * rewrite table_at_alter by exact Hk'. case_decide; [| contradiction].
        cbn [AddForeignKey set_ForeignKeys ForeignKeys].
        rewrite Hfks, <- app_assoc. reflexivity.
      * rewrite Hfks, length_app. exact Hkeys'.
Qed.

Lemma rows_inv_rows (tableLookup : gmap string nat) (start : list Table)
  (k : nat) (pend : list (result FkRow)) (seen : list FkRow)
  (st st' : list Table * gmap string nat) :
  (k < length start)%nat ->
  rows_inv tableLookup start k seen st ->
  foreignKeys_rows tableLookup k pend st = Ok st' ->
  exists rows, pend = map Ok rows
               /\ rows_inv tableLookup start k (seen ++ rows) st'.
Proof.
  intros Hk. revert seen st.
  induction pend as [|[r|e] pend IH]; intros seen st Hinv Hrun; simpl in Hrun.
  - injection Hrun as <-. exists []. now rewrite app_nil_r.
  - destruct (foreignKeys_row tableLookup k st r) as [st1|] eqn:Hrow;
      [| discriminate].
    destruct (IH _ _ (rows_inv_row _ _ _ _ _ _ _ Hk Hinv Hrow) Hrun)
      as (rows & -> & Hinv').
    exists (r :: rows). split; [reflexivity |].
    now rewrite <- app_assoc in Hinv'.
  - discriminate.
Qed.

Lemma same_structure_sym (a b : list Table) :
  same_structure a b -> same_structure b a.
Proof.
  intros [Hlen Hab]. split; [congruence |].
  intros i. destruct (Hab i) as [Hn Hc]. split; congruence.
Qed.

Lemma foreignKeys_table_described (answer : string -> result (Rows FkRow))
  (tableLookup : gmap string nat) (start tables' : list Table) (k : nat) :
  (k < length start)%nat ->
  foreignKeys_table answer tableLookup start k = Ok tables' ->
  same_structure start tables'
  /\ (forall i, i <> k -> table_at tables' i = table_at start i)
  /\ table_described answer tableLookup start tables' k.
Proof.
  intros Hk Hrun. unfold foreignKeys_table in Hrun.
  destruct (answer (tbl_Name (table_at start k))) as [[pend err]|] eqn:Hanswer;
    [| discriminate].
  cbn [pending rows_err] in Hrun.
  destruct (foreignKeys_rows tableLookup k pend (start, ∅)) as [[tables1 lookup]|]
    eqn:Hrows; [| discriminate].
  destruct err; [discriminate |]. injection Hrun as <-.
  assert (rows_inv tableLookup start k [] (start, ∅)) as Hinit.
  { unfold rows_inv, keys_inv. cbn [fst snd].
    split; [apply same_structure_refl |]. split; [reflexivity |].
    split; [intros r [] |].
    exists []. split; [now rewrite app_nil_r |].
    split; [| split].
    - intros n pos Hn. now rewrite lookup_empty in Hn.
    - intros j fk Hj. now rewrite lookup_nil in Hj.
    - intros r []. }
  destruct (rows_inv_rows tableLookup start k pend [] _ _ Hk Hinit Hrows)
    as (rows & -> & Hsame & Hothers & Hres & keys & Hfks & _ & Hkeys & _).
  cbn [fst snd app] in *.
  split; [exact Hsame |]. split; [exact Hothers |].
  exists rows, keys.
  split; [exact Hanswer |]. split; [exact Hfks |]. split; [exact Hres |].
  intros fk Hin. apply list_elem_of_In, list_elem_of_lookup in Hin as [j Hj].
  destruct (Hkeys j fk Hj) as (_ & Hcols & Hrefs). now split.
Qed.

Lemma table_described_later (answer : string -> result (Rows FkRow))
  (tableLookup : gmap string nat) (tables now later : list Table) (k : nat) :
  table_at later k = table_at now k ->
  table_described answer tableLookup tables now k ->
  table_described answer tableLookup tables later k.
Proof.
  intros Hsame (rows & keys & Hanswer & Hfks & Hres & Hkeys).
  exists rows, keys. now rewrite Hsame.
Qed.

Lemma foreignKeys_tables_described (answer : string -> result (Rows FkRow))
  (tableLookup : gmap string nat) (tables : list Table) (ks : list nat) :
  forall (now tables' : list Table) (done : list nat),
    NoDup ks ->
    (forall k, In k ks -> (k < length tables)%nat /\ ~ In k done) ->
    same_structure tables now ->
    (forall k, ~ In k done -> table_at now k = table_at tables k) ->
    (forall k, In k done -> table_described answer tableLookup tables now k) ->
    foreignKeys_tables answer tableLookup ks now = Ok tables' ->
    forall k, In k done \/ In k ks ->
              table_described answer tableLookup tables tables' k.
Proof.
  induction ks as [|k0 ks IH];
    intros now tables' done Hnd Hks Hsame Hrest Hdone Hrun k Hk; simpl in Hrun.
  - injection Hrun as <-. destruct Hk as [Hk|[]]. now apply Hdone.
  - destruct (foreignKeys_table answer tableLookup now k0) as [now1|] eqn:Htable;
      [| discriminate].
    apply NoDup_cons in Hnd as [Hk0 Hnd].
    destruct (Hks k0 (or_introl eq_refl)) as [Hlen Hfresh].
    assert (k0 < length now)%nat as Hlen' by (destruct Hsame as [-> _]; exact Hlen).
    destruct (foreignKeys_table_described _ _ _ _ _ Hlen' Htable)
      as (Hsame1 & Hothers & rows & keys & Hanswer & Hfks & Hres & Hkeys).
    apply (IH now1 tables' (k0 :: done)); try assumption.
    + intros k' Hin. split; [now apply Hks; right |].
      intros [<-|Hd].
      * apply Hk0, list_elem_of_In, Hin.
      * now apply (Hks k' (or_intror Hin)).
    + now apply (same_structure_trans _ now).
    + intros k' Hout. rewrite Hothers by (intros ->; apply Hout; now left).
      apply Hrest. intros Hd. apply Hout. now right.
    + intros k' [<-|Hd].
      * rewrite (Hrest k0 Hfresh) in Hanswer, Hfks.
        exists rows, keys.
        split; [exact Hanswer |]. split; [exact Hfks |]. split; [| exact Hkeys].
        intros r Hin.
        apply (resolved_same_structure _ now); [| now apply Hres].
        now apply same_structure_sym.
      * apply (table_described_later _ _ _ now); [| now apply Hdone].
        apply Hothers. intros ->. contradiction.
    + destruct Hk as [Hk|[<-|Hk]]; [left; now right | left; now left | now right].
Qed.

Lemma combine_maps {A B C} (f : A -> B) (g : A -> C) (l : list A) :
  combine (map f l) (map g l) = map (fun x => (f x, g x)) l.
Proof. induction l as [|x l IH]; simpl; [reflexivity | now rewrite IH]. Qed.

(** The table that [tableLookup] holds for a name is a loaded table of
    that name. *)
Lemma tableLookup_from_Some (tables : list Table) (k : nat)
  (m : gmap string nat) (name : string) (pos : nat) :
  tableLookup_from k tables m !! name = Some pos ->
  m !! name = Some pos
  \/ exists t, tables !! (pos - k)%nat = Some t /\ (k <= pos)%nat
               /\ tbl_Name t = name.
Proof.
  revert k m. induction tables as [|t tables IH]; intros k m Hpos; simpl in Hpos.
  - now left.
  - destruct (IH _ _ Hpos) as [Hm|(t' & Ht' & Hle & Hname)].
    + destruct (decide (tbl_Name t = name)) as [Heq|Hne].
      * rewrite <- Heq, lookup_insert_eq in Hm. injection Hm as <-.
        right. exists t. rewrite Nat.sub_diag. now repeat split.
      * rewrite lookup_insert_ne in Hm by exact Hne. now left.
    + right. exists t'. repeat split; [| lia | exact Hname].
      replace (pos - k)%nat with (S (pos - S k)) by lia. exact Ht'.
Qed.

(** Each lookup that fails ends the row, and the run, with its own
    error. *)
Lemma foreignKeys_row_unresolved (tableLookup : gmap string nat) (k : nat)
  (st : list Table * gmap string nat) (r : FkRow) :
  ~ resolved tableLookup st.1 k r ->
  exists e, foreignKeys_row tableLookup k st r = Err e
            /\ In e ["could not find table: " +:+ refTableName r;
                     "could not find column: " +:+ columnName r
                       +:+ " on table: " +:+ tableName r;
                     "could not find ref column: " +:+ refTableName r
                       +:+ " on ref table: " +:+ refColumnName r].
Proof.
  destruct st as [tables lookup]. cbn [fst]. intros Hnot.
  unfold foreignKeys_row.
  destruct (tableLookup !! refTableName r) as [ref|] eqn:HL;
    [| eexists; split; [reflexivity | simpl; tauto]].
  destruct (Table_column (table_at tables k) (columnName r)) as [column|]
    eqn:Hcol; [| eexists; split; [reflexivity | simpl; tauto]].
  destruct (Table_column (table_at tables ref) (refColumnName r))
    as [refColumn|] eqn:Href; [| eexists; split; [reflexivity | simpl; tauto]].
  elim Hnot. now exists ref, column, refColumn.
Qed.

(** C9, as stated, fails: two rows of one constraint with different local
    columns and the same referenced column give a key with two local
    columns and one referenced column. *)
Lemma foreignKeys_lists_of_unequal_length :
  exists tables fk,
    foreignKeys (orders_rows [("a", "x"); ("b", "x")]) [orders; parts]
    = Ok tables
    /\ ForeignKeys (table_at tables 0) = [fk]
    /\ map Name (fk_Columns fk) = ["a"; "b"]
    /\ map Name (RefColumns fk) = ["x"].
Proof. do 2 eexists. repeat split. Qed.

(** C9, amended: [foreignKeys] succeeds only if every row read for every
    table names a loaded table, a column of the table read and a column of
    the referenced table.  The keys it adds to a table hold the local
    column names of the rows of their constraint, and separately the
    referenced column names, each name once, in the order of its first
    row.  When no local name and no referenced name occurs twice among the
    rows of a constraint, the two lists have the same length and pair up
    position by position as the rows do. *)
Theorem foreignKeys_columns (answer : string -> result (Rows FkRow))
  (tables tables' : list Table) :
  foreignKeys answer tables = Ok tables' ->
  forall k, (k < length tables)%nat ->
    exists rows keys,
      answer (tbl_Name (table_at tables k)) = Ok (mkRows (map Ok rows) None)
      /\ ForeignKeys (table_at tables' k)
         = ForeignKeys (table_at tables k) ++ keys
      /\ (forall r, In r rows ->
            resolved (tableLookup_from 0 tables ∅) tables k r)
      /\ forall fk, In fk keys ->
           map Name (fk_Columns fk) = first_seen (local_names (Symbol fk) rows)
           /\ map Name (RefColumns fk) = first_seen (ref_names (Symbol fk) rows)
           /\ (NoDup (local_names (Symbol fk) rows) ->
               NoDup (ref_names (Symbol fk) rows) ->
               length (fk_Columns fk) = length (RefColumns fk)
               /\ combine (map Name (fk_Columns fk)) (map Name (RefColumns fk))
                  = map (fun r => (columnName r, refColumnName r))
                      (rows_of (Symbol fk) rows)).
Proof.
  intros Hrun k Hk. unfold foreignKeys in Hrun.
  destruct (foreignKeys_tables_described answer
              (tableLookup_from 0 tables ∅) tables (seq 0 (length tables))
              tables tables' [] (NoDup_seq 0 (length tables)))
    with (k := k) as (rows & keys & Hanswer & Hfks & Hres & Hkeys).
  - intros k' Hin. apply in_seq in Hin. split; [lia | intros []].
  - apply same_structure_refl.
  - reflexivity.
  - intros k' [].
  - exact Hrun.
  - right. apply in_seq. lia.
  - exists rows, keys.
    split; [exact Hanswer |]. split; [exact Hfks |]. split; [exact Hres |].
    intros fk Hin. destruct (Hkeys fk Hin) as [Hcols Hrefs].
    split; [exact Hcols |]. split; [exact Hrefs |].
    intros Hl Hr. split.
    + rewrite <- (length_map Name (fk_Columns fk)), Hcols.
      rewrite <- (length_map Name (RefColumns fk)), Hrefs.
      rewrite !first_seen_distinct by assumption.
      unfold local_names, ref_names. now rewrite !length_map.
    + rewrite Hcols, Hrefs, !first_seen_distinct by assumption.
      apply combine_maps.
Qed.

Lemma foreignKeys_columns_witness :
  exists rows keys,
    orders_rows [("a", "x"); ("b", "y")] "orders" = Ok (mkRows (map Ok rows) None)
    /\ ForeignKeys
         (table_at
            [set_ForeignKeys
               [{| Symbol := "fk1"; fk_Columns := [named "a"; named "b"];
                   RefTable := 1; RefColumns := [named "x"; named "y"] |}]
               orders; parts] 0)
       = ForeignKeys (table_at [orders; parts] 0) ++ keys
    /\ (forall r, In r rows ->
          resolved (tableLookup_from 0 [orders; parts] ∅) [orders; parts] 0 r)
    /\ forall fk, In fk keys ->
         map Name (fk_Columns fk) = first_seen (local_names (Symbol fk) rows)
         /\ map Name (RefColumns fk) = first_seen (ref_names (Symbol fk) rows)
         /\ (NoDup (local_names (Symbol fk) rows) ->
             NoDup (ref_names (Symbol fk) rows) ->
             length (fk_Columns fk) = length (RefColumns fk)
             /\ combine (map Name (fk_Columns fk)) (map Name (RefColumns fk))
                = map (fun r => (columnName r, refColumnName r))
                    (rows_of (Symbol fk) rows)).
Proof.
  apply (foreignKeys_columns (orders_rows [("a", "x"); ("b", "y")])
           [orders; parts]
           [set_ForeignKeys
              [{| Symbol := "fk1"; fk_Columns := [named "a"; named "b"];
                  RefTable := 1; RefColumns := [named "x"; named "y"] |}]
              orders; parts]
           eq_refl 0%nat).
  simpl. lia.
Defined.

(** * Further properties of the driver *)

(** ** More on byte strings *)

Lemma HasSuffix_prepend (p s t : string) :
  strings.HasSuffix s t = true -> strings.HasSuffix (p +:+ s) t = true.
Proof.
  intros Hs. destruct (HasSuffix_split _ _ Hs) as (u & ->).
  rewrite <- append_assoc. apply HasSuffix_append.
Qed.

Lemma TrimSuffix_append (s t : string) : strings.TrimSuffix (s +:+ t) t = s.
Proof.
  unfold strings.TrimSuffix. rewrite HasSuffix_append, length_append.
  replace (String.length s + String.length t - String.length t)%nat
    with (String.length s) by lia.
  apply take_append.
Qed.

(** ** Renaming an index *)

Lemma set_idx_Name_fields (v : string) (i : Index) :
  idx_Name (set_idx_Name v i) = v
  /\ idx_realname (set_idx_Name v i) = idx_realname i
  /\ idx_Unique (set_idx_Name v i) = idx_Unique i
  /\ idx_Columns (set_idx_Name v i) = idx_Columns i
  /\ idx_columns (set_idx_Name v i) = idx_columns i
  /\ idx_primary (set_idx_Name v i) = idx_primary i.
Proof. now destruct i. Qed.

Lemma renameIndex_renamed_to (t : Table) (old new : Index) :
  renameIndex t old new
  = (set_idx_Name (renamed_to t old (idx_Name new)) new,
     (idx_realname old, renamed_to t old (idx_Name new))).
Proof.
  unfold renameIndex, renamed_to. cbv zeta. destruct new as [n u cs cols pr rn].
  cbn [idx_Name].
  destruct (strings.HasSuffix (idx_Name old) "_key" && negb (strings.HasSuffix n "_key"));
    unfold set_idx_Name;
    cbn [idx_Name idx_realname idx_Unique idx_Columns idx_columns idx_primary];
    match goal with
    | |- context [strings.HasPrefix (idx_realname old) ?p && negb ?b] =>
        destruct (strings.HasPrefix (idx_realname old) p && negb b)
    end; reflexivity.
Qed.

Lemma renamed_to_suffix (t : Table) (old : Index) (name : string) :
  strings.HasSuffix (idx_Name old) "_key" = true ->
  strings.HasSuffix (renamed_to t old name) "_key" = true.
Proof.
  intros Hso. unfold renamed_to. rewrite Hso. cbn [andb].
  set (name1 := if negb (strings.HasSuffix name "_key") then _ else _).
  assert (strings.HasSuffix name1 "_key" = true) as H1.
  { subst name1. destruct (strings.HasSuffix name "_key") eqn:Hsn;
      cbn [negb]; [exact Hsn | apply HasSuffix_append]. }
  destruct (_ && _); [now apply HasSuffix_prepend | exact H1].
Qed.

Lemma renamed_to_prefix (t : Table) (old : Index) (name : string) :
  strings.HasPrefix (idx_realname old) (tbl_Name t +:+ "_") = true ->
  strings.HasPrefix (renamed_to t old name) (tbl_Name t +:+ "_") = true.
Proof.
  intros Hpo. unfold renamed_to. rewrite Hpo. cbn [andb].
  set (name1 := if _ && _ then _ else _).
  destruct (strings.HasPrefix name1 (tbl_Name t +:+ "_")) eqn:Hp1; cbn [negb];
    [exact Hp1 | apply prefix_append].
Qed.

Lemma renamed_to_again (t : Table) (old : Index) (name : string) :
  renamed_to t old (renamed_to t old name) = renamed_to t old name.
Proof.
  unfold renamed_to at 1.
  destruct (strings.HasSuffix (idx_Name old) "_key") eqn:Hso.
  - rewrite (renamed_to_suffix t old name Hso). cbn [andb negb].
    destruct (strings.HasPrefix (idx_realname old) (tbl_Name t +:+ "_")) eqn:Hpo;
      [| reflexivity].
    now rewrite (renamed_to_prefix t old name Hpo).
  - cbn [andb].
    destruct (strings.HasPrefix (idx_realname old) (tbl_Name t +:+ "_")) eqn:Hpo;
      [| reflexivity].
    now rewrite (renamed_to_prefix t old name Hpo).
Qed.

(** X1: [renameIndex] renames from the catalog name of the old index and
    changes nothing of the new index but its name.  The new name ends with
    [_key] if the old name does and starts with the table prefix if the old
    catalog name does; it is left as given if the old index has neither.
    Renaming again with the index so named changes nothing more. *)
Theorem renameIndex_keeps_affixes (t : Table) (old new : Index) :
  let new' := (renameIndex t old new).1 in
  let pfx := tbl_Name t +:+ "_" in
  (renameIndex t old new).2 = (idx_realname old, idx_Name new')
  /\ set_idx_Name (idx_Name new) new' = new
  /\ (strings.HasSuffix (idx_Name old) "_key" = true ->
      strings.HasSuffix (idx_Name new') "_key" = true)
  /\ (strings.HasPrefix (idx_realname old) pfx = true ->
      strings.HasPrefix (idx_Name new') pfx = true)
  /\ (strings.HasSuffix (idx_Name old) "_key" = false ->
      strings.HasPrefix (idx_realname old) pfx = false ->
      new' = new)
  /\ renameIndex t old new' = (new', (idx_realname old, idx_Name new')).
Proof.
  cbv zeta. rewrite renameIndex_renamed_to. cbn [fst snd].
  destruct (set_idx_Name_fields (renamed_to t old (idx_Name new)) new)
    as (Hn & _).
  rewrite Hn. split; [reflexivity |]. split; [now destruct new |].
  split; [apply renamed_to_suffix |]. split; [apply renamed_to_prefix |].
  split.
  - intros Hso Hpo. unfold renamed_to. rewrite Hso, Hpo. now destruct new.
  - rewrite renameIndex_renamed_to, Hn, renamed_to_again. now destruct new.
Qed.

Lemma renameIndex_keeps_affixes_witness :
  (renameIndex (mkTable "users" [] [] [])
     (mkIndex "name_key" true [] ["name"] false "users_name_key")
     (mkIndex "nick" true [named "nick"] [] false EmptyString)).2
  = ("users_name_key", "users_nick_key").
Proof.
  destruct (renameIndex_keeps_affixes (mkTable "users" [] [] [])
              (mkIndex "name_key" true [] ["name"] false "users_name_key")
              (mkIndex "nick" true [named "nick"] [] false EmptyString))
    as (Hstmt & _).
  exact Hstmt.
Defined.

(** ** Dropping an index *)

(** X2: for an index whose name does not start with the table prefix,
    [dropIndex] looks for the name under which [addIndex] creates the
    index.  If the catalog cannot be asked, nothing is run and the error is
    returned; otherwise one statement is run, which drops the constraint of
    that name if there is one and the index of that name if not, and its
    outcome is returned. *)
Theorem dropIndex_of_created `{Declarations} `{QueryBuilder}
  (exist : string -> result bool) (tx : Tx) (idx : Index) (table : string) :
  strings.HasPrefix (idx_Name idx) (table +:+ "_") = false ->
  let name := ib_name (addIndex idx table) in
  dropIndex_name idx table = name
  /\ match exist name with
     | Err err => dropIndex exist tx idx table = (Some err, tx)
     | Ok exists_ =>
         let query := if exists_ then DropConstraint_Query table name
                      else DropIndex_Query name in
         dropIndex exist tx idx table
         = (answer_exec tx query,
            {| executed := executed tx ++ [query];
               answer_exec := answer_exec tx |})
     end.
Proof.
  intros Hprefix. cbv zeta.
  assert (dropIndex_name idx table = ib_name (addIndex idx table)) as Hname.
  { unfold dropIndex_name, addIndex. cbv zeta. rewrite Hprefix.
    destruct (hasUniqueName idx); cbn [negb andb ib_name];
      [reflexivity | apply append_assoc]. }
  split; [exact Hname |].
  unfold dropIndex. cbv zeta. rewrite Hname.
  destruct (exist (ib_name (addIndex idx table))) as [[|]|err]; reflexivity.
Qed.

Lemma dropIndex_of_created_witness :
  executed
    (dropIndex (H := stand_in) (H0 := plain_builder)
       (fun _ => Ok true) fresh_tx
       (mkIndex "name" true [named "name"] [] false EmptyString) "users").2
  = ["ALTER TABLE users DROP CONSTRAINT users_name"].
Proof.
  destruct (dropIndex_of_created (H := stand_in) (H0 := plain_builder)
              (fun _ => Ok true) fresh_tx
              (mkIndex "name" true [named "name"] [] false EmptyString)
              "users" eq_refl) as (_ & Hrun).
  cbv beta iota zeta in Hrun. now rewrite Hrun.
Defined.

(** ** Implicit indexes *)

(** X3: the index that the server creates for a unique column, called
    [<column>_key], is recognised by [isImplicitIndex]; no index is implicit
    for a column that is not unique.  An implicit index on that one column
    has no unique name, so that [addIndex] would create it under the table
    prefix. *)
Theorem isImplicitIndex_of_unique_column `{Declarations} (idx : Index)
  (col : Column) (table : string) :
  (Unique col = true -> idx_Name idx = Name col +:+ "_key" ->
   isImplicitIndex idx col = true)
  /\ (Unique col = false -> isImplicitIndex idx col = false)
  /\ (isImplicitIndex idx col = true -> columnNames idx = [Name col] ->
      hasUniqueName idx = false
      /\ ib_name (addIndex idx table) = table +:+ "_" +:+ idx_Name idx).
Proof.
  unfold isImplicitIndex. split; [| split].
  - intros -> ->. now rewrite TrimSuffix_append, String.eqb_refl.
  - intros ->. apply andb_false_r.
  - intros Himpl Hcols. apply andb_true_iff in Himpl as [Hname _].
    apply String.eqb_eq in Hname.
    assert (hasUniqueName idx = false) as Hu.
    { apply hasUniqueName_false_iff. now rewrite Hcols, Hname. }
    split; [exact Hu |]. unfold addIndex. now rewrite Hu.
Qed.

Lemma isImplicitIndex_of_unique_column_witness :
  isImplicitIndex (mkIndex "email_key" true [] ["email"] false "email_key")
    (mkColumn "email" field.TypeString EmptyString 0 false true None None)
  = true.
Proof.
  apply (isImplicitIndex_of_unique_column (H := stand_in)
           (mkIndex "email_key" true [] ["email"] false "email_key")
           (mkColumn "email" field.TypeString EmptyString 0 false true None None)
           "users"); reflexivity.
Defined.

(** ** Array types and conversions *)

Lemma LastIndexByte_absent (s : string) (c : ascii) :
  all_chars (other_than c) s = true -> strings.LastIndexByte s c = -1.
Proof.
  induction s as [|a s IH]; [reflexivity |].
  cbn [all_chars strings.LastIndexByte]. intros Hs.
  apply andb_true_iff in Hs as [Ha Hs]. rewrite (IH Hs).
  unfold other_than in Ha. apply negb_true_iff in Ha. now rewrite Ha.
Qed.

Lemma LastIndexByte_app (u v : string) (c : ascii) :
  strings.LastIndexByte (u +:+ v) c
  = if 0 <=? strings.LastIndexByte v c
    then strings.len u + strings.LastIndexByte v c
    else strings.LastIndexByte u c.
Proof.
  unfold strings.len. induction u as [|a u IH].
  - rewrite append_nil. simpl.
    pose proof (LastIndexByte_nonneg v c).
    destruct (Z.leb_spec 0 (strings.LastIndexByte v c)); lia.
  - rewrite append_cons. cbn [strings.LastIndexByte String.length]. rewrite IH.
    pose proof (LastIndexByte_nonneg u c) as Hu. unfold strings.len in Hu.
    destruct (Z.leb_spec 0 (strings.LastIndexByte v c)).
    + destruct (Z.leb_spec 0 (Z.of_nat (String.length u)
                              + strings.LastIndexByte v c)); lia.
    + reflexivity.
Qed.

Lemma LastIndexByte_first (v : string) (c : ascii) :
  0 <= strings.LastIndexByte (String c v) c.
Proof.
  cbn [strings.LastIndexByte]. rewrite Ascii.eqb_refl.
  destruct (Z.leb_spec 0 (strings.LastIndexByte v c)); lia.
Qed.

Lemma LastIndexByte_at (u v : string) (c : ascii) :
  all_chars (other_than c) v = true ->
  strings.LastIndexByte (u +:+ String c v) c = strings.len u.
Proof.
  intros Hv. rewrite LastIndexByte_app.
  cbn [strings.LastIndexByte]. rewrite (LastIndexByte_absent v c Hv).
  rewrite Ascii.eqb_refl. simpl. lia.
Qed.

Lemma all_chars_app (P : ascii -> bool) (u v : string) :
  all_chars P (u +:+ v) = all_chars P u && all_chars P v.
Proof.
  induction u as [|a u IH]; [reflexivity |].
  rewrite append_cons. cbn [all_chars]. rewrite IH. apply andb_assoc.
Qed.

Lemma runes_digits `{Unicode} (x : string) :
  all_chars is_ascii x = true ->
  forallb IsDigit (runes x) = all_digits x.
Proof.
  induction x as [|a x IH]; intros Hx.
  - now rewrite runes_nil.
  - cbn [all_chars] in Hx. apply andb_true_iff in Hx as [Ha Hx].
    unfold is_ascii in Ha. apply Z.ltb_lt in Ha.
    rewrite (runes_ascii a x Ha). cbn [forallb all_digits].
    rewrite (IH Hx), IsDigit_ascii by lia.
    unfold is_digit, digit_value. cbv zeta.
    now destruct ((48 <=? Z.of_N (N_of_ascii a))
                  && (Z.of_N (N_of_ascii a) <=? 57)).
Qed.

Lemma slice_middle (u x v : string) :
  strings.slice (u +:+ x +:+ v) (strings.len u)
    (strings.len u + strings.len x) = x.
Proof.
  unfold strings.slice, strings.len.
  replace (Z.of_nat (String.length u) + Z.of_nat (String.length x)
           - Z.of_nat (String.length u)) with (Z.of_nat (String.length x))
    by lia.
  rewrite !Nat2Z.id, drop_append. apply take_append.
Qed.

Lemma arrayType_bracketed `{Unicode} (elem x : string) :
  all_chars is_ascii x = true ->
  all_chars (other_than "[") x = true ->
  arrayType (elem +:+ "[" +:+ x +:+ "]") = Returned (all_digits x).
Proof.
  intros Hascii Hx. unfold arrayType. cbv zeta.
  assert (strings.LastIndexByte (elem +:+ "[" +:+ x +:+ "]") "["
          = strings.len elem) as Hi.
  { change ("[" +:+ x +:+ "]") with (String "[" (x +:+ "]")).
    apply LastIndexByte_at. now rewrite all_chars_app, Hx. }
  assert (strings.LastIndexByte (elem +:+ "[" +:+ x +:+ "]") "]"
          = strings.len elem + 1 + strings.len x) as Hj.
  { replace (elem +:+ "[" +:+ x +:+ "]") with ((elem +:+ "[" +:+ x) +:+ "]")
      by now rewrite !append_assoc.
    rewrite LastIndexByte_append. unfold strings.len.
    rewrite !length_append. simpl String.length. lia. }
  rewrite Hi, Hj.
  assert (0 <= strings.len elem /\ 0 <= strings.len x) as [He Hlx]
      by (unfold strings.len; lia).
  destruct (Z.eqb_spec (strings.len elem) (-1)); [lia |].
  destruct (Z.eqb_spec (strings.len elem + 1 + strings.len x) (-1)); [lia |].
  destruct (Z.ltb_spec (strings.len elem + 1 + strings.len x)
              (strings.len elem + 1)); [lia |].
  cbn [orb]. f_equal.
  replace (elem +:+ "[" +:+ x +:+ "]") with ((elem +:+ "[") +:+ x +:+ "]")
    by now rewrite !append_assoc.
  replace (strings.len elem + 1) with (strings.len (elem +:+ "["))
    by (unfold strings.len; rewrite length_append; simpl String.length; lia).
  rewrite slice_middle. now apply runes_digits.
Qed.

(** X4: [arrayType] is false for a name without an opening or without a
    closing bracket.  For a name that ends with a bracketed ASCII text it
    tells whether that text is made of digits only (none included).  For a
    name whose last opening bracket comes after its last closing bracket it
    panics. *)
Theorem arrayType_brackets `{Unicode} :
  (forall t,
      all_chars (other_than "[") t = true
      \/ all_chars (other_than "]") t = true ->
      arrayType t = Returned false)
  /\ (forall elem x,
        all_chars is_ascii x = true ->
        all_chars (other_than "[") x = true ->
        arrayType (elem +:+ "[" +:+ x +:+ "]") = Returned (all_digits x))
  /\ (forall a b c,
        all_chars (other_than "[") c = true ->
        all_chars (other_than "]") c = true ->
        exists msg, arrayType (a +:+ "]" +:+ b +:+ "[" +:+ c) = Panicked msg).
Proof.
  split; [| split].
  - intros t [Hno|Hno]; unfold arrayType; cbv zeta;
      rewrite (LastIndexByte_absent _ _ Hno); simpl; [reflexivity |].
    now rewrite orb_true_r.
  - intros elem x. apply arrayType_bracketed.
  - intros a b c Hc1 Hc2. unfold arrayType. cbv zeta.
    set (p := a +:+ "]" +:+ b).
    replace (a +:+ "]" +:+ b +:+ "[" +:+ c) with (p +:+ String "[" c)
      by (subst p; now rewrite !append_assoc).
    rewrite (LastIndexByte_at p c "[" Hc1).
    rewrite (LastIndexByte_app p (String "[" c) "]").
    cbn [strings.LastIndexByte]. rewrite (LastIndexByte_absent c "]" Hc2).
    change (Ascii.eqb "[" "]") with false. cbn [Z.leb Z.compare].
    cbv iota.
    pose proof (LastIndexByte_nonneg p "]") as Hp.
    assert (0 <= strings.LastIndexByte p "]") as Hfound.
    { subst p. change ("]" +:+ b) with (String "]" b).
      rewrite LastIndexByte_app.
      pose proof (LastIndexByte_first b "]").
      destruct (Z.leb_spec 0 (strings.LastIndexByte (String "]" b) "]"));
        unfold strings.len; lia. }
    assert (0 <= strings.len p) by (unfold strings.len; lia).
    destruct (Z.eqb_spec (strings.len p) (-1)); [lia |].
    destruct (Z.eqb_spec (strings.LastIndexByte p "]") (-1)); [lia |].
    destruct (Z.ltb_spec (strings.LastIndexByte p "]") (strings.len p + 1));
      [| lia].
    cbn [orb]. eauto.
Qed.

Lemma arrayType_brackets_witness :
  arrayType (H := bytewise) "text" = Returned false
  /\ arrayType (H := bytewise) ("varchar" +:+ "[" +:+ "16" +:+ "]")
     = Returned true
  /\ exists msg, arrayType (H := bytewise)
                   ("a" +:+ "]" +:+ "b" +:+ "[" +:+ "c") = Panicked msg.
Proof.
  destruct (arrayType_brackets (H := bytewise)) as (Hnone & Hlast & Hpanic).
  split; [| split].
  - apply Hnone. now left.
  - apply (Hlast "varchar" "16"); reflexivity.
  - apply Hpanic; reflexivity.
Defined.

Lemma bracketed_not_ARRAY (elem x : string) :
  elem +:+ "[" +:+ x +:+ "]" <> "ARRAY".
Proof.
  intros Heq.
  assert (strings.HasSuffix "ARRAY" "]" = true) as Hs.
  { rewrite <- Heq.
    replace (elem +:+ "[" +:+ x +:+ "]") with ((elem +:+ "[" +:+ x) +:+ "]")
      by now rewrite !append_assoc.
    apply HasSuffix_append. }
  discriminate Hs.
Qed.

(** X5: two columns of the same native type never need a conversion.
    Columns of different native types do, unless the old type is [ARRAY]:
    then the column needs a conversion exactly when [arrayType] does not
    hold of the new type, and [needsConversion] panics when [arrayType]
    does.  For a new type that ends with a bracketed ASCII text, that is
    exactly when the text is not made of digits only. *)
Theorem needsConversion_cases `{Declarations} `{Unicode} (old new : Column)
  (oldT newT : string) :
  cType old = Returned oldT -> cType new = Returned newT ->
  (oldT = newT -> needsConversion old new = Returned false)
  /\ (oldT <> newT -> oldT <> "ARRAY" ->
      needsConversion old new = Returned true)
  /\ (forall elem x,
        oldT = "ARRAY" -> newT = elem +:+ "[" +:+ x +:+ "]" ->
        all_chars is_ascii x = true ->
        all_chars (other_than "[") x = true ->
        needsConversion old new = Returned (negb (all_digits x)))
  /\ (oldT = "ARRAY" -> newT <> "ARRAY" ->
      needsConversion old new
      = match arrayType newT with
        | Returned b => Returned (negb b)
        | Panicked msg => Panicked msg
        end).
Proof.
  intros Hold Hnew. unfold needsConversion. rewrite Hold, Hnew.
  split; [| split; [| split]].
  - intros ->. now rewrite String.eqb_refl.
  - intros Hne Harray.
    destruct (String.eqb_spec oldT newT); [contradiction |].
    destruct (String.eqb_spec oldT "ARRAY"); [contradiction | reflexivity].
  - intros elem x -> -> Hascii Hx.
    destruct (String.eqb_spec "ARRAY" (elem +:+ "[" +:+ x +:+ "]")) as [Heq|_].
    + symmetry in Heq. now apply bracketed_not_ARRAY in Heq.
    + cbn [negb String.eqb]. change (String.eqb "ARRAY" "ARRAY") with true.
      cbn [negb].
      now rewrite (arrayType_bracketed elem x Hascii Hx).
  - intros -> Hne.
    destruct (String.eqb_spec "ARRAY" newT) as [Heq|_];
      [now elim Hne |].
    reflexivity.
Qed.

Lemma needsConversion_cases_witness :
  needsConversion (H := stand_in) (H0 := bytewise) tags_live tags_target
  = Returned false.
Proof.
  apply (proj1 (proj2 (proj2 (needsConversion_cases (H := stand_in)
                                (H0 := bytewise) tags_live tags_target
                                "ARRAY" "int[]" eq_refl eq_refl)))
           "int" EmptyString);
    reflexivity.
Defined.

(** ** Columns that are read back need no conversion *)

(** The catalog data type, and the native name [cType] gives the column
    that [scanColumn] makes of a row of that data type which has no
    character length. *)
Lemma scanColumn_then_cType `{Declarations} (row : ColumnRow) (dt t : string) :
  In (dt, t)
    [("boolean", "boolean"); ("smallint", "smallint"); ("integer", "int");
     ("bigint", "bigint"); ("bytea", "bytea"); ("jsonb", "jsonb");
     ("uuid", "uuid"); ("text", "text"); ("character varying", "varchar")] ->
  data_type row = dt ->
  ni_Valid (character_maximum_length row) = false ->
  ns_Valid (column_default row) = false ->
  exists live, scanColumn Column_zero (Ok row) = Ok live
               /\ cType live = Returned t.
Proof.
  intros Hin Hdt Hlen Hdefault.
  rewrite (scanColumn_without_default _ _ Hdefault).
  destruct (scanColumn_head_fields Column_zero row) as (Htyp & Hty & Hst).
  assert (Size (scanColumn_head Column_zero row) = 0) as Hsize
      by (unfold scanColumn_head; now destruct (ns_Valid (is_nullable row))).
  set (c0 := scanColumn_head Column_zero row) in *.
  rewrite Hdt in Htyp. cbn [SchemaType Column_zero] in Hst.
  unfold scanColumn_type. cbv zeta. rewrite Htyp, Hlen.
  simpl in Hin.
  repeat (destruct Hin as [Heq|Hin];
          [ injection Heq as <- <-; eval_labels;
            eexists; split; [reflexivity |];
            rewrite cType_no_override
              by (unfold schemaType_Postgres; destruct c0; simpl in *; now subst);
            destruct c0; simpl in *; subst; reflexivity
          | ]).
  contradiction.
Qed.

(** X6: a column of a type whose native name [cType] fixes, created
    without an override, and the column read back from the catalog row of
    its native type need no conversion. *)
Theorem no_conversion_after_create `{Declarations} `{Unicode}
  (catalog : string -> string) (target : Column) :
  catalog_names catalog ->
  SchemaType target = None ->
  In (Type_ target) plainly_named_types ->
  exists t,
    cType target = Returned t
    /\ forall row,
         data_type row = catalog t ->
         ni_Valid (character_maximum_length row) = false ->
         ns_Valid (column_default row) = false ->
         exists live, scanColumn Column_zero (Ok row) = Ok live
                      /\ needsConversion live target = Returned false.
Proof.
  intros (Hint & Hvarchar & Hsame) Hst Hin.
  assert (schemaType_Postgres target = EmptyString) as He
      by (unfold schemaType_Postgres; now rewrite Hst).
  assert (forall t dt,
            cType target = Returned t -> catalog t = dt ->
            In (dt, t)
              [("boolean", "boolean"); ("smallint", "smallint");
               ("integer", "int"); ("bigint", "bigint"); ("bytea", "bytea");
               ("jsonb", "jsonb"); ("uuid", "uuid"); ("text", "text");
               ("character varying", "varchar")] ->
            exists t0,
              cType target = Returned t0
              /\ forall row,
                   data_type row = catalog t0 ->
                   ni_Valid (character_maximum_length row) = false ->
                   ns_Valid (column_default row) = false ->
                   exists live, scanColumn Column_zero (Ok row) = Ok live
                     /\ needsConversion live target = Returned false) as Hall.
  { intros t dt Hct Hcat Hpair. exists t. split; [exact Hct |].
    intros row Hdt Hlen Hdefault. rewrite Hcat in Hdt.
    destruct (scanColumn_then_cType row dt t Hpair Hdt Hlen Hdefault)
      as (live & Hlive & Hcl).
    exists live. split; [exact Hlive |].
    unfold needsConversion. now rewrite Hcl, Hct, String.eqb_refl. }
  pose proof (cType_no_override target He) as Hct.
  unfold plainly_named_types in Hin. simpl in Hin.
  repeat (destruct Hin as [Hty|Hin];
          [ rewrite <- Hty in Hct;
            try match type of Hct with
              | context [Size target >? maxCharSize] =>
                  destruct (Size target >? maxCharSize)
              end;
            (eapply Hall; [exact Hct | | simpl; tauto]);
            first [ exact Hint | exact Hvarchar | apply Hsame; simpl; tauto ]
          | ]).
  contradiction.
Qed.

Lemma no_conversion_after_create_witness :
  exists live,
    scanColumn (H := stand_in) Column_zero
      (Ok (plain_row "age" "smallint")) = Ok live
    /\ needsConversion (H := stand_in) (H0 := bytewise) live
         (set_Type field.TypeUint8 (named "age")) = Returned false.
Proof.
  destruct (no_conversion_after_create (H := stand_in) (H0 := bytewise)
              pg_data_type (set_Type field.TypeUint8 (named "age"))
              pg_data_type_names eq_refl) as (t & Hct & Hrow).
  - simpl. tauto.
  - injection Hct as <-. apply (Hrow (plain_row "age" "smallint")); reflexivity.
Defined.

(** ** The indexes read from the catalog *)

Lemma rows_named_snoc (table short : string) (seen : list IndexRow)
  (r : IndexRow) :
  rows_named table short (seen ++ [r])
  = rows_named table short seen
      ++ (if String.eqb (short_name table r) short then [r] else []).
Proof. unfold rows_named. now rewrite List.filter_app. Qed.

Lemma rows_named_none (table short : string) (seen : list IndexRow) :
  ~ In short (map (short_name table) seen) -> rows_named table short seen = [].
Proof.
  unfold rows_named. induction seen as [|r seen IH]; [reflexivity |].
  simpl. intros Hout.
  destruct (String.eqb_spec (short_name table r) short) as [Heq|_];
    [elim Hout; now left |].
  apply IH. intros Hin. apply Hout. now right.
Qed.

Lemma map_idx_Name_alter (column : string) (k : nat) (idxs : list Index) :
  map idx_Name (alter (add_column column) k idxs) = map idx_Name idxs.
Proof.
  revert k. induction idxs as [|idx idxs IH]; intros [|k];
    [reflexivity | reflexivity | |].
  - change (alter (add_column column) 0%nat (idx :: idxs))
      with (add_column column idx :: idxs).
    now destruct idx.
  - change (alter (add_column column) (S k) (idx :: idxs))
      with (idx :: alter (add_column column) k idxs).
    cbn [map]. now rewrite IH.
Qed.

Lemma index_of_rows_other (table : string) (seen : list IndexRow)
  (r : IndexRow) (idx : Index) :
  short_name table r <> idx_Name idx ->
  index_of_rows table seen idx -> index_of_rows table (seen ++ [r]) idx.
Proof.
  intros Hne Hidx. unfold index_of_rows. rewrite rows_named_snoc.
  destruct (String.eqb_spec (short_name table r) (idx_Name idx));
    [contradiction |].
  now rewrite app_nil_r.
Qed.

Lemma index_of_rows_more (table : string) (seen : list IndexRow)
  (r : IndexRow) (idx : Index) :
  short_name table r = idx_Name idx ->
  index_of_rows table seen idx ->
  index_of_rows table (seen ++ [r]) (add_column (ir_column r) idx).
Proof.
  intros Heq (Hcols & Hnone & r0 & rest & Hrows & Hflags).
  destruct (add_column_fields (ir_column r) idx) as (Hn & Hr & Hc).
  unfold index_of_rows. rewrite Hn, Hc, rows_named_snoc, Heq, String.eqb_refl.
  rewrite map_app, Hcols. split; [reflexivity |]. split; [now destruct idx |].
  exists r0, (rest ++ [r]). rewrite Hrows. split; [reflexivity |].
  destruct idx; exact Hflags.
Qed.

Lemma indexes_grouped_row (table : string) (seen : list IndexRow)
  (st : list Index * gmap string nat) (r : IndexRow) :
  indexes_grouped table seen st ->
  indexes_grouped table (seen ++ [r]) (indexes_row table st r).
Proof.
  destruct st as [idxs names]. unfold indexes_grouped. cbn [fst snd].
  intros (Hnames & Hlookup & Hidx).
  unfold indexes_row. fold (short_name table r).
  rewrite map_app. cbn [map]. rewrite first_seen_snoc, <- Hnames.
  destruct (names !! short_name table r) as [k|] eqn:Hshort.
  - destruct (Hlookup _ _ Hshort) as (idx0 & Hk & Hname0).
    split; [| split]; cbn [fst snd].
    + rewrite map_idx_Name_alter. unfold add_new.
      assert (In (short_name table r) (map idx_Name idxs)) as Hin.
      { rewrite <- Hname0. apply in_map, list_elem_of_In, list_elem_of_lookup.
        now exists k. }
      apply one_of_In in Hin. now rewrite Hin.
    + intros s pos Hs. destruct (Hlookup _ _ Hs) as (idx & Hpos & Hn).
      destruct (lookup_alter_add_column (ir_column r) k pos idxs idx Hpos)
        as (idx' & Hpos' & Hn' & _).
      exists idx'. split; [exact Hpos' | congruence].
    + intros pos idx' Hpos'. rewrite list_lookup_alter in Hpos'.
      case_decide as Hkp.
      * subst pos. rewrite Hk in Hpos'. injection Hpos' as <-.
        destruct (Hidx k idx0 Hk) as (Hl & Hrows).
        destruct (add_column_fields (ir_column r) idx0) as (Hn & _).
        rewrite Hn. split; [exact Hl |].
        now apply index_of_rows_more.
      * destruct (Hidx pos idx' Hpos') as (Hl & Hrows).
        split; [exact Hl |]. apply index_of_rows_other; [| exact Hrows].
        intros Heq. rewrite <- Heq, Hshort in Hl. congruence.
  - rewrite alter_at_end.
    set (idx1 := add_column (ir_column r) _).
    assert (~ In (short_name table r) (map idx_Name idxs)) as Hfresh.
    { intros Hin. apply in_map_iff in Hin as (idx & Hn & Hin).
      apply list_elem_of_In, list_elem_of_lookup in Hin as [pos Hpos].
      destruct (Hidx pos idx Hpos) as (Hl & _). congruence. }
    split; [| split]; cbn [fst snd].
    + rewrite map_app. unfold add_new.
      destruct (one_of (short_name table r) (map idx_Name idxs)) eqn:Hin;
        [apply one_of_In in Hin; contradiction | reflexivity].
    + intros s pos Hs.
      destruct (decide (short_name table r = s)) as [<-|Hne].
      * rewrite lookup_insert_eq in Hs. injection Hs as <-.
        exists idx1. split; [| reflexivity].
        rewrite lookup_app_r by lia. now rewrite Nat.sub_diag.
      * rewrite lookup_insert_ne in Hs by exact Hne.
        destruct (Hlookup _ _ Hs) as (idx & Hpos & Hn).
        exists idx. split; [now apply lookup_app_l_Some | exact Hn].
    + intros pos idx Hpos. apply lookup_app_Some in Hpos as [Hpos|[Hlen Hpos]].
      * destruct (Hidx pos idx Hpos) as (Hl & Hrows).
        assert (short_name table r <> idx_Name idx) as Hne by congruence.
        rewrite lookup_insert_ne by exact Hne.
        split; [exact Hl |]. now apply index_of_rows_other.
      * apply list_lookup_singleton_Some in Hpos as [Hpos <-].
        change (idx_Name idx1) with (short_name table r).
        rewrite lookup_insert_eq. split; [f_equal; lia |].
        unfold index_of_rows.
        change (idx_Name idx1) with (short_name table r).
        rewrite rows_named_snoc, String.eqb_refl.
        rewrite rows_named_none
          by now rewrite <- first_seen_elements, <- Hnames.
        split; [reflexivity |]. split; [reflexivity |].
        exists r, []. now repeat split.
Qed.

Lemma indexes_grouped_rows (table : string) (rows seen : list IndexRow)
  (st : list Index * gmap string nat) :
  indexes_grouped table seen st ->
  indexes_grouped table (seen ++ rows) (fold_left (indexes_row table) rows st).
Proof.
  revert seen st. induction rows as [|r rows IH]; intros seen st Hinv; simpl.
  - now rewrite app_nil_r.
  - replace (seen ++ r :: rows) with ((seen ++ [r]) ++ rows)
      by now rewrite <- app_assoc.
    apply IH, indexes_grouped_row, Hinv.
Qed.

(** The indexes that [indexes] makes of rows that all scan. *)
Lemma indexes_of_scanned_rows (table : string) (rows : list IndexRow) :
  exists idxs,
    indexes (Ok (mkRows (map Ok rows) None)) table = Ok idxs
    /\ map idx_Name idxs = first_seen (map (short_name table) rows)
    /\ forall idx, In idx idxs -> index_of_rows table rows idx.
Proof.
  unfold indexes. cbn [pending rows_err]. rewrite indexes_loop_scanned.
  assert (indexes_grouped table ([] ++ rows)
            (fold_left (indexes_row table) rows ([], ∅))) as Hinv.
  { apply indexes_grouped_rows. split; [reflexivity |]. split; cbn [fst snd].
    - intros s pos Hs. now rewrite lookup_empty in Hs.
    - intros pos idx Hpos. now rewrite lookup_nil in Hpos. }
  destruct (fold_left _ rows _) as [idxs names].
  destruct Hinv as (Hnames & _ & Hidx). cbn [fst snd app] in *.
  exists idxs. split; [reflexivity |]. split; [exact Hnames |].
  intros idx Hin. apply list_elem_of_In, list_elem_of_lookup in Hin as [pos Hpos].
  apply (Hidx pos idx Hpos).
Qed.

(** X7: [indexes] makes one index of each short name among the rows, in
    the order in which the names first occur, so that no two indexes share
    a name; an index holds the columns of all the rows of its name, in
    their order, and has the uniqueness, the primary flag and the catalog
    name of the first of those rows.  No rows give no indexes. *)
Theorem indexes_groups_rows (table : string) (rows : list IndexRow) :
  exists idxs,
    indexes (Ok (mkRows (map Ok rows) None)) table = Ok idxs
    /\ map idx_Name idxs = first_seen (map (short_name table) rows)
    /\ NoDup (map idx_Name idxs)
    /\ (rows = [] -> idxs = [])
    /\ forall idx, In idx idxs ->
         idx_columns idx = map ir_column (rows_named table (idx_Name idx) rows)
         /\ exists r rest,
              rows_named table (idx_Name idx) rows = r :: rest
              /\ idx_Unique idx = ir_unique r
              /\ idx_primary idx = ir_primary r
              /\ idx_realname idx = ir_name r.
Proof.
  destruct (indexes_of_scanned_rows table rows) as (idxs & Hrun & Hnames & Hidx).
  exists idxs. split; [exact Hrun |]. split; [exact Hnames |].
  split; [rewrite Hnames; apply first_seen_NoDup |].
  split.
  - intros ->. simpl in Hnames. now destruct idxs.
  - intros idx Hin. destruct (Hidx idx Hin) as (Hcols & _ & Hfirst).
    now split.
Qed.

Lemma indexes_groups_rows_witness :
  exists idxs,
    indexes (Ok (mkRows (map Ok name_rows) None)) "users" = Ok idxs
    /\ map idx_Name idxs = ["name_age"; "pkey"]
    /\ forall idx, In idx idxs -> idx_Name idx = "name_age" ->
         idx_columns idx = ["name"; "age"].
Proof.
  destruct (indexes_groups_rows "users" name_rows)
    as (idxs & Hrun & Hnames & _ & _ & Hidx).
  exists idxs. split; [exact Hrun |]. split; [exact Hnames |].
  intros idx Hin Hname. destruct (Hidx idx Hin) as (Hcols & _).
  rewrite Hcols, Hname. reflexivity.
Defined.

Lemma indexes_loop_failure (table : string) (pend : list (result IndexRow))
  (st : list Index * gmap string nat) :
  (exists rows, pend = map Ok rows
     /\ indexes_loop table pend st
        = Ok (fold_left (indexes_row table) rows st))
  \/ (exists seen e rest, pend = map Ok seen ++ Err e :: rest
        /\ indexes_loop table pend st
           = Err ("scanning index description: " +:+ e)).
Proof.
  revert st. induction pend as [|[r|e] pend IH]; intros st.
  - left. now exists [].
  - destruct (IH (indexes_row table st r))
      as [(rows & -> & Hrun)|(seen & e & rest & -> & Hrun)].
    + left. now exists (r :: rows).
    + right. now exists (r :: seen), e, rest.
  - right. now exists [], e, pend.
Qed.

(** X8: [indexes] fails in three ways only, and in each of them it fails:
    the query fails, and its error is reported for the table; a row fails
    to scan, and the error of the first such row is reported, whatever
    follows it; or all rows scan and the error with which the result set
    closes is reported as it is.  Otherwise the indexes are returned. *)
Theorem indexes_fails_iff (answer : result (Rows IndexRow)) (table e : string) :
  (indexes answer table = Err e <-> indexes_failure table answer e)
  /\ ((exists idxs, indexes answer table = Ok idxs)
      <-> exists rows, answer = Ok (mkRows (map Ok rows) None)).
Proof.
  assert (forall seen rows (e0 : string) (rest : list (result IndexRow)),
            map Ok rows = map Ok seen ++ Err e0 :: rest -> False) as Hclash.
  { induction seen as [|s seen IH]; intros [|r rows] e0 rest Heq;
      try discriminate. injection Heq as _ Heq. now apply IH in Heq. }
  split; split.
  - destruct answer as [[pend closing]|e0]; unfold indexes; cbn [pending rows_err].
    + destruct (indexes_loop_failure table pend ([], ∅))
        as [(rows & -> & ->)|(seen & e1 & rest & -> & ->)].
      * destruct (fold_left _ rows _) as [idxs names].
        destruct closing as [e1|]; [| discriminate].
        intros [= <-]. constructor.
      * intros [= <-]. constructor.
    + intros [= <-]. constructor.
  - intros [e0|seen e0 rest closing|rows]; unfold indexes;
      cbn [pending rows_err]; [reflexivity | |].
    + destruct (indexes_loop_failure table (map Ok seen ++ Err e0 :: rest)
                  ([], ∅))
        as [(rows & Heq & _)|(seen' & e1 & rest' & Heq & ->)].
      * symmetry in Heq. now apply Hclash in Heq.
      * f_equal. f_equal. clear -Heq. revert seen' Heq.
        induction seen as [|s seen IH]; intros [|s' seen'] Heq;
          try discriminate; injection Heq; [congruence |].
        intros Heq' _. now apply (IH seen').
    + rewrite indexes_loop_scanned.
      now destruct (fold_left _ rows _) as [idxs names].
  - intros [idxs Hrun]. destruct answer as [[pend closing]|e0];
      unfold indexes in Hrun; cbn [pending rows_err] in Hrun; [| discriminate].
    destruct (indexes_loop_failure table pend ([], ∅))
      as [(rows & -> & Hloop)|(seen & e1 & rest & -> & Hloop)];
      rewrite Hloop in Hrun; [| discriminate].
    destruct (fold_left _ rows _) as [idxs' names].
    destruct closing; [discriminate |]. now exists rows.
  - intros [rows ->].
    destruct (indexes_of_scanned_rows table rows) as (idxs & Hrun & _).
    now exists idxs.
Qed.

Lemma indexes_fails_iff_witness :
  indexes (Ok (mkRows [Ok (mkIndexRow "users_name" "name" false true 1);
                       Err "bad row"; Err "worse row"] (Some "closed")))
    "users"
  = Err "scanning index description: bad row".
Proof.
  apply (proj1 (indexes_fails_iff _ "users" _)).
  apply (scan_fails "users" [mkIndexRow "users_name" "name" false true 1]).
Defined.

Lemma first_seen_constant (l : list string) (x : string) :
  l <> [] -> (forall y, In y l -> y = x) -> first_seen l = [x].
Proof.
  induction l as [|y l IH] using rev_ind; [congruence |].
  intros _ Hall. rewrite first_seen_snoc.
  rewrite (Hall y) by (apply in_or_app; right; now left).
  destruct l as [|z l]; [reflexivity |].
  rewrite IH; [| discriminate | intros w Hw; apply Hall, in_or_app; now left].
  unfold add_new. simpl. now rewrite String.eqb_refl.
Qed.

Lemma rows_named_all (table short : string) (rows : list IndexRow) :
  (forall r, In r rows -> short_name table r = short) ->
  rows_named table short rows = rows.
Proof.
  unfold rows_named. induction rows as [|r rows IH]; [reflexivity |].
  intros Hall. simpl. rewrite (Hall r) by now left.
  rewrite String.eqb_refl. f_equal. apply IH. intros r' Hin.
  apply Hall. now right.
Qed.

(** C4, amended: introspection strips the prefix [<table>_] from every
    catalog name that starts with it, whatever the columns of the index.
    The rows whose catalog names give one logical name are filed under one
    index of that name, which holds their columns in the order of the rows
    and keeps, as [realname], the catalog name of the first of them: the
    full catalog name of the index when all those rows carry it.  So the
    rows of a live index called [<table>_<logical>] give an index called
    [<logical>] that holds their columns; and the rows of two live indexes
    [<logical>] and [<table>_<logical>] are merged into one index, under
    the catalog name that comes first. *)
Theorem indexes_strips_table_prefix (table : string) (rows : list IndexRow) :
  (exists idxs,
     indexes (Ok (mkRows (map Ok rows) None)) table = Ok idxs
     /\ map idx_Name idxs = first_seen (map (short_name table) rows)
     /\ (forall idx, In idx idxs ->
           idx_Name idx = strings.TrimPrefix (idx_realname idx) (table +:+ "_")
           /\ (exists r, In r rows /\ ir_name r = idx_realname idx)
           /\ idx_columns idx
              = map ir_column (rows_named table (idx_Name idx) rows)
           /\ (exists r rest,
                 rows_named table (idx_Name idx) rows = r :: rest
                 /\ idx_realname idx = ir_name r)
           /\ (forall catalog,
                 (forall r, In r rows ->
                    short_name table r = idx_Name idx -> ir_name r = catalog) ->
                 idx_realname idx = catalog))
     /\ (forall r, In r rows ->
           exists idx, In idx idxs
             /\ idx_Name idx = strings.TrimPrefix (ir_name r) (table +:+ "_")
             /\ In (ir_column r) (idx_columns idx))
     /\ (forall r logical, In r rows ->
           ir_name r = table +:+ "_" +:+ logical ->
           exists idx, In idx idxs /\ idx_Name idx = logical
                       /\ In (ir_column r) (idx_columns idx)))
  /\ (forall logical r1 r2,
        strings.HasPrefix logical (table +:+ "_") = false ->
        ir_name r1 = logical ->
        ir_name r2 = table +:+ "_" +:+ logical ->
        exists idx,
          indexes (Ok (mkRows [Ok r1; Ok r2] None)) table = Ok [idx]
          /\ idx_Name idx = logical
          /\ idx_realname idx = ir_name r1
          /\ idx_columns idx = [ir_column r1; ir_column r2]).
Proof.
  split.
  - destruct (indexes_of_scanned_rows table rows)
      as (idxs & Hrun & Hnames & Hidx).
    exists idxs. split; [exact Hrun |]. split; [exact Hnames |].
    assert (forall r, In r rows ->
              exists idx, In idx idxs
                /\ idx_Name idx = strings.TrimPrefix (ir_name r) (table +:+ "_")
                /\ In (ir_column r) (idx_columns idx)) as Hrows.
    { intros r Hin.
      assert (In (short_name table r) (map idx_Name idxs)) as Hshort
          by (rewrite Hnames; apply first_seen_elements; now apply in_map).
      apply in_map_iff in Hshort as (idx & Hn & Hin').
      exists idx. split; [exact Hin' |]. split; [exact Hn |].
      destruct (Hidx idx Hin') as (-> & _).
      apply in_map. unfold rows_named. apply List.filter_In.
      split; [exact Hin |]. rewrite Hn. apply String.eqb_refl. }
    split; [| split; [exact Hrows |]].
    + intros idx Hin.
      destruct (Hidx idx Hin) as (Hcols & _ & r & rest & Hfirst & _ & _ & Hreal).
      assert (In r rows /\ short_name table r = idx_Name idx) as (Hr & Hshort).
      { assert (In r (rows_named table (idx_Name idx) rows)) as Hr
            by (rewrite Hfirst; now left).
        unfold rows_named in Hr. apply List.filter_In in Hr as [Hr Heq].
        now apply String.eqb_eq in Heq. }
      split; [rewrite <- Hshort, Hreal; reflexivity |].
      split; [exists r; now split |].
      split; [exact Hcols |].
      split; [exists r, rest; now split |].
      intros catalog Hall. rewrite Hreal. now apply Hall.
    + intros r logical Hin Hname.
      destruct (Hrows r Hin) as (idx & Hidxs & Hn & Hc).
      exists idx. repeat split; try assumption.
      now rewrite Hn, Hname, <- append_assoc, TrimPrefix_append.
  - intros logical r1 r2 Hplain H1 H2.
    assert (short_name table r1 = logical) as Hs1.
    { unfold short_name, strings.TrimPrefix. now rewrite H1, Hplain. }
    assert (short_name table r2 = logical) as Hs2.
    { unfold short_name. now rewrite H2, <- append_assoc, TrimPrefix_append. }
    destruct (indexes_of_scanned_rows table [r1; r2])
      as (idxs & Hrun & Hnames & Hidx).
    cbn [map] in Hrun, Hnames. rewrite Hs1, Hs2 in Hnames.
    rewrite (first_seen_constant [logical; logical] logical) in Hnames;
      [| discriminate | intros y [<-|[<-|[]]]; reflexivity].
    destruct idxs as [|idx [|other idxs]]; try discriminate.
    injection Hnames as Hname. exists idx. split; [exact Hrun |].
    split; [exact Hname |].
    destruct (Hidx idx) as (Hcols & _ & r & rest & Hfirst & _ & _ & Hreal);
      [now left |].
    rewrite Hname, rows_named_all in Hcols, Hfirst
      by (intros r' [<-|[<-|[]]]; assumption).
    injection Hfirst as <- _. split; [exact Hreal | exact Hcols].
Qed.

Lemma indexes_strips_table_prefix_witness :
  (exists idxs,
     indexes (Ok (mkRows [Ok (mkIndexRow "users_name" "name" false true 1)]
                    None)) "users" = Ok idxs
     /\ exists idx, In idx idxs /\ idx_Name idx = "name"
                    /\ In "name" (idx_columns idx))
  /\ exists idx,
       indexes (Ok (mkRows [Ok (mkIndexRow "name" "name" false false 1);
                            Ok (mkIndexRow "users_name" "email" false true 1)]
                      None)) "users" = Ok [idx]
       /\ idx_Name idx = "name"
       /\ idx_realname idx = "name"
       /\ idx_columns idx = ["name"; "email"].
Proof.
  split.
  - destruct (proj1 (indexes_strips_table_prefix "users"
                       [mkIndexRow "users_name" "name" false true 1]))
      as (idxs & Hrun & _ & _ & _ & Hlogical).
    exists idxs. split; [exact Hrun |].
    apply (Hlogical (mkIndexRow "users_name" "name" false true 1) "name");
      [now left | reflexivity].
  - apply (proj2 (indexes_strips_table_prefix "users" [])
             "name" (mkIndexRow "name" "name" false false 1)
             (mkIndexRow "users_name" "email" false true 1));
      reflexivity.
Defined.

Section ReadBack.
Context `{Declarations}.

(** X9: an index with columns that [addIndex] created is read back by
    [indexes] as the one index of its rows, with the columns and the
    uniqueness it was created with.  It is read back under its own name
    when [addIndex] prefixed the name with the table; an index that was
    created under its own name loses a prefix of the table's name and an
    underscore, if it has one. *)
Theorem indexes_of_added_index (i : Index) (table : string)
  (rows : list IndexRow) :
  idx_Columns i <> [] ->
  rows_of_created (addIndex i table) rows ->
  exists live,
    indexes (Ok (mkRows (map Ok rows) None)) table = Ok [live]
    /\ idx_Name live
       = (if hasUniqueName i
          then strings.TrimPrefix (idx_Name i) (table +:+ "_")
          else idx_Name i)
    /\ idx_columns live = map Name (idx_Columns i)
    /\ idx_Unique live = idx_Unique i
    /\ idx_primary live = false
    /\ idx_realname live = ib_name (addIndex i table).
Proof.
  intros Hcols (Hcolumns & Hrows).
  set (short := if hasUniqueName i
                then strings.TrimPrefix (idx_Name i) (table +:+ "_")
                else idx_Name i).
  assert (forall r, In r rows -> short_name table r = short) as Hshort.
  { intros r Hin. destruct (Hrows r Hin) as (Hname & _).
    unfold short_name, short. rewrite Hname. unfold addIndex. cbn [ib_name].
    destruct (hasUniqueName i); cbn [negb]; [reflexivity |].
    now rewrite <- append_assoc, TrimPrefix_append. }
  assert (rows <> []) as Hsome.
  { intros ->. cbn in Hcolumns. destruct (idx_Columns i); [congruence |].
    discriminate. }
  destruct (indexes_of_scanned_rows table rows) as (idxs & Hrun & Hnames & Hidx).
  rewrite (first_seen_constant _ short) in Hnames.
  - destruct idxs as [|live [|other idxs]]; try discriminate.
    injection Hnames as Hname. exists live. split; [exact Hrun |].
    destruct (Hidx live) as (Hc & _ & r & rest & Hfirst & Hu & Hp & Hr);
      [now left |].
    rewrite Hname, rows_named_all in Hc, Hfirst by exact Hshort.
    destruct (Hrows r) as (Hrn & Hru & Hrp); [rewrite Hfirst; now left |].
    split; [exact Hname |]. split; [now rewrite Hc, Hcolumns |].
    split; [now rewrite Hu, Hru |]. split; [now rewrite Hp |].
    now rewrite Hr.
  - destruct rows; [congruence | discriminate].
  - intros y Hy. apply in_map_iff in Hy as (r & <- & Hin). now apply Hshort.
Qed.

End ReadBack.

Lemma indexes_of_added_index_witness :
  exists live,
    indexes (Ok (mkRows [Ok (mkIndexRow "users_email_unique" "email"
                               false true 1)] None)) "users"
    = Ok [live]
    /\ idx_Name live = "email_unique".
Proof.
  destruct (indexes_of_added_index (H := stand_in)
              (mkIndex "users_email_unique" true [named "email"] [] false
                 EmptyString)
              "users" [mkIndexRow "users_email_unique" "email" false true 1])
    as (live & Hrun & Hname & _).
  - discriminate.
  - split; [reflexivity |]. intros r [<-|[]]. now repeat split.
  - exists live. split; [exact Hrun | exact Hname].
Defined.

(** ** Defaults that are read back *)

Lemma hd_split_prefix (sep cur s : string) :
  exists q, cur +:+ s = hd EmptyString (strings.split_from sep 0 cur s) +:+ q.
Proof.
  revert cur. induction s as [|a s IH]; intros cur.
  - now exists EmptyString.
  - cbn [strings.split_from].
    destruct (String.prefix sep (String a s)); [now exists (String a s) |].
    destruct (IH (cur +:+ String a EmptyString)) as [q Hq].
    exists q. rewrite <- Hq, append_assoc. reflexivity.
Qed.

Lemma callExpr_subject_first (b : ascii) (r : string) :
  exists r', callExpr_subject (String b r) = String b r'.
Proof.
  unfold callExpr_subject. cbv zeta.
  destruct (negb _ && _) eqn:Hcut; [| now exists r].
  apply andb_true_iff in Hcut as [_ Hclosed].
  destruct (hd_split_prefix "::" EmptyString (String b r)) as [q Hq].
  rewrite append_nil in Hq. unfold strings.Split.
  destruct (hd EmptyString _) as [|b' h]; [discriminate |].
  rewrite append_cons in Hq. injection Hq as -> _. now exists h.
Qed.

(** A string that starts with a byte other than a letter, an underscore
    and an opening parenthesis is no call. *)
Lemma callExpr_starts (b : ascii) (r : string) :
  isAlpha b false = false -> b <> "("%char -> callExpr (String b r) = false.
Proof.
  intros Hb Hparen. unfold callExpr.
  destruct (callExpr_subject_first b r) as [r' ->]. cbv zeta.
  cbn [strings.IndexByte].
  destruct (Ascii.eqb_spec b "(") as [|_]; [contradiction |].
  pose proof (IndexByte_lower r' "(") as Hlow.
  destruct (Z.ltb_spec (strings.IndexByte r' "(") 0) as [_|Hfound];
    [reflexivity |].
  destruct (_ || _); [reflexivity |].
  unfold strings.slice.
  replace (Z.to_nat (strings.IndexByte r' "(" + 1 - 0))
    with (S (Z.to_nat (strings.IndexByte r' "("))) by lia.
  change (Z.to_nat 0) with 0%nat.
  cbn [strings.drop strings.take alpha_range].
  change (0 >? 0) with false. now rewrite Hb.
Qed.

(** X10: [callExpr] holds of no string that is empty or starts with a byte
    other than a letter, an underscore and an opening parenthesis.  So a
    default that starts with a quote, a digit or a sign is never taken for
    a call: [scanColumn] hands it to [ScanDefault] on every column that is
    not of time type, cut at its first [::] and without the quotes around
    that part if it has a cast, and whole if it has none. *)
Theorem callExpr_first_byte `{Declarations} :
  (forall s, callExpr s = true ->
     exists b r, s = String b r
                 /\ (isAlpha b false = true \/ b = "("%char))
  /\ (forall (c : Column) (b : ascii) (r : string),
        isAlpha b false = false -> b <> "("%char ->
        Type_ c <> field.TypeTime ->
        scanColumn_default c (valid_string (String b r))
        = ScanDefault c (scanned_text (String b r))).
Proof.
  split.
  - intros [|b r] Hcall; [discriminate |].
    exists b, r. split; [reflexivity |].
    destruct (isAlpha b false) eqn:Hb; [now left |]. right.
    destruct (Ascii.eqb_spec b "(") as [|Hparen]; [assumption |].
    now rewrite callExpr_starts in Hcall.
  - intros c b r Hb Hparen Htime. unfold scanColumn_default, scanned_text.
    cbn [ns_Valid ns_String valid_string negb orb].
    rewrite callExpr_starts by assumption.
    rewrite bool_decide_eq_false_2 by exact Htime. cbn [orb].
    now destruct (strings.Contains (String b r) "::").
Qed.

Lemma callExpr_first_byte_witness :
  scanColumn_default (H := stand_in) Column_zero (valid_string "'guest'::text")
  = Ok (set_Default (Some (DString "guest")) Column_zero)
  /\ scanColumn_default (H := stand_in) Column_zero (valid_string "-1")
     = Ok (set_Default (Some (DString "-1")) Column_zero).
Proof.
  split.
  - apply (proj2 (callExpr_first_byte (H := stand_in)) Column_zero "'"%char "guest'::text");
      [reflexivity | discriminate | discriminate].
  - apply (proj2 (callExpr_first_byte (H := stand_in)) Column_zero "-"%char "1");
      [reflexivity | discriminate | discriminate].
Defined.

(** The written literal of a text without [::] ends where its cast
    starts. *)
Lemma Split_written_before_cast (v cur t : string) :
  strings.Contains v "::" = false ->
  hd EmptyString
    (strings.split_from "::" 0 cur (double_quotes v +:+ "'::" +:+ t))
  = cur +:+ double_quotes v +:+ "'".
Proof.
  revert cur. induction v as [|a v IH]; intros cur Hno.
  - change (double_quotes EmptyString +:+ "'::" +:+ t)
      with (String "'" (String ":" (String ":" t))).
    cbn [strings.split_from String.prefix].
    destruct (ascii_dec ":" "'") as [e|_]; [discriminate e |].
    destruct (ascii_dec ":" ":") as [_|ne]; [| now elim ne].
    now rewrite prefix_empty.
  - cbn [strings.Contains] in Hno. apply orb_false_iff in Hno as [Hhere Hno].
    cbn [double_quotes].
    destruct (Ascii.eqb_spec a "'") as [->|Hquote].
    + rewrite !append_cons. cbn [strings.split_from String.prefix].
      destruct (ascii_dec ":" "'") as [e|_]; [discriminate e |].
      rewrite (IH _ Hno), !append_assoc. reflexivity.
    + rewrite append_cons. cbn [strings.split_from].
      assert (String.prefix "::" (String a (double_quotes v +:+ "'::" +:+ t))
              = false) as ->.
      { cbn [String.prefix] in Hhere |- *.
        destruct (ascii_dec ":" a) as [_|_]; [| reflexivity].
        destruct v as [|b v]; [reflexivity |].
        cbn [double_quotes]. cbn [String.prefix] in Hhere.
        destruct (ascii_dec ":" b) as [<-|Hb];
          [now rewrite prefix_empty in Hhere |].
        destruct (Ascii.eqb_spec b "'") as [->|_]; rewrite append_cons;
          cbn [String.prefix].
        - destruct (ascii_dec ":" "'") as [e|_]; [discriminate e | reflexivity].
        - destruct (ascii_dec ":" b) as [e|_]; [contradiction | reflexivity]. }
      rewrite (IH _ Hno), !append_assoc. reflexivity.
Qed.

Lemma HasSuffix_later (a : ascii) (r : string) (c : ascii) :
  r <> EmptyString ->
  strings.HasSuffix (String a r) (String c EmptyString)
  = strings.HasSuffix r (String c EmptyString).
Proof.
  intros Hr. change (String a r) with (String a EmptyString +:+ r).
  now apply HasSuffix_byte_append.
Qed.

Lemma TrimRight_written (v : string) :
  strings.HasSuffix v "'" = false ->
  strings.TrimRight (double_quotes v +:+ "'") "'" = double_quotes v.
Proof.
  induction v as [|a v IH]; [reflexivity |]. intros Hend.
  destruct v as [|b v].
  - cbn [double_quotes]. destruct (Ascii.eqb_spec a "'") as [->|Hquote];
      [discriminate Hend |].
    rewrite append_cons, append_nil. cbn [strings.TrimRight strings.in_cutset].
    change (Ascii.eqb "'" "'") with true. cbn [orb].
    destruct (Ascii.eqb_spec "'" a) as [<-|_]; [now elim Hquote | reflexivity].
  - rewrite HasSuffix_later in Hend by discriminate.
    specialize (IH Hend).
    assert (double_quotes (String b v) <> EmptyString) as Hsome.
    { cbn [double_quotes]. now destruct (Ascii.eqb b "'"). }
    cbn [double_quotes] in *.
    destruct (Ascii.eqb a "'"); rewrite !append_cons;
      cbn [strings.TrimRight]; rewrite IH;
      destruct (if Ascii.eqb b "'" then _ else _); congruence.
Qed.

Lemma Trim_written (v : string) :
  strings.HasPrefix v "'" = false -> strings.HasSuffix v "'" = false ->
  strings.Trim ("'" +:+ double_quotes v +:+ "'") "'" = double_quotes v.
Proof.
  intros Hstart Hend. unfold strings.Trim.
  assert (strings.TrimLeft ("'" +:+ double_quotes v +:+ "'") "'"
          = strings.TrimLeft (double_quotes v +:+ "'") "'") as -> by reflexivity.
  destruct v as [|a v]; [reflexivity |].
  rewrite <- (TrimRight_written (String a v) Hend) at 2. f_equal.
  unfold strings.HasPrefix in Hstart. cbn [String.prefix] in Hstart.
  cbn [double_quotes].
  destruct (Ascii.eqb_spec a "'") as [->|Hquote].
  { destruct (ascii_dec "'" "'") as [_|ne]; [| now elim ne].
    now rewrite prefix_empty in Hstart. }
  rewrite append_cons. cbn [strings.TrimLeft strings.in_cutset orb].
  destruct (Ascii.eqb_spec "'" a) as [<-|_]; [now elim Hquote | reflexivity].
Qed.

Lemma Contains_append (x sub y : string) :
  strings.Contains (x +:+ sub +:+ y) sub = true.
Proof.
  induction x as [|a x IH].
  - rewrite append_nil. destruct (sub +:+ y) eqn:Hs; cbn [strings.Contains];
      rewrite <- Hs, prefix_append; reflexivity.
  - rewrite append_cons. cbn [strings.Contains]. rewrite IH.
    apply orb_true_r.
Qed.

Lemma double_quotes_length (v : string) :
  (String.length v <= String.length (double_quotes v))%nat.
Proof.
  induction v as [|a v IH]; [reflexivity |]. cbn [double_quotes].
  destruct (Ascii.eqb a "'"); simpl; lia.
Qed.

Lemma double_quotes_id (v : string) :
  double_quotes v = v <-> strings.Contains v "'" = false.
Proof.
  induction v as [|a v IH]; [now split |].
  cbn [double_quotes strings.Contains String.prefix].
  destruct (Ascii.eqb_spec a "'") as [->|Hquote].
  - destruct (ascii_dec "'" "'") as [_|ne]; [| now elim ne].
    rewrite prefix_empty. split; [| discriminate].
    intros Heq. injection Heq as Heq. apply (f_equal String.length) in Heq.
    pose proof (double_quotes_length v). simpl in Heq. lia.
  - destruct (ascii_dec "'" a) as [e|_]; [now elim Hquote |].
    cbn [orb]. rewrite <- IH. split; [now intros [= ->] | now intros ->].
Qed.

Section DefaultRoundTrip.
Context `{Declarations}.

(** X11: a string default is written as a literal between single quotes
    with its quotes doubled.  When the catalog shows that literal with a
    cast, [scanColumn] hands [ScanDefault] the text between the outer
    quotes as it was written, the quotes still doubled: this is the
    declared text exactly when that has no single quote.  (The text is to
    have no [::] and no quote at either end.) *)
Theorem string_default_read_back (v cast : string) :
  strings.Contains v "::" = false ->
  strings.HasPrefix v "'" = false -> strings.HasSuffix v "'" = false ->
  (forall b c clause,
      Default c = Some (DString v) -> supportDefault c = true ->
      Type_ c <> field.TypeUUID -> Type_ c <> field.TypeTime ->
      field.Numeric (Type_ c) = false ->
      writeDefault b c clause = b ++ [clause +:+ " " +:+ written_literal v])
  /\ (forall c row c1,
        column_default row
        = valid_string (written_literal v +:+ "::" +:+ cast) ->
        scanColumn_type (scanColumn_head c row) row = Ok c1 ->
        Type_ c1 <> field.TypeTime ->
        scanColumn c (Ok row)
        = ScanDefault c1 (strings.ReplaceAll v "'" "''"))
  /\ (strings.ReplaceAll v "'" "''" = v <-> strings.Contains v "'" = false).
Proof.
  intros Hcast Hstart Hend. unfold written_literal.
  rewrite ReplaceAll_single_quote. split; [| split].
  - intros b c clause Hd Hs Hu Ht Hn.
    destruct (writeDefault_literal b c clause Hs) as (Hstring & _).
    now apply Hstring.
  - intros c row c1 Hdefault Htype Htime. unfold scanColumn.
    rewrite Htype, Hdefault. unfold scanColumn_default.
    cbn [ns_Valid ns_String valid_string negb orb].
    rewrite bool_decide_eq_false_2 by exact Htime.
    set (s := ("'" +:+ double_quotes v +:+ "'") +:+ "::" +:+ cast).
    assert (s = String "'" (double_quotes v +:+ "'::" +:+ cast)) as Hs.
    { subst s. rewrite !append_cons, append_nil, !append_assoc. reflexivity. }
    assert (callExpr s = false) as ->
        by (rewrite Hs; apply callExpr_starts; [reflexivity | discriminate]).
    assert (strings.Contains s "::" = true) as -> by apply Contains_append.
    assert (hd EmptyString (strings.Split s "::")
            = "'" +:+ double_quotes v +:+ "'") as ->.
    { rewrite Hs. unfold strings.Split.
      cbn [strings.split_from String.prefix].
      destruct (ascii_dec ":" "'") as [e|_]; [discriminate e |].
      now rewrite (Split_written_before_cast v _ cast Hcast). }
    cbn [orb].
    now rewrite Trim_written.
  - apply double_quotes_id.
Qed.

End DefaultRoundTrip.

Lemma string_default_read_back_witness :
  writeDefault (H := stand_in) []
    (set_Default (Some (DString "guest")) (set_Type field.TypeString (named "role")))
    "DEFAULT"
  = ["DEFAULT 'guest'"]
  /\ scanColumn (H := stand_in) Column_zero (Ok (obrien_row "'guest'::character varying"))
     = Ok (set_Default (Some (DString "guest")) obrien_scanned).
Proof.
  destruct (string_default_read_back (H := stand_in) "guest" "character varying"
              eq_refl eq_refl eq_refl) as (Hwrite & Hread & _).
  split.
  - apply (Hwrite [] _ "DEFAULT"); [reflexivity | reflexivity | | | reflexivity];
      discriminate.
  - apply (Hread Column_zero (obrien_row "'guest'::character varying")
             obrien_scanned); [reflexivity | reflexivity | discriminate].
Defined.

(** ** The errors of [scanColumn] *)

Section ScanErrors.
Context `{Declarations}.

Lemma scanColumn_type_fails (c : Column) (row : ColumnRow) (e : string) :
  scanColumn_type c row = Err e
  <-> ns_Valid (udt_name row) = false
      /\ ((typ c = "ARRAY"
           /\ e = "missing array type for column " +:+ Quote (Name c))
          \/ (In (typ c) ["USER-DEFINED"; "tstzrange"; "interval"]
              /\ e = "missing user defined type for column "
                       +:+ Quote (Name c))).
Proof.
  split.
  - unfold scanColumn_type. cbv zeta.
    destruct (one_of (typ c) ["ARRAY"]) eqn:Harr;
      destruct (one_of (typ c) ["USER-DEFINED"; "tstzrange"; "interval"])
        eqn:Huser;
      destruct (ns_Valid (udt_name row)) eqn:Hudt; cbn [negb];
      repeat match goal with
             | |- context [if ?b then _ else _] => destruct b
             end;
      intros Heq; try discriminate Heq; injection Heq as <-;
      (split; [reflexivity |]);
      match goal with
      | Ha : one_of _ ["ARRAY"] = true |- _ =>
          left; split; [| reflexivity];
          apply one_of_In in Ha; simpl in Ha; intuition congruence
      | Hu : one_of _ ["USER-DEFINED"; "tstzrange"; "interval"] = true |- _ =>
          right; split; [| reflexivity]; now apply one_of_In in Hu
      end.
  - intros (Hudt & [(Ht & ->)|(Hin & ->)]); unfold scanColumn_type; cbv zeta.
    + rewrite Ht. eval_labels. now rewrite Hudt.
    + simpl in Hin. destruct Hin as [Ht|[Ht|[Ht|[]]]]; rewrite <- Ht;
        eval_labels; now rewrite Hudt.
Qed.

Lemma scanColumn_head_Name (c : Column) (row : ColumnRow) :
  Name (scanColumn_head c row) = column_name row.
Proof. unfold scanColumn_head. now destruct (ns_Valid (is_nullable row)). Qed.

(** X12: [scanColumn] fails in four ways only, and in each of them it
    fails: the row does not scan; the data type is [ARRAY], or one of
    [USER-DEFINED], [tstzrange] and [interval], and the row has no
    [udt_name] (the error names the column of the row); or [ScanDefault]
    fails on the default of a column that is not of time type and whose
    default is no call.  A data type that [scanColumn] does not know is no
    error, and neither is any default of a column of time type. *)
Theorem scanColumn_fails_iff (c : Column) (scan : result ColumnRow)
  (e : string) :
  scanColumn c scan = Err e <-> scanColumn_failure c scan e.
Proof.
  split.
  - destruct scan as [row|e0]; unfold scanColumn; [| intros [= <-]; constructor].
    cbv zeta.
    destruct (scanColumn_type (scanColumn_head c row) row) as [typed|e0]
      eqn:Htype.
    + unfold scanColumn_default.
      destruct (ns_Valid (column_default row)) eqn:Hvalid; cbn [negb orb];
        [| discriminate].
      destruct (bool_decide (Type_ typed = field.TypeTime)) eqn:Htime;
        cbn [orb]; [discriminate |].
      destruct (callExpr (ns_String (column_default row))) eqn:Hcall;
        [discriminate |].
      intros Hscan.
      apply (default_fails c row typed e Htype Hvalid);
        [now apply bool_decide_eq_false in Htime | exact Hcall |].
      unfold scanned_text.
      now destruct (strings.Contains (ns_String (column_default row)) "::").
    + intros [= <-]. apply scanColumn_type_fails in Htype.
      destruct (scanColumn_head_fields c row) as (Htyp & _).
      rewrite Htyp, scanColumn_head_Name in Htype.
      destruct Htype as (Hudt & [(Ht & ->)|(Hin & ->)]);
        [now apply array_untyped | now apply user_untyped].
  - intros [e0|row Ht Hudt|row Hin Hudt|row typed e0 Htype Hvalid Htime Hcall Hscan];
      unfold scanColumn; [reflexivity | | |]; cbv zeta.
    + assert (scanColumn_type (scanColumn_head c row) row
              = Err ("missing array type for column "
                       +:+ Quote (column_name row))) as ->; [| reflexivity].
      apply scanColumn_type_fails. split; [exact Hudt |]. left.
      destruct (scanColumn_head_fields c row) as (Htyp & _).
      now rewrite Htyp, scanColumn_head_Name.
    + assert (scanColumn_type (scanColumn_head c row) row
              = Err ("missing user defined type for column "
                       +:+ Quote (column_name row))) as ->; [| reflexivity].
      apply scanColumn_type_fails. split; [exact Hudt |]. right.
      destruct (scanColumn_head_fields c row) as (Htyp & _).
      now rewrite Htyp, scanColumn_head_Name.
    + rewrite Htype. unfold scanColumn_default.
      rewrite Hvalid, Hcall, bool_decide_eq_false_2 by exact Htime.
      cbn [negb orb]. rewrite <- Hscan. unfold scanned_text.
      now destruct (strings.Contains (ns_String (column_default row)) "::").
Qed.

End ScanErrors.

Lemma scanColumn_fails_iff_witness :
  scanColumn (H := stand_in) Column_zero (Ok (plain_row "tags" "ARRAY"))
  = Err ("missing array type for column "
           +:+ double_quote +:+ "tags" +:+ double_quote).
Proof.
  apply (proj2 (scanColumn_fails_iff (H := stand_in) Column_zero
                  (Ok (plain_row "tags" "ARRAY")) _)).
  apply (array_untyped (H := stand_in) Column_zero (plain_row "tags" "ARRAY"));
    reflexivity.
Defined.

(** ** When [foreignKeys] succeeds *)

Lemma rows_inv_start (tableLookup : gmap string nat) (start : list Table)
  (k : nat) :
  rows_inv tableLookup start k [] (start, ∅).
Proof.
  unfold rows_inv, keys_inv. cbn [fst snd].
  split; [apply same_structure_refl |]. split; [reflexivity |].
  split; [intros r [] |].
  exists []. split; [now rewrite app_nil_r |].
  split; [| split].
  - intros n pos Hn. now rewrite lookup_empty in Hn.
  - intros j fk Hj. now rewrite lookup_nil in Hj.
  - intros r [].
Qed.

Lemma foreignKeys_row_resolved (tableLookup : gmap string nat) (k : nat)
  (st : list Table * gmap string nat) (r : FkRow) :
  resolved tableLookup st.1 k r ->
  exists st', foreignKeys_row tableLookup k st r = Ok st'.
Proof.
  destruct st as [tables lookup]. cbn [fst].
  intros (ref & column & refColumn & HL & Hc & Hr).
  unfold foreignKeys_row. rewrite HL, Hc, Hr.
  destruct (lookup !! constraintName r); eexists; reflexivity.
Qed.

Lemma foreignKeys_rows_resolved (tableLookup : gmap string nat)
  (start : list Table) (k : nat) (rows seen : list FkRow)
  (st : list Table * gmap string nat) :
  (k < length start)%nat ->
  rows_inv tableLookup start k seen st ->
  (forall r, In r rows -> resolved tableLookup start k r) ->
  exists st', foreignKeys_rows tableLookup k (map Ok rows) st = Ok st'.
Proof.
  intros Hk. revert seen st.
  induction rows as [|r rows IH]; intros seen st Hinv Hres;
    [now exists st |].
  cbn [map foreignKeys_rows].
  destruct (foreignKeys_row_resolved tableLookup k st r) as [st1 Hrow].
  { apply (resolved_same_structure _ start); [apply Hinv |].
    apply Hres. now left. }
  rewrite Hrow.
  apply (IH (seen ++ [r]) st1).
  - now apply (rows_inv_row _ _ _ _ st).
  - intros r' Hin. apply Hres. now right.
Qed.

Lemma foreignKeys_table_resolved (answer : string -> result (Rows FkRow))
  (tableLookup : gmap string nat) (start : list Table) (k : nat)
  (rows : list FkRow) :
  (k < length start)%nat ->
  answer (tbl_Name (table_at start k)) = Ok (mkRows (map Ok rows) None) ->
  (forall r, In r rows -> resolved tableLookup start k r) ->
  exists tables', foreignKeys_table answer tableLookup start k = Ok tables'.
Proof.
  intros Hk Hanswer Hres. unfold foreignKeys_table. cbv zeta.
  rewrite Hanswer. cbn [pending rows_err].
  destruct (foreignKeys_rows_resolved tableLookup start k rows [] (start, ∅)
              Hk (rows_inv_start _ _ _) Hres) as [[tables' lookup] ->].
  now exists tables'.
Qed.

(** The tables whose rows are all scanned and resolved against [tables]. *)
Lemma foreignKeys_tables_resolved (answer : string -> result (Rows FkRow))
  (tableLookup : gmap string nat) (tables : list Table) (ks : list nat) :
  forall now : list Table,
    same_structure tables now ->
    (forall k, In k ks ->
       (k < length tables)%nat
       /\ exists rows,
            answer (tbl_Name (table_at tables k)) = Ok (mkRows (map Ok rows) None)
            /\ forall r, In r rows -> resolved tableLookup tables k r) ->
    exists tables',
      foreignKeys_tables answer tableLookup ks now = Ok tables'
      /\ same_structure tables tables'.
Proof.
  induction ks as [|k ks IH]; intros now Hsame Hks; [now exists now |].
  cbn [foreignKeys_tables].
  destruct (Hks k (or_introl eq_refl)) as (Hk & rows & Hanswer & Hres).
  assert (k < length now)%nat as Hk' by (destruct Hsame as [-> _]; exact Hk).
  destruct (foreignKeys_table_resolved answer tableLookup now k rows Hk')
    as [now1 Htable].
  - destruct Hsame as [_ Hsame]. destruct (Hsame k) as [-> _]. exact Hanswer.
  - intros r Hin. apply (resolved_same_structure _ tables); auto.
  - rewrite Htable.
    destruct (foreignKeys_table_described _ _ _ _ _ Hk' Htable) as (Hsame1 & _).
    apply IH.
    + now apply (same_structure_trans _ now).
    + intros k' Hin. apply Hks. now right.
Qed.

(** X13: [foreignKeys] succeeds exactly when, for every table, the query
    succeeds, all its rows scan, the result set closes without an error,
    and every row names a loaded table, a column of the table read and a
    column of the referenced table.  It then leaves as many tables as it
    was given, with their names and columns. *)
Theorem foreignKeys_succeeds_iff (answer : string -> result (Rows FkRow))
  (tables : list Table) :
  ((exists tables', foreignKeys answer tables = Ok tables')
   <-> forall k, (k < length tables)%nat ->
         exists rows,
           answer (tbl_Name (table_at tables k)) = Ok (mkRows (map Ok rows) None)
           /\ forall r, In r rows ->
                resolved (tableLookup_from 0 tables ∅) tables k r)
  /\ forall tables', foreignKeys answer tables = Ok tables' ->
       length tables' = length tables
       /\ forall i, tbl_Name (table_at tables' i) = tbl_Name (table_at tables i)
                    /\ Columns (table_at tables' i) = Columns (table_at tables i).
Proof.
  assert (forall k, In k (seq 0 (length tables)) <-> (k < length tables)%nat)
    as Hseq by (intros k; rewrite in_seq; lia).
  split; [split |].
  - intros [tables' Hrun] k Hk. unfold foreignKeys in Hrun.
    destruct (foreignKeys_tables_described answer
                (tableLookup_from 0 tables ∅) tables (seq 0 (length tables))
                tables tables' [] (NoDup_seq 0 (length tables)))
      with (k := k) as (rows & keys & Hanswer & _ & Hres & _).
    + intros k' Hin. apply Hseq in Hin. split; [lia | intros []].
    + apply same_structure_refl.
    + reflexivity.
    + intros k' [].
    + exact Hrun.
    + right. now apply Hseq.
    + now exists rows.
  - intros Hall. unfold foreignKeys.
    destruct (foreignKeys_tables_resolved answer (tableLookup_from 0 tables ∅)
                tables (seq 0 (length tables)) tables
                (same_structure_refl tables)) as (tables' & Hrun & _).
    + intros k Hin. apply Hseq in Hin. split; [exact Hin | now apply Hall].
    + now exists tables'.
  - intros tables' Hrun. unfold foreignKeys in Hrun.
    assert (forall ks now later,
              (forall k, In k ks -> (k < length tables)%nat) ->
              same_structure tables now ->
              foreignKeys_tables answer (tableLookup_from 0 tables ∅) ks now
              = Ok later ->
              same_structure tables later) as Hkeep.
    { induction ks as [|k ks IH]; intros now later Hks Hsame Hlater;
        cbn [foreignKeys_tables] in Hlater; [now injection Hlater as <- |].
      destruct (foreignKeys_table answer _ now k) as [now1|] eqn:Htable;
        [| discriminate].
      apply (IH now1 later); [intros k' Hin; apply Hks; now right | | exact Hlater].
      apply (same_structure_trans _ now); [exact Hsame |].
      apply (foreignKeys_table_described _ _ _ _ _) in Htable as [H1 _];
        [exact H1 |].
      destruct Hsame as [-> _]. apply Hks. now left. }
    apply (Hkeep (seq 0 (length tables)) tables tables');
      [intros k Hin; now apply Hseq | apply same_structure_refl | exact Hrun].
Qed.

Lemma foreignKeys_succeeds_iff_witness :
  exists tables',
    foreignKeys (orders_rows [("a", "x"); ("b", "y")]) [orders; parts]
    = Ok tables'.
Proof.
  apply (proj2 (proj1 (foreignKeys_succeeds_iff
                         (orders_rows [("a", "x"); ("b", "y")])
                         [orders; parts]))).
  intros [|[|k]] Hk; [| | simpl in Hk; lia].
  - exists [mkFkRow "public" "fk1" "orders" "a" "public" "parts" "x";
            mkFkRow "public" "fk1" "orders" "b" "public" "parts" "y"].
    split; [reflexivity |].
    intros r [<-|[<-|[]]]; eexists _, _, _; repeat split; reflexivity.
  - exists []. split; [reflexivity | intros r []].
Defined.

(** ** The keys that [foreignKeys] makes *)

Lemma In_alter {A} (f : A -> A) (j : nat) (l : list A) (x : A) :
  In x (alter f j l) -> In x l \/ exists y, In y l /\ x = f y.
Proof.
  intros Hin. apply list_elem_of_In, list_elem_of_lookup in Hin as [i Hi].
  destruct (decide (j = i)) as [->|Hne].
  - rewrite list_lookup_alter_eq in Hi.
    destruct (l !! i) as [y|] eqn:Hy; [| discriminate].
    injection Hi as <-. right. exists y. split; [| reflexivity].
    apply list_elem_of_In, list_elem_of_lookup. now exists i.
  - rewrite list_lookup_alter_ne in Hi by exact Hne.
    left. apply list_elem_of_In, list_elem_of_lookup. now exists i.
Qed.

Lemma map_alter_invariant {A B} (g : A -> B) (f : A -> A) (j : nat)
  (l : list A) :
  (forall x, g (f x) = g x) -> map g (alter f j l) = map g l.
Proof.
  intros Hg. revert j. induction l as [|x l IH]; intros [|j];
    [reflexivity | reflexivity | |].
  - change (alter f 0%nat (x :: l)) with (f x :: l). cbn [map]. now rewrite Hg.
  - change (alter f (S j) (x :: l)) with (x :: alter f j l). cbn [map].
    now rewrite IH.
Qed.

Lemma keys_of_constraints_row (tableLookup : gmap string nat)
  (start : list Table) (k : nat) (seen : list FkRow)
  (st st' : list Table * gmap string nat) (r : FkRow)
  (keys : list ForeignKey) :
  (k < length start)%nat ->
  rows_inv tableLookup start k seen st ->
  foreignKeys_row tableLookup k st r = Ok st' ->
  ForeignKeys (table_at st.1 k) = ForeignKeys (table_at start k) ++ keys ->
  keys_of_constraints tableLookup seen keys ->
  exists keys',
    ForeignKeys (table_at st'.1 k) = ForeignKeys (table_at start k) ++ keys'
    /\ keys_of_constraints tableLookup (seen ++ [r]) keys'.
Proof.
  destruct st as [tables lookup].
  intros Hk (Hsame & _ & _ & keys0 & Hfks0 & Hlook & Hkeys0 & Hseen) Hrow Hfks
    (Hsyms & Href).
  cbn [fst snd] in *.
  rewrite Hfks in Hfks0. apply app_inv_head in Hfks0. subst keys0.
  assert (k < length tables)%nat as Hk' by (destruct Hsame as [-> _]; exact Hk).
  unfold foreignKeys_row in Hrow.
  destruct (tableLookup !! refTableName r) as [ref|] eqn:HL; [| discriminate].
  destruct (Table_column (table_at tables k) (columnName r)) as [column|];
    [| discriminate].
  destruct (Table_column (table_at tables ref) (refColumnName r))
    as [refColumn|]; [| discriminate].
  assert (forall fk, In fk keys ->
            exists r0 rest,
              rows_of (Symbol fk) (seen ++ [r]) = r0 :: rest
              /\ tableLookup !! refTableName r0 = Some (RefTable fk)) as Hold.
  { intros fk Hin. destruct (Href fk Hin) as (r0 & rest & Hrows & Hl).
    rewrite rows_of_snoc, Hrows. exists r0. eexists.
    split; [reflexivity | exact Hl]. }
  unfold keys_of_constraints.
  rewrite map_app. cbn [map]. rewrite first_seen_snoc, <- Hsyms.
  destruct (lookup !! constraintName r) as [pos|] eqn:Hpos;
    injection Hrow as <-; cbn [fst].
  - destruct (Hlook _ _ Hpos) as (j & fk & -> & Hj & Hsym).
    exists (alter (extend_fk (columnName r) (refColumnName r) column refColumn)
              j keys).
    split; [| split].
    + rewrite table_at_alter by exact Hk'. rewrite decide_True by reflexivity.
      cbn [ForeignKeys set_ForeignKeys]. rewrite Hfks. apply alter_app_r.
    + rewrite map_alter_invariant by reflexivity.
      unfold add_new.
      assert (In (constraintName r) (map Symbol keys)) as Hin.
      { rewrite <- Hsym. apply in_map, list_elem_of_In, list_elem_of_lookup.
        now exists j. }
      apply one_of_In in Hin. now rewrite Hin.
    + intros fk' Hin. apply In_alter in Hin as [Hin|(fk0 & Hin & ->)];
        [now apply Hold |].
      exact (Hold fk0 Hin).
  - set (newFk := {| Symbol := constraintName r; fk_Columns := [column];
                     RefTable := ref; RefColumns := [refColumn] |}).
    exists (keys ++ [newFk]). split; [| split].
    + rewrite table_at_alter by exact Hk'. rewrite decide_True by reflexivity.
      unfold AddForeignKey. cbn [ForeignKeys set_ForeignKeys].
      now rewrite Hfks, <- app_assoc.
    + rewrite map_app. cbn [map]. unfold add_new.
      destruct (one_of (constraintName r) (map Symbol keys)) eqn:Hin;
        [| reflexivity].
      exfalso. apply one_of_In, in_map_iff in Hin as (fk & Hs & Hin).
      apply list_elem_of_In, list_elem_of_lookup in Hin as [j Hj].
      destruct (Hkeys0 j fk Hj) as (Hl & _). rewrite Hs in Hl. congruence.
    + intros fk Hin. apply in_app_or in Hin as [Hin|[<-|[]]];
        [now apply Hold |].
      cbn [Symbol RefTable newFk].
      rewrite rows_of_snoc, (rows_of_unseen _ _ lookup Hseen Hpos),
        String.eqb_refl.
      exists r, []. split; [reflexivity | exact HL].
Qed.

Lemma keys_of_constraints_rows (tableLookup : gmap string nat)
  (start : list Table) (k : nat) (rows : list FkRow) :
  (k < length start)%nat ->
  forall (seen : list FkRow) (st st' : list Table * gmap string nat)
         (keys : list ForeignKey),
    rows_inv tableLookup start k seen st ->
    foreignKeys_rows tableLookup k (map Ok rows) st = Ok st' ->
    ForeignKeys (table_at st.1 k) = ForeignKeys (table_at start k) ++ keys ->
    keys_of_constraints tableLookup seen keys ->
    exists keys',
      ForeignKeys (table_at st'.1 k) = ForeignKeys (table_at start k) ++ keys'
      /\ keys_of_constraints tableLookup (seen ++ rows) keys'.
Proof.
  intros Hk. induction rows as [|r rows IH];
    intros seen st st' keys Hinv Hrun Hfks Hkeys; cbn [map foreignKeys_rows] in Hrun.
  - injection Hrun as <-. exists keys. now rewrite app_nil_r.
  - destruct (foreignKeys_row tableLookup k st r) as [st1|] eqn:Hrow;
      [| discriminate].
    destruct (keys_of_constraints_row _ _ _ _ _ _ _ _ Hk Hinv Hrow Hfks Hkeys)
      as (keys1 & Hfks1 & Hkeys1).
    destruct (IH (seen ++ [r]) st1 st' keys1) as (keys' & Hfks' & Hkeys');
      [now apply (rows_inv_row _ _ _ _ st) | exact Hrun | exact Hfks1
      | exact Hkeys1 |].
    exists keys'. now rewrite <- app_assoc in Hkeys'.
Qed.

Lemma foreignKeys_table_constraints (answer : string -> result (Rows FkRow))
  (tableLookup : gmap string nat) (start tables' : list Table) (k : nat) :
  (k < length start)%nat ->
  foreignKeys_table answer tableLookup start k = Ok tables' ->
  exists rows keys,
    answer (tbl_Name (table_at start k)) = Ok (mkRows (map Ok rows) None)
    /\ ForeignKeys (table_at tables' k) = ForeignKeys (table_at start k) ++ keys
    /\ keys_of_constraints tableLookup rows keys.
Proof.
  intros Hk Hrun. unfold foreignKeys_table in Hrun.
  destruct (answer (tbl_Name (table_at start k))) as [[pend err]|] eqn:Hanswer;
    [| discriminate].
  cbn [pending rows_err] in Hrun.
  destruct (foreignKeys_rows tableLookup k pend (start, ∅))
    as [[tables1 lookup]|] eqn:Hrows; [| discriminate].
  destruct err; [discriminate |]. injection Hrun as <-.
  destruct (rows_inv_rows tableLookup start k pend [] _ _ Hk
              (rows_inv_start _ _ _) Hrows) as (rows & -> & _).
  destruct (keys_of_constraints_rows tableLookup start k rows Hk []
              (start, ∅) (tables1, lookup) [] (rows_inv_start _ _ _) Hrows)
    as (keys & Hfks & Hkeys).
  - cbn [fst]. now rewrite app_nil_r.
  - split; [reflexivity | intros fk []].
  - exists rows, keys. cbn [fst] in Hfks.
    split; [reflexivity |]. split; [exact Hfks | exact Hkeys].
Qed.

(** The tables that are not read keep their keys. *)
Lemma foreignKeys_tables_frame (answer : string -> result (Rows FkRow))
  (tableLookup : gmap string nat) (ks : list nat) :
  forall now tables' : list Table,
    (forall k, In k ks -> (k < length now)%nat) ->
    foreignKeys_tables answer tableLookup ks now = Ok tables' ->
    same_structure now tables'
    /\ forall i, ~ In i ks -> table_at tables' i = table_at now i.
Proof.
  induction ks as [|k ks IH]; intros now tables' Hks Hrun;
    cbn [foreignKeys_tables] in Hrun.
  - injection Hrun as <-. split; [apply same_structure_refl | reflexivity].
  - destruct (foreignKeys_table answer tableLookup now k) as [now1|] eqn:Htable;
      [| discriminate].
    destruct (foreignKeys_table_described _ _ _ _ _ (Hks k (or_introl eq_refl))
                Htable) as (Hsame & Hothers & _).
    destruct (IH now1 tables') as (Hsame' & Hframe); [| exact Hrun |].
    + intros k' Hin. destruct Hsame as [-> _]. apply Hks. now right.
    + split; [now apply (same_structure_trans _ now1) |].
      intros i Hout. rewrite Hframe by (intros Hin; apply Hout; now right).
      apply Hothers. intros ->. apply Hout. now left.
Qed.

(** The run of [foreignKeys] on one table: the table is as it was given
    when its rows are read, and is not changed after that. *)
Lemma foreignKeys_tables_isolated (answer : string -> result (Rows FkRow))
  (tableLookup : gmap string nat) (ks : list nat) :
  forall now tables' : list Table,
    NoDup ks ->
    (forall k, In k ks -> (k < length now)%nat) ->
    foreignKeys_tables answer tableLookup ks now = Ok tables' ->
    forall k, In k ks ->
      exists mid mid1,
        same_structure now mid
        /\ table_at mid k = table_at now k
        /\ foreignKeys_table answer tableLookup mid k = Ok mid1
        /\ table_at tables' k = table_at mid1 k.
Proof.
  induction ks as [|k0 ks IH]; intros now tables' Hnd Hks Hrun k Hin;
    [destruct Hin |].
  cbn [foreignKeys_tables] in Hrun.
  destruct (foreignKeys_table answer tableLookup now k0) as [now1|] eqn:Htable;
    [| discriminate].
  apply NoDup_cons in Hnd as [Hk0 Hnd].
  destruct (foreignKeys_table_described _ _ _ _ _ (Hks k0 (or_introl eq_refl))
              Htable) as (Hsame & Hothers & _).
  assert (forall k', In k' ks -> (k' < length now1)%nat) as Hks1.
  { intros k' Hin'. destruct Hsame as [-> _]. apply Hks. now right. }
  destruct (decide (k = k0)) as [->|Hne].
  - exists now, now1. split; [apply same_structure_refl |].
    split; [reflexivity |]. split; [exact Htable |].
    destruct (foreignKeys_tables_frame _ _ _ _ _ Hks1 Hrun) as (_ & Hframe).
    apply Hframe. intros Hin'. apply Hk0. now apply list_elem_of_In.
  - destruct Hin as [->|Hin]; [now elim Hne |].
    destruct (IH now1 tables' Hnd Hks1 Hrun k Hin)
      as (mid & mid1 & Hsame1 & Hmid & Htable1 & Hlast).
    exists mid, mid1. split; [now apply (same_structure_trans _ now1) |].
    split; [| now split]. rewrite Hmid. now apply Hothers.
Qed.

(** X14: when [foreignKeys] succeeds, the keys it adds to a table are one
    key for each constraint name among the rows of the table, in the order
    in which the names first occur; no two of them have the same symbol,
    and a table without rows gets no key.  A key refers to the table that
    the first row of its constraint names. *)
Theorem foreignKeys_one_key_per_constraint
  (answer : string -> result (Rows FkRow)) (tables tables' : list Table) :
  foreignKeys answer tables = Ok tables' ->
  forall k, (k < length tables)%nat ->
    exists rows keys,
      answer (tbl_Name (table_at tables k)) = Ok (mkRows (map Ok rows) None)
      /\ ForeignKeys (table_at tables' k)
         = ForeignKeys (table_at tables k) ++ keys
      /\ map Symbol keys = first_seen (map constraintName rows)
      /\ NoDup (map Symbol keys)
      /\ (rows = [] -> keys = [])
      /\ forall fk, In fk keys ->
           exists r rest,
             rows_of (Symbol fk) rows = r :: rest
             /\ tbl_Name (table_at tables (RefTable fk)) = refTableName r.
Proof.
  intros Hrun k Hk. unfold foreignKeys in Hrun.
  destruct (foreignKeys_tables_isolated answer (tableLookup_from 0 tables ∅)
              (seq 0 (length tables)) tables tables'
              (NoDup_seq 0 (length tables))) with (k := k)
    as (mid & mid1 & Hsame & Hmid & Htable & Hlast);
    [intros k' Hin; apply in_seq in Hin; lia | exact Hrun | apply in_seq; lia |].
  assert (k < length mid)%nat as Hk' by (destruct Hsame as [-> _]; exact Hk).
  destruct (foreignKeys_table_constraints _ _ _ _ _ Hk' Htable)
    as (rows & keys & Hanswer & Hfks & Hsyms & Href).
  rewrite Hmid in Hanswer, Hfks. rewrite <- Hlast in Hfks.
  exists rows, keys. split; [exact Hanswer |]. split; [exact Hfks |].
  split; [exact Hsyms |]. split; [rewrite Hsyms; apply first_seen_NoDup |].
  split.
  - intros ->. simpl in Hsyms. now destruct keys.
  - intros fk Hin. destruct (Href fk Hin) as (r & rest & Hrows & Hl).
    exists r, rest. split; [exact Hrows |].
    apply tableLookup_from_Some in Hl as [Hl|(t & Ht & _ & Hname)];
      [now rewrite lookup_empty in Hl |].
    rewrite Nat.sub_0_r in Ht. unfold table_at.
    now rewrite nth_lookup, Ht.
Qed.

Lemma foreignKeys_one_key_per_constraint_witness :
  exists rows keys,
    orders_rows [("a", "x"); ("b", "y")] "orders" = Ok (mkRows (map Ok rows) None)
    /\ ForeignKeys
         (table_at
            [set_ForeignKeys
               [{| Symbol := "fk1"; fk_Columns := [named "a"; named "b"];
                   RefTable := 1; RefColumns := [named "x"; named "y"] |}]
               orders; parts] 0)
       = ForeignKeys (table_at [orders; parts] 0) ++ keys
    /\ map Symbol keys = first_seen (map constraintName rows).
Proof.
  destruct (foreignKeys_one_key_per_constraint
              (orders_rows [("a", "x"); ("b", "y")]) [orders; parts]
              [set_ForeignKeys
                 [{| Symbol := "fk1"; fk_Columns := [named "a"; named "b"];
                     RefTable := 1; RefColumns := [named "x"; named "y"] |}]
                 orders; parts]
              eq_refl 0%nat) as (rows & keys & Hanswer & Hfks & Hsyms & _).
  - simpl. lia.
  - exists rows, keys. now repeat split.
Defined.

(** ** The errors of [foreignKeys] *)

Lemma foreignKeys_row_fails (tableLookup : gmap string nat) (k : nat)
  (st : list Table * gmap string nat) (r : FkRow) (e : string) :
  foreignKeys_row tableLookup k st r = Err e
  <-> unresolved_row tableLookup st.1 k r e.
Proof.
  destruct st as [tables lookup]. cbn [fst]. unfold foreignKeys_row. split.
  - destruct (tableLookup !! refTableName r) as [ref|] eqn:HL;
      [| intros [= <-]; now constructor].
    destruct (Table_column (table_at tables k) (columnName r)) as [column|]
      eqn:Hc; [| intros [= <-]; now apply (column_missing _ _ _ _ ref)].
    destruct (Table_column (table_at tables ref) (refColumnName r))
      as [refColumn|] eqn:Hr;
      [| intros [= <-]; now apply (ref_column_missing _ _ _ _ ref column)].
    now destruct (lookup !! constraintName r).
  - intros [HL|ref HL Hc|ref column HL Hc Hr]; rewrite HL; [reflexivity | |].
    + now rewrite Hc.
    + now rewrite Hc, Hr.
Qed.

Lemma Table_column_same_structure (a b : list Table) (i : nat) (name : string) :
  same_structure a b ->
  Table_column (table_at b i) name = Table_column (table_at a i) name.
Proof.
  intros [_ Hab]. unfold Table_column. now destruct (Hab i) as [_ ->].
Qed.

Lemma unresolved_row_same_structure (tableLookup : gmap string nat)
  (a b : list Table) (k : nat) (r : FkRow) (e : string) :
  same_structure a b ->
  unresolved_row tableLookup a k r e -> unresolved_row tableLookup b k r e.
Proof.
  intros Hab [HL|ref HL Hc|ref column HL Hc Hr].
  - now constructor.
  - apply (column_missing _ _ _ _ ref); [exact HL |].
    now rewrite (Table_column_same_structure a b).
  - apply (ref_column_missing _ _ _ _ ref column); [exact HL | |];
      now rewrite (Table_column_same_structure a b).
Qed.

Lemma table_failure_same_structure (tableLookup : gmap string nat)
  (a b : list Table) (k : nat) (ans : result (Rows FkRow)) (e : string) :
  same_structure a b ->
  table_failure tableLookup a k ans e -> table_failure tableLookup b k ans e.
Proof.
  intros Hab [e0|seen e0 rest closing Hres|seen r rest closing e0 Hres Hrow
             |rows e0 Hres].
  - destruct Hab as [_ Hab]. destruct (Hab k) as [<- _]. constructor.
  - constructor. intros r Hin.
    apply (resolved_same_structure _ a); auto.
  - constructor.
    + intros r' Hin. apply (resolved_same_structure _ a); auto.
    + now apply (unresolved_row_same_structure _ a).
  - constructor. intros r Hin.
    apply (resolved_same_structure _ a); auto.
Qed.

(** Where the rows of a table stop being read. *)
Lemma foreignKeys_rows_failure (tableLookup : gmap string nat)
  (start : list Table) (k : nat) (pend : list (result FkRow)) (e : string) :
  (k < length start)%nat ->
  forall (seen : list FkRow) (st : list Table * gmap string nat),
    rows_inv tableLookup start k seen st ->
    foreignKeys_rows tableLookup k pend st = Err e ->
    exists rows rest,
      (forall r, In r rows -> resolved tableLookup start k r)
      /\ ((exists e0, pend = map Ok rows ++ Err e0 :: rest
                      /\ e = "scanning index description: " +:+ e0)
          \/ (exists r, pend = map Ok rows ++ Ok r :: rest
                        /\ unresolved_row tableLookup start k r e)).
Proof.
  intros Hk. induction pend as [|[r|e0] pend IH]; intros seen st Hinv Hrun;
    cbn [foreignKeys_rows] in Hrun; [discriminate | |].
  - destruct (foreignKeys_row tableLookup k st r) as [st1|e1] eqn:Hrow.
    + pose proof (rows_inv_row _ _ _ _ _ _ _ Hk Hinv Hrow) as Hinv1.
      destruct (IH _ _ Hinv1 Hrun) as (rows & rest & Hres & Hstop).
      exists (r :: rows), rest. split.
      * intros r' [<-|Hin]; [| now apply Hres].
        destruct Hinv1 as (_ & _ & Hseen & _). apply Hseen.
        apply in_or_app. right. now left.
      * destruct Hstop as [(e0 & -> & ->)|(r' & -> & Hrow')];
          [left; now exists e0 | right; now exists r'].
    + injection Hrun as <-. exists [], pend. split; [intros r' [] |].
      right. exists r. split; [reflexivity |].
      apply foreignKeys_row_fails in Hrow.
      apply (unresolved_row_same_structure _ st.1); [| exact Hrow].
      apply same_structure_sym, Hinv.
  - injection Hrun as <-. exists [], pend. split; [intros r' [] |].
    left. now exists e0.
Qed.

Lemma foreignKeys_rows_app (tableLookup : gmap string nat) (k : nat)
  (rows : list FkRow) (rest : list (result FkRow))
  (st st1 : list Table * gmap string nat) :
  foreignKeys_rows tableLookup k (map Ok rows) st = Ok st1 ->
  foreignKeys_rows tableLookup k (map Ok rows ++ rest) st
  = foreignKeys_rows tableLookup k rest st1.
Proof.
  revert st. induction rows as [|r rows IH]; intros st Hrun;
    cbn [map app foreignKeys_rows] in *; [now injection Hrun as -> |].
  destruct (foreignKeys_row tableLookup k st r); [now apply IH | discriminate].
Qed.

Lemma foreignKeys_table_fails (answer : string -> result (Rows FkRow))
  (tableLookup : gmap string nat) (start : list Table) (k : nat) (e : string) :
  (k < length start)%nat ->
  foreignKeys_table answer tableLookup start k = Err e
  <-> table_failure tableLookup start k (answer (tbl_Name (table_at start k))) e.
Proof.
  intros Hk. unfold foreignKeys_table. cbv zeta.
  destruct (answer (tbl_Name (table_at start k))) as [[pend closing]|e0].
  - cbn [pending rows_err]. split.
    + destruct (foreignKeys_rows tableLookup k pend (start, ∅))
        as [[tables1 lookup]|e1] eqn:Hrows.
      * destruct closing as [e1|]; [| discriminate]. intros [= <-].
        destruct (rows_inv_rows tableLookup start k pend [] _ _ Hk
                    (rows_inv_start _ _ _) Hrows)
          as (rows & -> & _ & _ & Hres & _).
        now constructor.
      * intros [= <-].
        destruct (foreignKeys_rows_failure tableLookup start k pend e1 Hk []
                    (start, ∅) (rows_inv_start _ _ _) Hrows)
          as (rows & rest & Hres & [(e0 & -> & ->)|(r & -> & Hrow)]);
          now constructor.
    + intros Hfail.
      inversion Hfail as [|seen e0 rest closing' Hres
                          |seen r rest closing' e0 Hres Hrow|rows e0 Hres];
        subst.
      * destruct (foreignKeys_rows_resolved tableLookup start k seen []
                    (start, ∅) Hk (rows_inv_start _ _ _) Hres) as [st1 Hrun].
        now rewrite (foreignKeys_rows_app _ _ _ _ _ _ Hrun).
      * destruct (foreignKeys_rows_resolved tableLookup start k seen []
                    (start, ∅) Hk (rows_inv_start _ _ _) Hres) as [st1 Hrun].
        rewrite (foreignKeys_rows_app _ _ _ _ _ _ Hrun).
        cbn [foreignKeys_rows].
        destruct (rows_inv_rows tableLookup start k (map Ok seen) [] _ _ Hk
                    (rows_inv_start _ _ _) Hrun) as (rows' & _ & Hsame & _).
        apply (unresolved_row_same_structure _ _ st1.1) in Hrow;
          [| exact Hsame].
        apply foreignKeys_row_fails in Hrow. now rewrite Hrow.
      * destruct (foreignKeys_rows_resolved tableLookup start k rows []
                    (start, ∅) Hk (rows_inv_start _ _ _) Hres)
          as [[tables1 lookup] ->].
        reflexivity.
  - split; [intros [= <-]; constructor |].
    intros Hfail. inversion Hfail; subst. reflexivity.
Qed.

(** Where the tables stop being read. *)
Lemma foreignKeys_tables_failure (answer : string -> result (Rows FkRow))
  (tableLookup : gmap string nat) (ks : list nat) (e : string) :
  forall now : list Table,
    foreignKeys_tables answer tableLookup ks now = Err e
    <-> exists l1 k l2 mid,
          ks = l1 ++ k :: l2
          /\ foreignKeys_tables answer tableLookup l1 now = Ok mid
          /\ foreignKeys_table answer tableLookup mid k = Err e.
Proof.
  induction ks as [|k0 ks IH]; intros now; cbn [foreignKeys_tables].
  - split; [discriminate |]. intros (l1 & k & l2 & mid & Heq & _).
    now destruct l1.
  - split.
    + destruct (foreignKeys_table answer tableLookup now k0) as [now1|e1]
        eqn:Htable.
      * intros Hrun. apply IH in Hrun
          as (l1 & k & l2 & mid & -> & Hfirst & Hfail).
        exists (k0 :: l1), k, l2, mid. split; [reflexivity |].
        cbn [foreignKeys_tables]. now rewrite Htable.
      * intros [= <-]. now exists [], k0, ks, now.
    + intros (l1 & k & l2 & mid & Heq & Hfirst & Hfail).
      destruct l1 as [|k1 l1]; cbn [app] in Heq; injection Heq as <- ->.
      * cbn [foreignKeys_tables] in Hfirst. injection Hfirst as <-.
        now rewrite Hfail.
      * cbn [foreignKeys_tables] in Hfirst.
        destruct (foreignKeys_table answer tableLookup now k0) as [now1|];
          [| discriminate].
        apply IH. now exists l1, k, l2, mid.
Qed.

Lemma seq_split (n k : nat) (l1 l2 : list nat) :
  seq 0 n = l1 ++ k :: l2 ->
  (k < n)%nat /\ l1 = seq 0 k /\ l2 = seq (S k) (n - S k).
Proof.
  intros Heq.
  assert (seq 0 n !! length l1 = Some k) as Hk
      by (rewrite Heq; apply list_lookup_middle; reflexivity).
  apply lookup_seq in Hk as [Hk Hlt]. cbn in Hk. subst k.
  split; [exact Hlt |].
  replace n with (length l1 + S (n - S (length l1)))%nat in Heq at 1 by lia.
  rewrite seq_app in Heq. cbn [seq plus] in Heq.
  apply app_inj_1 in Heq as [H1 H2]; [| now rewrite length_seq].
  split; [now symmetry |]. now injection H2 as <-.
Qed.

(** X15: [foreignKeys] fails exactly when some table is not read without
    an error, and it reports the first such table: the error of its query,
    with the name of the table; the error of its first row that does not
    scan (as [scanning index description]); for its first row that cannot
    be resolved, the missing table, the missing column, or the missing
    referenced column, which is reported with the name of the referenced
    table as the column and the name of the column as the table; or the
    error with which its result set closes.  The rows before the reported
    one are resolved, and so are the tables before the reported one. *)
Theorem foreignKeys_fails_iff (answer : string -> result (Rows FkRow))
  (tables : list Table) (e : string) :
  let tableLookup := tableLookup_from 0 tables ∅ in
  foreignKeys answer tables = Err e
  <-> exists k,
        (k < length tables)%nat
        /\ (forall k', (k' < k)%nat -> table_read answer tableLookup tables k')
        /\ table_failure tableLookup tables k
             (answer (tbl_Name (table_at tables k))) e.
Proof.
  intros tableLookup. unfold foreignKeys. fold tableLookup.
  rewrite foreignKeys_tables_failure. split.
  - intros (l1 & k & l2 & mid & Hks & Hfirst & Hfail).
    apply seq_split in Hks as (Hk & -> & _).
    assert (forall k', In k' (seq 0 k) -> (k' < length tables)%nat) as Hlt
        by (intros k' Hin; apply in_seq in Hin; lia).
    destruct (foreignKeys_tables_frame _ _ _ _ _ Hlt Hfirst) as (Hsame & Hframe).
    assert (k < length mid)%nat as Hk' by (destruct Hsame as [-> _]; exact Hk).
    exists k. split; [exact Hk |]. split.
    + intros k' Hk'k.
      destruct (foreignKeys_tables_described answer tableLookup tables
                  (seq 0 k) tables mid [] (NoDup_seq 0 k)) with (k := k')
        as (rows & keys & Hanswer & _ & Hres & _).
      * intros k0 Hin. split; [now apply Hlt | intros []].
      * apply same_structure_refl.
      * reflexivity.
      * intros k0 [].
      * exact Hfirst.
      * right. apply in_seq. lia.
      * now exists rows.
    + apply (foreignKeys_table_fails _ _ _ _ _ Hk') in Hfail.
      rewrite Hframe in Hfail by (rewrite in_seq; lia).
      apply (table_failure_same_structure _ mid); [| exact Hfail].
      now apply same_structure_sym.
  - intros (k & Hk & Hbefore & Hfail).
    destruct (foreignKeys_tables_resolved answer tableLookup tables (seq 0 k)
                tables (same_structure_refl tables)) as (mid & Hfirst & Hsame).
    { intros k' Hin. apply in_seq in Hin. split; [lia |].
      apply Hbefore. lia. }
    exists (seq 0 k), k, (seq (S k) (length tables - S k)), mid.
    split; [| split; [exact Hfirst |]].
    + replace (length tables) with (k + S (length tables - S k))%nat at 1
        by lia.
      now rewrite seq_app.
    + assert (k < length mid)%nat as Hk' by (destruct Hsame as [-> _]; exact Hk).
      apply (foreignKeys_table_fails _ _ _ _ _ Hk').
      destruct Hsame as [Hlen Hnames]. destruct (Hnames k) as [-> _].
      apply (table_failure_same_structure _ tables); [| exact Hfail].
      now split.
Qed.

Lemma foreignKeys_fails_iff_witness :
  foreignKeys (orders_rows [("a", "x"); ("b", "z")]) [orders; parts]
  = Err "could not find ref column: parts on ref table: z".
Proof.
  apply (proj2 (foreignKeys_fails_iff (orders_rows [("a", "x"); ("b", "z")])
                  [orders; parts] _)).
  exists 0%nat. split; [simpl; lia |]. split; [intros k' Hk'; lia |].
  apply (fk_row_unresolved _ _ _
           [mkFkRow "public" "fk1" "orders" "a" "public" "parts" "x"]
           (mkFkRow "public" "fk1" "orders" "b" "public" "parts" "z") [] None).
  - intros r [<-|[]]. eexists _, _, _. repeat split; reflexivity.
  - exact (ref_column_missing (tableLookup_from 0 [orders; parts] ∅)
             [orders; parts] 0
             (mkFkRow "public" "fk1" "orders" "b" "public" "parts" "z")
             1%nat (named "b") eq_refl eq_refl eq_refl).
Defined.

(** ** The native type of a column that is read back *)

Section ScannedTypes.
Context `{Declarations}.

Lemma cType_of_override (c : Column) (s : string) :
  s <> EmptyString ->
  cType (set_SchemaType (postgres_only s) c) = Returned s.
Proof.
  intros Hs. rewrite cType_override; rewrite schemaType_postgres_only;
    [reflexivity | exact Hs].
Qed.

(** X16: the native type under which a column that [scanColumn] has read
    into a new column is compared.  An array column is [ARRAY], whatever
    its elements, which are kept as the scan type; a column of a
    user-defined type, a [tstzrange] and an [interval] have the type the
    catalog names in [udt_name], and their data type if that name is empty;
    a column of characters with a maximum length [n] is [varchar(n)]; a
    numeric column with a precision is its data type with the precision and
    the scale. *)
Theorem cType_of_scanned (row : ColumnRow) :
  ns_Valid (column_default row) = false ->
  (data_type row = "ARRAY" -> ns_Valid (udt_name row) = true ->
   exists live,
     scanColumn Column_zero (Ok row) = Ok live
     /\ cType live = Returned "ARRAY"
     /\ typ live = ns_String (udt_name row))
  /\ (In (data_type row) ["USER-DEFINED"; "tstzrange"; "interval"] ->
      ns_Valid (udt_name row) = true ->
      exists live,
        scanColumn Column_zero (Ok row) = Ok live
        /\ cType live
           = Returned (if String.eqb (ns_String (udt_name row)) EmptyString
                       then data_type row
                       else ns_String (udt_name row)))
  /\ (In (data_type row) ["character"; "character varying"] ->
      ni_Valid (character_maximum_length row) = true ->
      exists live,
        scanColumn Column_zero (Ok row) = Ok live
        /\ cType live
           = Returned ("varchar("
                         +:+ itoa (ni_Int64 (character_maximum_length row))
                         +:+ ")"))
  /\ (In (data_type row) ["numeric"; "decimal"] ->
      ni_Valid (numeric_precision row) = true ->
      exists live,
        scanColumn Column_zero (Ok row) = Ok live
        /\ cType live
           = Returned (data_type row +:+ "("
                         +:+ itoa (ni_Int64 (numeric_precision row)) +:+ ","
                         +:+ itoa (ni_Int64 (numeric_scale row)) +:+ ")")).
Proof.
  intros Hdefault. rewrite (scanColumn_without_default _ _ Hdefault).
  destruct (scanColumn_head_fields Column_zero row) as (Htyp & Hty & Hst).
  set (c0 := scanColumn_head Column_zero row) in *.
  cbn [SchemaType Column_zero] in Hst.
  unfold scanColumn_type. cbv zeta. rewrite Htyp.
  split; [| split; [| split]].
  - intros -> Hudt. eval_labels. rewrite Hudt. cbn [negb].
    eexists. split; [reflexivity |]. split; [| reflexivity].
    unfold cType. cbn [SchemaType set_typ set_SchemaType set_Type].
    unfold schemaType_Postgres, postgres_only. 
    cbn [SchemaType set_typ set_SchemaType set_Type].
    rewrite lookup_singleton_eq. reflexivity.
  - intros Hin Hudt. simpl in Hin.
    destruct Hin as [Hdt|[Hdt|[Hdt|[]]]]; rewrite <- Hdt; eval_labels;
      rewrite Hudt; cbn [negb]; (eexists; split; [reflexivity |]);
      (destruct (String.eqb_spec (ns_String (udt_name row)) EmptyString)
        as [Hempty|Hsome];
       [ rewrite cType_no_override
           by (rewrite schemaType_postgres_only; exact Hempty);
         cbn [Type_ set_SchemaType set_Type typ]; now rewrite Htyp, <- Hdt
       | now apply cType_of_override ]).
  - intros Hin Hlen. simpl in Hin.
    destruct Hin as [Hdt|[Hdt|[]]]; rewrite <- Hdt; eval_labels;
      rewrite Hlen; (eexists; split; [reflexivity |]);
      apply cType_of_override; rewrite append_cons; discriminate.
  - intros Hin Hprec. simpl in Hin.
    destruct Hin as [Hdt|[Hdt|[]]]; rewrite <- Hdt; eval_labels;
      rewrite Hprec; (eexists; split; [reflexivity |]);
      apply cType_of_override; rewrite append_cons; discriminate.
Qed.

End ScannedTypes.

Lemma cType_of_scanned_witness :
  exists live,
    scanColumn (H := stand_in) Column_zero (Ok tags_row) = Ok live
    /\ cType (H := stand_in) live = Returned "ARRAY"
    /\ typ live = "_int4".
Proof.
  apply (proj1 (cType_of_scanned (H := stand_in) tags_row eq_refl));
    reflexivity.
Defined.

(** ** The table that is loaded *)

Lemma map_lookup_at {A B} (f : A -> B) (l : list A) (i : nat) :
  map f l !! i = option_map f (l !! i).
Proof.
  revert i. induction l as [|x l IH]; intros [|i]; try reflexivity.
  apply IH.
Qed.

Lemma column_pos_Some (name : string) (cs : list KeyedColumn) (p : nat) :
  column_pos name cs = Some p ->
  exists kc, cs !! p = Some kc /\ Name (kc_Column kc) = name.
Proof.
  revert p. induction cs as [|c cs IH]; intros p Hp; [discriminate |].
  cbn [column_pos] in Hp.
  destruct (String.eqb_spec (Name (kc_Column c)) name) as [Heq|_].
  - injection Hp as <-. now exists c.
  - destruct (column_pos name cs) as [q|]; [| discriminate].
    injection Hp as <-. now apply IH.
Qed.

Lemma column_pos_found (name : string) (cs : list KeyedColumn) :
  is_Some (column_pos name cs) <-> In name (col_names cs).
Proof.
  induction cs as [|c cs IH].
  - split; [now intros [p Hp] | intros []].
  - cbn [column_pos col_names map].
    destruct (String.eqb_spec (Name (kc_Column c)) name) as [Heq|Hne].
    + split; [now left | now exists 0%nat].
    + split.
      * intros [p Hp]. right. apply IH.
        destruct (column_pos name cs) as [q|]; [now exists q | discriminate].
      * intros [Heq|Hin]; [contradiction |].
        apply IH in Hin as [q ->]. now exists (S q).
Qed.

Lemma column_pos_names (name : string) (cs cs' : list KeyedColumn) :
  col_names cs = col_names cs' -> column_pos name cs = column_pos name cs'.
Proof.
  revert cs'. induction cs as [|c cs IH]; intros [|c' cs'] Hn;
    try discriminate; [reflexivity |].
  cbn [col_names map] in Hn. injection Hn as Hc Hn.
  cbn [column_pos]. rewrite Hc. now rewrite (IH cs').
Qed.

Lemma col_names_alter (f : KeyedColumn -> KeyedColumn) (p : nat)
  (cs : list KeyedColumn) :
  (forall kc, Name (kc_Column (f kc)) = Name (kc_Column kc)) ->
  col_names (alter f p cs) = col_names cs.
Proof. intros Hf. unfold col_names. now apply map_alter_invariant. Qed.

Section Loading.
Context `{Declarations} `{Keys}.

Lemma table_columns_scanned (pend : list (result ColumnRow))
  (t t' : LoadedTable) :
  table_columns pend t = Ok t'
  <-> exists cols,
        scanned pend cols
        /\ t' = set_tb_Columns
                  (tb_Columns t ++ map (fun c => mkKeyedColumn c EmptyString) cols)
                  t.
Proof.
  revert t. induction pend as [|scan pend IH]; intros t;
    cbn [table_columns].
  - split.
    + intros [= <-]. exists []. split; [constructor |].
      cbn [map]. rewrite app_nil_r. now destruct t.
    + intros (cols & Hscan & ->). inversion Hscan. cbn [map].
      rewrite app_nil_r. now destruct t.
  - destruct (scanColumn Column_zero scan) as [c|e] eqn:Hc.
    + rewrite IH. split.
      * intros (cols & Hscan & ->). exists (c :: cols).
        split; [now constructor |].
        unfold AddColumn, set_tb_Columns. cbn [tb_Columns tb_Name tb_PrimaryKey
          tb_Indexes map]. now rewrite <- app_assoc.
      * intros (cols & Hscan & ->).
        inversion Hscan as [|scan' c' pend' cols' Hc' Hrest]; subst.
        rewrite Hc in Hc'. injection Hc' as <-.
        exists cols'. split; [exact Hrest |].
        unfold AddColumn, set_tb_Columns. cbn [tb_Columns tb_Name tb_PrimaryKey
          tb_Indexes map]. now rewrite <- app_assoc.
    + split; [discriminate |].
      intros (cols & Hscan & _). inversion Hscan; subst. congruence.
Qed.

(** What the columns of a primary index change. *)
Lemma table_primary_Ok (idx : Index) (names : list string) :
  forall t t' : LoadedTable,
    table_primary idx names t = Ok t' ->
    tb_Name t' = tb_Name t
    /\ tb_Indexes t' = tb_Indexes t
    /\ col_names (tb_Columns t') = col_names (tb_Columns t)
    /\ (forall p kc', tb_Columns t' !! p = Some kc' ->
          exists kc, tb_Columns t !! p = Some kc
                     /\ kc_Column kc' = kc_Column kc)
    /\ exists ps,
         tb_PrimaryKey t' = tb_PrimaryKey t ++ ps
         /\ Forall2 (fun p n => col_names (tb_Columns t) !! p = Some n) ps names.
Proof.
  induction names as [|n names IH]; intros t t' Hrun; cbn [table_primary] in Hrun.
  - injection Hrun as <-. repeat split; [now eauto |].
    exists []. split; [now rewrite app_nil_r | constructor].
  - destruct (column_pos n (tb_Columns t)) as [c|] eqn:Hpos; [| discriminate].
    apply IH in Hrun as (Hname & Hidx & Hnames & Hcols & ps & Hpk & Hps).
    cbn [tb_Name tb_Indexes tb_Columns tb_PrimaryKey] in *.
    assert (col_names
              (alter (fun kc => mkKeyedColumn (kc_Column kc) Key_PrimaryKey) c
                 (tb_Columns t))
            = col_names (tb_Columns t)) as Hsame
        by now apply col_names_alter.
    rewrite Hsame in Hnames, Hps.
    split; [exact Hname |]. split; [exact Hidx |]. split; [exact Hnames |].
    split.
    + intros p kc' Hp. destruct (Hcols p kc' Hp) as (kc1 & Hp1 & Heq).
      destruct (decide (c = p)) as [->|Hne].
      * rewrite list_lookup_alter_eq in Hp1.
        destruct (tb_Columns t !! p) as [kc|]; [| discriminate].
        injection Hp1 as <-. now exists kc.
      * rewrite list_lookup_alter_ne in Hp1 by exact Hne. now exists kc1.
    + exists (c :: ps). split; [now rewrite Hpk, <- app_assoc |].
      constructor; [| exact Hps].
      apply column_pos_Some in Hpos as (kc & Hc & Hn).
      unfold col_names. rewrite map_lookup_at, Hc. cbn [option_map].
      now rewrite Hn.
Qed.

Lemma table_primary_succeeds (idx : Index) (names : list string) :
  forall t : LoadedTable,
    (exists t', table_primary idx names t = Ok t')
    <-> forall n, In n names -> In n (col_names (tb_Columns t)).
Proof.
  induction names as [|n names IH]; intros t; cbn [table_primary].
  - split; [intros _ n [] | intros _; now exists t].
  - destruct (column_pos n (tb_Columns t)) as [c|] eqn:Hpos.
    + rewrite IH. cbn [tb_Columns].
      rewrite col_names_alter by reflexivity.
      split.
      * intros Hall n' [<-|Hin]; [| now apply Hall].
        apply column_pos_found. now exists c.
      * intros Hall n' Hin. apply Hall. now right.
    + split; [intros [t' Ht']; discriminate |].
      intros Hall. exfalso.
      destruct (proj2 (column_pos_found n (tb_Columns t))) as [c Hc];
        [apply Hall; now left | congruence].
Qed.

Lemma table_index_succeeds (t : LoadedTable) (idx : Index) :
  (exists t', table_index t idx = Ok t')
  <-> forall n, In n (looked_up idx) -> In n (col_names (tb_Columns t)).
Proof.
  unfold table_index, looked_up, single_unique.
  destruct (idx_primary idx); [apply table_primary_succeeds |].
  cbn [negb andb]. destruct (idx_Unique idx && _).
  - cbv zeta.
    destruct (column_pos (hd EmptyString (idx_columns idx)) (tb_Columns t))
      as [c|] eqn:Hpos.
    + split; [| intros _; eexists; reflexivity].
      intros _ n [<-|[]]. apply column_pos_found. now exists c.
    + split; [intros [t' Ht']; discriminate |].
      intros Hall. exfalso.
      destruct (proj2 (column_pos_found (hd EmptyString (idx_columns idx))
                         (tb_Columns t))) as [c Hc];
        [apply Hall; now left | congruence].
  - split; [intros _ n [] | intros _; eexists; reflexivity].
Qed.

Lemma loaded_inv_index (name : string) (cols : list Column)
  (done : list Index) (t t' : LoadedTable) (idx : Index) :
  loaded_inv name cols done t ->
  table_index t idx = Ok t' ->
  loaded_inv name cols (done ++ [idx]) t'.
Proof.
  intros (Hname & Hnames & Hidxs & Hpk & Hcols) Hrun.
  unfold table_index in Hrun. unfold loaded_inv.
  rewrite !List.filter_app. cbn [List.filter].
  destruct (idx_primary idx) eqn:Hprimary; cbn [negb].
  - (* the columns of the primary key *)
    apply table_primary_Ok in Hrun
      as (Hname' & Hidxs' & Hnames' & Hcols' & ps & Hpk' & Hps).
    rewrite Hname', Hidxs', Hnames', Hpk', app_nil_r.
    split; [exact Hname |]. split; [exact Hnames |]. split; [exact Hidxs |].
    split.
    + rewrite map_app, concat_app. cbn [map concat]. rewrite app_nil_r.
      now apply Forall2_app.
    + intros p kc' c Hp Hc. destruct (Hcols' p kc' Hp) as (kc & Hkc & Heq).
      destruct (Hcols p kc c Hkc Hc) as (Hsame & Hiff).
      rewrite Heq, (column_pos_names _ _ _ Hnames').
      split; [exact Hsame |]. rewrite Hiff.
      split; (intros [Hu|(Hpos & idx0 & Hin & Hpro)]; [now left | right]);
        (split; [exact Hpos |]).
      * exists idx0. split; [apply in_or_app; now left | exact Hpro].
      * apply in_app_or in Hin as [Hin|[<-|[]]]; [now exists idx0 |].
        unfold promotes, single_unique in Hpro. now rewrite Hprimary in Hpro.
  - destruct (idx_Unique idx && (length (idx_columns idx) =? 1)%nat)
      eqn:Hsingle.
    + (* a unique index on one column *)
      cbv zeta in Hrun.
      set (hdname := hd EmptyString (idx_columns idx)) in *.
      destruct (column_pos hdname (tb_Columns t)) as [q|] eqn:Hpos;
        [| discriminate].
      injection Hrun as <-.
      cbn [Table_addIndex set_tb_Columns tb_Name tb_Columns tb_PrimaryKey
             tb_Indexes].
      set (g := fun kc => mkKeyedColumn (set_Unique true (kc_Column kc))
                            Key_UniqueKey).
      assert (col_names (alter g q (tb_Columns t)) = col_names (tb_Columns t))
        as Hnames' by now apply col_names_alter.
      rewrite Hnames', app_nil_r, Hidxs.
      split; [exact Hname |]. split; [exact Hnames |].
      split; [reflexivity |]. split; [exact Hpk |].
      assert (promotes hdname idx = true) as Hidx.
      { unfold promotes, single_unique. rewrite Hprimary. cbn [negb andb].
        fold hdname. now rewrite Hsingle, String.eqb_refl. }
      intros p kc' c Hp Hc. rewrite (column_pos_names _ _ _ Hnames').
      destruct (decide (q = p)) as [->|Hne].
      * rewrite list_lookup_alter_eq in Hp.
        destruct (tb_Columns t !! p) as [kc|] eqn:Hkc; [| discriminate].
        injection Hp as <-. destruct (Hcols p kc c Hkc Hc) as (Hsame & _).
        cbn [g kc_Column].
        split; [rewrite Hsame; now destruct c |].
        split; [| reflexivity]. intros _. right.
        apply column_pos_Some in Hpos as Hat.
        destruct Hat as (kc0 & Hkc0 & Hn0). rewrite Hkc in Hkc0.
        injection Hkc0 as <-.
        assert (Name c = hdname) as ->
            by (rewrite <- Hn0, Hsame; now destruct c).
        split; [exact Hpos |]. exists idx.
        split; [apply in_or_app; right; now left | exact Hidx].
      * rewrite list_lookup_alter_ne in Hp by exact Hne.
        destruct (Hcols p kc' c Hp Hc) as (Hsame & Hiff).
        split; [exact Hsame |]. rewrite Hiff.
        split; (intros [Hu|(Hposc & idx0 & Hin & Hpro)]; [now left | right]);
          (split; [exact Hposc |]).
        -- exists idx0. split; [apply in_or_app; now left | exact Hpro].
        -- apply in_app_or in Hin as [Hin|[<-|[]]]; [now exists idx0 |].
           exfalso. apply Hne.
           unfold promotes in Hpro. apply andb_true_iff in Hpro as [_ Heq].
           apply String.eqb_eq in Heq. fold hdname in Heq.
           rewrite <- Heq, Hpos in Hposc. now injection Hposc.
    + (* any other index *)
      injection Hrun as <-.
      cbn [Table_addIndex tb_Name tb_Columns tb_PrimaryKey tb_Indexes].
      rewrite app_nil_r, Hidxs.
      split; [exact Hname |]. split; [exact Hnames |].
      split; [reflexivity |]. split; [exact Hpk |].
      intros p kc c Hp Hc. destruct (Hcols p kc c Hp Hc) as (Hsame & Hiff).
      split; [exact Hsame |]. rewrite Hiff.
      split; (intros [Hu|(Hposc & idx0 & Hin & Hpro)]; [now left | right]);
        (split; [exact Hposc |]).
      * exists idx0. split; [apply in_or_app; now left | exact Hpro].
      * apply in_app_or in Hin as [Hin|[<-|[]]]; [now exists idx0 |].
        unfold promotes, single_unique in Hpro.
        rewrite Hprimary in Hpro. cbn [negb andb] in Hpro.
        now rewrite Hsingle in Hpro.
Qed.

Lemma table_index_names (t t' : LoadedTable) (idx : Index) :
  table_index t idx = Ok t' ->
  col_names (tb_Columns t') = col_names (tb_Columns t).
Proof.
  unfold table_index. destruct (idx_primary idx).
  - intros Hrun. now apply table_primary_Ok in Hrun as (_ & _ & Hn & _).
  - destruct (idx_Unique idx && _).
    + cbv zeta. destruct (column_pos _ _); [| discriminate].
      intros [= <-]. cbn [Table_addIndex set_tb_Columns tb_Columns].
      now apply col_names_alter.
    + now intros [= <-].
Qed.

Lemma table_indexes_succeeds (idxs : list Index) :
  forall t : LoadedTable,
    (exists t', table_indexes idxs t = Ok t')
    <-> forall idx, In idx idxs ->
          forall n, In n (looked_up idx) -> In n (col_names (tb_Columns t)).
Proof.
  induction idxs as [|idx idxs IH]; intros t; cbn [table_indexes].
  - split; [intros _ idx [] | intros _; now exists t].
  - destruct (table_index t idx) as [t1|e] eqn:Hidx.
    + rewrite IH, (table_index_names _ _ _ Hidx). split.
      * intros Hall idx' [<-|Hin]; [| now apply Hall].
        apply table_index_succeeds. now exists t1.
      * intros Hall idx' Hin. apply Hall. now right.
    + split; [intros [t' Ht']; discriminate |].
      intros Hall. exfalso.
      destruct (proj2 (table_index_succeeds t idx)) as [t' Ht'];
        [apply Hall; now left | congruence].
Qed.

Lemma loaded_inv_indexes (name : string) (cols : list Column)
  (idxs : list Index) :
  forall (done : list Index) (t t' : LoadedTable),
    loaded_inv name cols done t ->
    table_indexes idxs t = Ok t' ->
    loaded_inv name cols (done ++ idxs) t'.
Proof.
  induction idxs as [|idx idxs IH]; intros done t t' Hinv Hrun;
    cbn [table_indexes] in Hrun.
  - injection Hrun as <-. now rewrite app_nil_r.
  - destruct (table_index t idx) as [t1|] eqn:Hidx; [| discriminate].
    replace (done ++ idx :: idxs) with ((done ++ [idx]) ++ idxs)
      by now rewrite <- app_assoc.
    apply (IH _ t1); [| exact Hrun].
    now apply (loaded_inv_index _ _ _ t).
Qed.

Lemma loaded_inv_start (name : string) (cols : list Column) :
  loaded_inv name cols []
    (set_tb_Columns
       (tb_Columns (NewTable name)
          ++ map (fun c => mkKeyedColumn c EmptyString) cols)
       (NewTable name)).
Proof.
  unfold loaded_inv. cbn [set_tb_Columns NewTable tb_Name tb_Columns
    tb_PrimaryKey tb_Indexes app List.filter map concat].
  split; [reflexivity |].
  split; [unfold col_names; rewrite map_map; reflexivity |].
  split; [reflexivity |]. split; [constructor |].
  intros p kc c Hp Hc. rewrite map_lookup_at, Hc in Hp. injection Hp as <-.
  cbn [kc_Column]. split; [now destruct c |].
  split; [now left |]. intros [Hu|(_ & idx & [] & _)]. exact Hu.
Qed.

(** X17: [table] returns a table exactly when the query on the columns
    succeeds, [scanColumn] reads every row, the result set reports no
    error and closes, [indexes] returns the indexes, and every column of a
    primary index and the column of every unique index on one column are
    among the columns read. *)
Theorem table_succeeds_iff (columns : result (Rows ColumnRow))
  (closing : option string) (indexRows : result (Rows IndexRow))
  (name : string) :
  (exists t, table columns closing indexRows name = Ok t)
  <-> exists rows cols idxs,
        columns = Ok rows
        /\ scanned (pending rows) cols
        /\ rows_err rows = None
        /\ closing = None
        /\ indexes indexRows name = Ok idxs
        /\ forall idx, In idx idxs ->
             forall n, In n (looked_up idx) -> In n (map Name cols).
Proof.
  unfold table. split.
  - intros [t Hrun]. destruct columns as [rows|]; [| discriminate].
    destruct (table_columns (pending rows) (NewTable name)) as [t0|] eqn:Hcols;
      [| discriminate].
    destruct (rows_err rows) eqn:Herr; [discriminate |].
    destruct closing; [discriminate |].
    destruct (indexes indexRows name) as [idxs|]; [| discriminate].
    apply table_columns_scanned in Hcols as (cols & Hscan & ->).
    exists rows, cols, idxs.
    split; [reflexivity |]. split; [exact Hscan |].
    split; [exact Herr |]. split; [reflexivity |]. split; [reflexivity |].
    destruct (loaded_inv_start name cols) as (_ & <- & _).
    apply table_indexes_succeeds. now exists t.
  - intros (rows & cols & idxs & -> & Hscan & -> & -> & -> & Hall).
    assert (table_columns (pending rows) (NewTable name)
            = Ok (set_tb_Columns
                    (tb_Columns (NewTable name)
                       ++ map (fun c => mkKeyedColumn c EmptyString) cols)
                    (NewTable name))) as ->
        by (apply table_columns_scanned; now exists cols).
    apply table_indexes_succeeds.
    destruct (loaded_inv_start name cols) as (_ & -> & _). exact Hall.
Qed.

(** X18: the table that [table] returns has the name asked for and the
    columns read, in the order of the rows, which differ from what
    [scanColumn] made of the rows in the unique flag at most.  Its indexes
    are the indexes read that are not primary, in their order; its primary
    key is made of the columns that the primary indexes name, in their
    order.  A column is unique exactly when it was read so or is the
    column of a unique index on one column that is not primary (the first
    column of that name). *)
Theorem table_loaded (columns : result (Rows ColumnRow))
  (closing : option string) (indexRows : result (Rows IndexRow))
  (name : string) (t : LoadedTable) :
  table columns closing indexRows name = Ok t ->
  exists rows cols idxs,
    columns = Ok rows
    /\ scanned (pending rows) cols
    /\ indexes indexRows name = Ok idxs
    /\ tb_Name t = name
    /\ col_names (tb_Columns t) = map Name cols
    /\ tb_Indexes t = List.filter (fun idx => negb (idx_primary idx)) idxs
    /\ Forall2 (fun p n => col_names (tb_Columns t) !! p = Some n)
         (tb_PrimaryKey t)
         (concat (map idx_columns (List.filter idx_primary idxs)))
    /\ forall p kc c,
         tb_Columns t !! p = Some kc -> cols !! p = Some c ->
         kc_Column kc = set_Unique (Unique (kc_Column kc)) c
         /\ (Unique (kc_Column kc) = true
             <-> Unique c = true
                 \/ (column_pos (Name c) (tb_Columns t) = Some p
                     /\ exists idx,
                          In idx idxs /\ promotes (Name c) idx = true)).
Proof.
  unfold table. intros Hrun.
  destruct columns as [rows|]; [| discriminate].
  destruct (table_columns (pending rows) (NewTable name)) as [t0|] eqn:Hcols;
    [| discriminate].
  destruct (rows_err rows); [discriminate |].
  destruct closing; [discriminate |].
  destruct (indexes indexRows name) as [idxs|]; [| discriminate].
  apply table_columns_scanned in Hcols as (cols & Hscan & ->).
  exists rows, cols, idxs.
  split; [reflexivity |]. split; [exact Hscan |]. split; [reflexivity |].
  apply (loaded_inv_indexes name cols idxs [] _ t (loaded_inv_start name cols)
           Hrun).
Qed.

End Loading.

Lemma table_succeeds_iff_witness :
  exists t,
    table (H := stand_in) (H0 := stand_in_keys) users_columns None
      users_indexes "users"
    = Ok t.
Proof.
  apply (proj2 (table_succeeds_iff (H := stand_in) (H0 := stand_in_keys)
                  users_columns None users_indexes "users")).
  exists (mkRows [Ok (plain_row "id" "bigint"); Ok (plain_row "email" "text")]
            None),
    [mkColumn "id" field.TypeInt64 "bigint" 0 false false None None;
     mkColumn "email" field.TypeString "text" (maxCharSize + 1) false false
       None None],
    [mkIndex "pkey" true [] ["id"] true "users_pkey";
     mkIndex "email_key" true [] ["email"] false "users_email_key"].
  split; [reflexivity |].
  split; [repeat constructor |].
  split; [reflexivity |]. split; [reflexivity |]. split; [reflexivity |].
  intros idx [<-|[<-|[]]] n [<-|[]]; simpl; tauto.
Defined.

Lemma table_loaded_witness :
  exists cols idxs,
    scanned (H := stand_in)
      [Ok (plain_row "id" "bigint"); Ok (plain_row "email" "text")] cols
    /\ indexes users_indexes "users" = Ok idxs
    /\ tb_Indexes users_loaded
       = List.filter (fun idx => negb (idx_primary idx)) idxs
    /\ Forall2 (fun p n => col_names (tb_Columns users_loaded) !! p = Some n)
         (tb_PrimaryKey users_loaded)
         (concat (map idx_columns (List.filter idx_primary idxs))).
Proof.
  destruct (table_loaded (H := stand_in) (H0 := stand_in_keys) users_columns
              None users_indexes "users" users_loaded eq_refl)
    as (rows & cols & idxs & Hrows & Hscan & Hidxs & _ & _ & Hkept & Hpk & _).
  injection Hrows as <-. now exists cols, idxs.
Defined.

(** ** Implicit indexes of the table that is loaded *)

Lemma indexes_short_names (answer : result (Rows IndexRow)) (table : string)
  (idxs : list Index) :
  indexes answer table = Ok idxs ->
  forall idx, In idx idxs ->
    idx_Name idx = strings.TrimPrefix (idx_realname idx) (table +:+ "_").
Proof.
  intros Hrun idx Hin. unfold indexes in Hrun.
  destruct answer as [[pend closing]|]; [| discriminate].
  cbn [pending rows_err] in Hrun.
  destruct (indexes_loop_failure table pend ([], ∅))
    as [(rows & -> & Hloop)|(seen & e & rest & -> & Hloop)];
    rewrite Hloop in Hrun; [| discriminate].
  destruct (indexes_of_scanned_rows table rows) as (idxs' & Hrun' & _ & Hidx).
  unfold indexes in Hrun'. cbn [pending rows_err] in Hrun'.
  rewrite Hloop in Hrun'.
  destruct (fold_left _ rows _) as [idxs0 names].
  destruct closing; [discriminate |].
  injection Hrun as <-. injection Hrun' as <-.
  destruct (Hidx idx Hin) as (_ & _ & r & rest & Hfirst & _ & _ & ->).
  assert (In r (rows_named table (idx_Name idx) rows)) as Hr
      by (rewrite Hfirst; now left).
  unfold rows_named in Hr. apply List.filter_In in Hr as [_ Hr].
  apply String.eqb_eq in Hr. now rewrite <- Hr.
Qed.

Section Implicit.
Context `{Declarations} `{Keys}.

(** X19: the index that the server makes for a unique column, called
    [<table>_<column>_key], is kept by [table] as an index of the table
    that is loaded, and [isImplicitIndex] recognises it as the implicit
    index of the column as [table] returns it. *)
Theorem implicit_index_of_loaded_table (columns : result (Rows ColumnRow))
  (closing : option string) (indexRows : result (Rows IndexRow))
  (name : string) (t : LoadedTable) (idx : Index) (n : string) :
  table columns closing indexRows name = Ok t ->
  In idx (tb_Indexes t) ->
  idx_Unique idx = true ->
  idx_columns idx = [n] ->
  idx_realname idx = name +:+ "_" +:+ n +:+ "_key" ->
  exists p kc,
    column_pos n (tb_Columns t) = Some p
    /\ tb_Columns t !! p = Some kc
    /\ isImplicitIndex idx (kc_Column kc) = true.
Proof.
  intros Hrun Hin Hunique Hcolumns Hreal. unfold table in Hrun.
  destruct columns as [rows|]; [| discriminate].
  destruct (table_columns (pending rows) (NewTable name)) as [t0|] eqn:Hcols;
    [| discriminate].
  destruct (rows_err rows); [discriminate |].
  destruct closing; [discriminate |].
  destruct (indexes indexRows name) as [idxs|] eqn:Hidxs; [| discriminate].
  apply table_columns_scanned in Hcols as (cols & Hscan & ->).
  pose proof (loaded_inv_indexes name cols idxs [] _ t
                (loaded_inv_start name cols) Hrun)
    as (_ & Hnames & Hkept & _ & Hflags).
  cbn [app] in *. rewrite Hkept in Hin.
  apply List.filter_In in Hin as [Hin Hprimary].
  apply negb_true_iff in Hprimary.
  assert (promotes n idx = true) as Hpromotes.
  { unfold promotes, single_unique.
    rewrite Hprimary, Hunique, Hcolumns. cbn. apply String.eqb_refl. }
  assert (In n (col_names (tb_Columns t))) as Hfound.
  { rewrite Hnames.
    destruct (loaded_inv_start name cols) as (_ & <- & _).
    apply (proj1 (table_indexes_succeeds idxs _)) with (idx := idx);
      [now exists t | exact Hin |].
    unfold looked_up, single_unique.
    rewrite Hprimary, Hunique, Hcolumns. now left. }
  apply column_pos_found in Hfound as [p Hp].
  destruct (column_pos_Some _ _ _ Hp) as (kc & Hkc & Hn).
  exists p, kc. split; [exact Hp |]. split; [exact Hkc |].
  assert (exists c, cols !! p = Some c /\ Name c = n) as (c & Hc & Hcn).
  { assert (col_names (tb_Columns t) !! p = Some n) as Hat
        by (unfold col_names; now rewrite map_lookup_at, Hkc, <- Hn).
    rewrite Hnames, map_lookup_at in Hat.
    destruct (cols !! p) as [c|]; [| discriminate].
    injection Hat as Hat. now exists c. }
  destruct (Hflags p kc c Hkc Hc) as (_ & Hiff).
  unfold isImplicitIndex.
  rewrite (indexes_short_names _ _ _ Hidxs idx Hin), Hreal.
  rewrite <- append_assoc, TrimPrefix_append, TrimSuffix_append, Hn.
  rewrite String.eqb_refl. cbn [andb].
  apply Hiff. right. rewrite Hcn. split; [exact Hp |]. now exists idx.
Qed.

End Implicit.

Lemma implicit_index_of_loaded_table_witness :
  exists p kc,
    column_pos "email" (tb_Columns users_loaded) = Some p
    /\ tb_Columns users_loaded !! p = Some kc
    /\ isImplicitIndex
         (mkIndex "email_key" true [] ["email"] false "users_email_key")
         (kc_Column kc)
       = true.
Proof.
  apply (implicit_index_of_loaded_table (H := stand_in) (H0 := stand_in_keys)
           users_columns None users_indexes "users" users_loaded
           (mkIndex "email_key" true [] ["email"] false "users_email_key")
           "email"); try reflexivity.
  now left.
Defined.

(** ** The errors of [table] *)

Section LoadErrors.
Context `{Declarations} `{Keys}.

Lemma table_columns_fails (pend : list (result ColumnRow)) (e : string) :
  forall t : LoadedTable,
    table_columns pend t = Err e
    <-> exists seen cols scan rest,
          pend = seen ++ scan :: rest
          /\ scanned seen cols
          /\ scanColumn Column_zero scan = Err e.
Proof.
  induction pend as [|scan pend IH]; intros t; cbn [table_columns].
  - split; [discriminate |]. intros (seen & cols & s & rest & Heq & _).
    now destruct seen.
  - destruct (scanColumn Column_zero scan) as [c|e0] eqn:Hc.
    + rewrite IH. split.
      * intros (seen & cols & s & rest & -> & Hseen & Hs).
        exists (scan :: seen), (c :: cols), s, rest.
        split; [reflexivity |]. split; [now constructor | exact Hs].
      * intros (seen & cols & s & rest & Heq & Hseen & Hs).
        destruct seen as [|s0 seen]; cbn [app] in Heq;
          injection Heq as <- ->; [congruence |].
        inversion Hseen as [|? c' ? cols' _ Hrest]; subst.
        now exists seen, cols', s, rest.
    + split.
      * intros [= <-]. exists [], [], scan, pend.
        split; [reflexivity |]. split; [constructor | exact Hc].
      * intros (seen & cols & s & rest & Heq & Hseen & Hs).
        destruct seen as [|s0 seen]; cbn [app] in Heq;
          injection Heq as <- ->; [congruence |].
        inversion Hseen; subst. congruence.
Qed.

Lemma table_primary_fails (idx : Index) (names : list string) (e : string) :
  forall t : LoadedTable,
    table_primary idx names t = Err e
    <-> exists n, first_missing names (col_names (tb_Columns t)) n
                  /\ e = not_found idx n t.
Proof.
  unfold first_missing.
  induction names as [|m names IH]; intros t; cbn [table_primary].
  - split; [discriminate |].
    intros (n & (before & after & Heq & _) & _). now destruct before.
  - destruct (column_pos m (tb_Columns t)) as [c|] eqn:Hpos.
    + assert (In m (col_names (tb_Columns t))) as Hm
          by (apply column_pos_found; now exists c).
      rewrite IH. cbn [tb_Columns]. rewrite col_names_alter by reflexivity.
      split.
      * intros (n & (before & after & -> & Hbefore & Hn) & ->).
        exists n. split; [| reflexivity].
        exists (m :: before), after. split; [reflexivity |].
        split; [| exact Hn]. intros m' [<-|Hin]; [exact Hm | now apply Hbefore].
      * intros (n & (before & after & Heq & Hbefore & Hn) & ->).
        destruct before as [|m0 before]; cbn [app] in Heq;
          injection Heq as <- ->; [contradiction |].
        exists n. split; [| reflexivity].
        exists before, after. split; [reflexivity |].
        split; [| exact Hn]. intros m' Hin. apply Hbefore. now right.
    + assert (~ In m (col_names (tb_Columns t))) as Hm.
      { intros Hin. apply column_pos_found in Hin as [c Hc]. congruence. }
      split.
      * intros [= <-]. exists m. split; [| reflexivity].
        exists [], names. split; [reflexivity |]. split; [intros m' [] | exact Hm].
      * intros (n & (before & after & Heq & Hbefore & Hn) & ->).
        destruct before as [|m0 before]; cbn [app] in Heq;
          injection Heq as <- ->; [reflexivity |].
        elim Hm. apply Hbefore. now left.
Qed.

Lemma table_index_fails (t : LoadedTable) (idx : Index) (e : string) :
  table_index t idx = Err e
  <-> exists n, first_missing (looked_up idx) (col_names (tb_Columns t)) n
                /\ e = not_found idx n t.
Proof.
  unfold table_index, looked_up, single_unique.
  destruct (idx_primary idx); [apply table_primary_fails |].
  cbn [negb andb]. destruct (idx_Unique idx && _).
  - cbv zeta. set (hdname := hd EmptyString (idx_columns idx)).
    destruct (column_pos hdname (tb_Columns t)) as [c|] eqn:Hpos.
    + split; [discriminate |].
      intros (n & (before & after & Heq & _ & Hn) & _).
      destruct before as [|m0 [|m1 before]]; try discriminate.
      injection Heq as <- _. elim Hn. apply column_pos_found. now exists c.
    + split.
      * intros [= <-]. exists hdname. split; [| reflexivity].
        exists [], []. split; [reflexivity |]. split; [intros m [] |].
        intros Hin. apply column_pos_found in Hin as [c Hc]. congruence.
      * intros (n & (before & after & Heq & _) & ->).
        destruct before as [|m0 [|m1 before]]; try discriminate.
        now injection Heq as <- _.
  - split; [discriminate |].
    intros (n & (before & after & Heq & _) & _). now destruct before.
Qed.

Lemma table_index_Name (t t' : LoadedTable) (idx : Index) :
  table_index t idx = Ok t' -> tb_Name t' = tb_Name t.
Proof.
  unfold table_index. destruct (idx_primary idx).
  - intros Hrun. now apply table_primary_Ok in Hrun as (Hn & _).
  - destruct (idx_Unique idx && _).
    + cbv zeta. destruct (column_pos _ _); [| discriminate]. now intros [= <-].
    + now intros [= <-].
Qed.

Lemma table_indexes_fails (idxs : list Index) (e : string) :
  forall t : LoadedTable,
    table_indexes idxs t = Err e
    <-> exists done idx rest n,
          idxs = done ++ idx :: rest
          /\ (forall i, In i done ->
                forall m, In m (looked_up i) -> In m (col_names (tb_Columns t)))
          /\ first_missing (looked_up idx) (col_names (tb_Columns t)) n
          /\ e = not_found idx n t.
Proof.
  induction idxs as [|idx0 idxs IH]; intros t; cbn [table_indexes].
  - split; [discriminate |].
    intros (done & idx & rest & n & Heq & _). now destruct done.
  - destruct (table_index t idx0) as [t1|e0] eqn:Hidx.
    + assert (forall m, In m (looked_up idx0) -> In m (col_names (tb_Columns t)))
        as Hfound by (apply table_index_succeeds; now exists t1).
      rewrite IH, (table_index_names _ _ _ Hidx).
      unfold not_found. rewrite (table_index_Name _ _ _ Hidx).
      split.
      * intros (done & idx & rest & n & -> & Hdone & Hmiss & ->).
        exists (idx0 :: done), idx, rest, n. split; [reflexivity |].
        split; [| now split].
        intros i [<-|Hin]; [exact Hfound | now apply Hdone].
      * intros (done & idx & rest & n & Heq & Hdone & Hmiss & ->).
        destruct done as [|i0 done]; cbn [app] in Heq; injection Heq as <- ->.
        -- exfalso. destruct Hmiss as (before & after & Heq & _ & Hn).
           apply Hn, Hfound. rewrite Heq. apply in_or_app. right. now left.
        -- exists done, idx, rest, n. split; [reflexivity |].
           split; [| now split]. intros i Hin. apply Hdone. now right.
    + apply table_index_fails in Hidx as (n & Hmiss & ->). split.
      * intros [= <-]. exists [], idx0, idxs, n.
        split; [reflexivity |]. split; [intros i [] | now split].
      * intros (done & idx & rest & n' & Heq & Hdone & Hmiss' & ->).
        destruct done as [|i0 done]; cbn [app] in Heq; injection Heq as <- ->.
        -- do 2 f_equal.
           destruct Hmiss as (b1 & a1 & Heq1 & Hb1 & Hn1).
           destruct Hmiss' as (b2 & a2 & Heq2 & Hb2 & Hn2).
           rewrite Heq1 in Heq2. clear -Heq2 Hb1 Hn1 Hb2 Hn2.
           revert b2 Heq2 Hb2.
           induction b1 as [|x b1 IHb]; intros [|y b2] Heq2 Hb2;
             cbn [app] in Heq2; injection Heq2 as Hxy Hrest.
           ++ now subst.
           ++ subst. elim Hn1. apply Hb2. now left.
           ++ subst. elim Hn2. apply Hb1. now left.
           ++ subst.
              apply (IHb (fun m Hm => Hb1 m (or_intror Hm)) b2 Hrest
                       (fun m Hm => Hb2 m (or_intror Hm))).
        -- exfalso. destruct Hmiss as (before & after & Heq & _ & Hn).
           apply Hn, (Hdone idx0 (or_introl eq_refl)).
           rewrite Heq. apply in_or_app. right. now left.
Qed.

(** X20: [table] fails in six ways only, and in each of them it fails: the
    query on the columns fails; [scanColumn] fails on a row, the first such
    error being returned; the result set reports an error; it does not
    close; [indexes] fails; or a primary index, or a unique index on one
    column, names a column that was not read, and the error names the
    first such index, that column and the table. *)
Theorem table_fails_iff (columns : result (Rows ColumnRow))
  (closing : option string) (indexRows : result (Rows IndexRow))
  (name e : string) :
  table columns closing indexRows name = Err e
  <-> load_failure name closing indexRows columns e.
Proof.
  assert (forall cols,
            col_names (map (fun c => mkKeyedColumn c EmptyString) cols)
            = map Name cols) as Hfresh
      by (intros cols; unfold col_names; now rewrite map_map).
  unfold table. split.
  - destruct columns as [[pend closed]|e0]; [| intros [= <-]; constructor].
    cbn [pending rows_err].
    destruct (table_columns pend (NewTable name)) as [t0|e0] eqn:Hcols.
    + apply table_columns_scanned in Hcols as (cols & Hscan & ->).
      destruct closed as [e0|]; [intros [= <-]; now apply (load_rows_fail _ _ _ _ cols) |].
      destruct closing as [e0|] eqn:Hclosing;
        [intros [= <-]; now apply (load_close_fails _ _ _ _ cols) |].
      destruct (indexes indexRows name) as [idxs|e0] eqn:Hidxs;
        [| intros [= <-]; now apply (load_indexes_fail _ _ _ _ cols)].
      intros Hrun. apply table_indexes_fails in Hrun
        as (done & idx & rest & n & -> & Hdone & Hmiss & ->).
      cbn [set_tb_Columns tb_Columns NewTable app] in Hdone, Hmiss.
      rewrite Hfresh in Hdone, Hmiss.
      now apply (load_column_missing _ _ _ _ cols done rest idx n).
    + intros [= <-].
      apply table_columns_fails in Hcols
        as (seen & cols & scan & rest & -> & Hseen & Hscan).
      now apply (load_scan_fails _ _ _ seen rest cols).
  - intros [e0|seen rest cols scan closed e0 Hseen Hscan|pend cols e0 Hscan
           |pend cols e0 Hscan ->|pend cols e0 Hscan -> Hidxs
           |pend cols done rest idx n Hscan -> Hidxs Hdone Hmiss];
      [reflexivity | | | | |]; cbn [pending rows_err].
    + assert (table_columns (seen ++ scan :: rest) (NewTable name) = Err e0)
        as -> by (apply table_columns_fails; now exists seen, cols, scan, rest).
      reflexivity.
    + destruct (table_columns pend (NewTable name)) as [t0|e1] eqn:Hcols;
        [reflexivity |].
      exfalso. assert (exists t0, table_columns pend (NewTable name) = Ok t0)
        as [t0 Ht0] by (eexists; apply table_columns_scanned; now exists cols).
      congruence.
    + assert (exists t0, table_columns pend (NewTable name) = Ok t0)
        as [t0 ->] by (eexists; apply table_columns_scanned; now exists cols).
      reflexivity.
    + assert (exists t0, table_columns pend (NewTable name) = Ok t0)
        as [t0 ->] by (eexists; apply table_columns_scanned; now exists cols).
      now rewrite Hidxs.
    + assert (table_columns pend (NewTable name)
              = Ok (set_tb_Columns
                      (tb_Columns (NewTable name)
                         ++ map (fun c => mkKeyedColumn c EmptyString) cols)
                      (NewTable name))) as ->
          by (apply table_columns_scanned; now exists cols).
      rewrite Hidxs. apply table_indexes_fails.
      exists done, idx, rest, n. split; [reflexivity |].
      cbn [set_tb_Columns tb_Columns NewTable app]. rewrite Hfresh.
      now repeat split.
Qed.

End LoadErrors.

Lemma table_fails_iff_witness :
  table (H := stand_in) (H0 := stand_in_keys) email_only None users_indexes
    "users"
  = Err (not_found (H := stand_in) users_pkey "id" (NewTable "users")).
Proof.
  apply (proj2 (table_fails_iff (H := stand_in) (H0 := stand_in_keys)
                  email_only None users_indexes "users" _)).
  unfold not_found. cbn [tb_Name NewTable].
  apply (load_column_missing (H := stand_in) "users" None users_indexes
           [Ok (plain_row "email" "text")]
           [mkColumn "email" field.TypeString "text" (maxCharSize + 1) false
              false None None]
           [] [mkIndex "email_key" true [] ["email"] false "users_email_key"]
           users_pkey "id").
  - repeat constructor.
  - reflexivity.
  - reflexivity.
  - intros i [].
  - exists [], []. split; [reflexivity |]. split; [intros m [] |].
    intros [Heq|[]]. discriminate Heq.
Defined.
